(** * 2D-POLIM movie analysis: a shallow embedding of [util2dpolim/movie.py]

    The development follows the stages of the [Movie] class: the angle
    grids fixed by the constructor, the portrait indexer, the modulation
    analysis (line shift and anisotropy), the FFT-based energy-transfer
    ruler, the funnel-model fit, the multi-process driver and the
    signal-to-noise filter on spots.

    Numbers are IEEE-754 binary64 values, as numpy's [float64] and Python's
    [float] are; they are modelled by the Standard Library's [spec_float]
    with precision 53 and maximal exponent 1024, so that every definition
    below computes. *)

From Stdlib Require Import ZArith List Bool Lia PeanoNat.
From Stdlib Require Import Floats.SpecFloat.
From Stdlib Require Ascii String.
From Stdlib Require Import Permutation Sorted.
Import ListNotations.

Set Implicit Arguments.

(** ** Exceptions and results *)

(** The exceptions the modelled code can raise.  The module starts with
    [warnings.filterwarnings('error')], so a floating-point warning of numpy
    (divide by zero, overflow, invalid value) is raised as an exception. *)
Inductive exn : Type :=
| AssertionError
| ZeroDivisionError
| IndexError
| AttributeError
| ValueError
| RuntimeWarning.

Inductive result (A : Type) : Type :=
| Ok (a : A)
| Raise (e : exn).

Arguments Ok {A} a.
Arguments Raise {A} e.

Definition bind {A B : Type} (r : result A) (k : A -> result B) : result B :=
  match r with
  | Ok a => k a
  | Raise e => Raise e
  end.

Declare Scope result_scope.
Delimit Scope result_scope with result.
Notation "x <- c ;; k" := (bind c (fun x => k))
  (at level 61, c at next level, right associativity) : result_scope.
Notation "' pat <- c ;; k" :=
  (bind c (fun x => match x with pat => k end))
  (at level 61, pat pattern, c at next level, right associativity)
  : result_scope.
Notation "c ;;; k" := (bind c (fun _ => k))
  (at level 61, right associativity) : result_scope.
Local Open Scope result_scope.

Definition assert (b : bool) : result unit :=
  if b then Ok tt else Raise AssertionError.

Definition of_option {A : Type} (e : exn) (o : option A) : result A :=
  match o with
  | Some a => Ok a
  | None => Raise e
  end.

(** ** Binary64 numbers *)

Module F64.

Definition prec : Z := 53.
Definition emax : Z := 1024.

Definition float : Type := spec_float.

Definition nan : float := S754_nan.
Definition inf : float := S754_infinity false.
Definition zero : float := S754_zero false.

(** The binary64 value nearest to an integer, and to a quotient of two
    integers: a decimal literal such as [.08] denotes the binary64 nearest
    to 8/100, which is what the correctly rounded quotient computes. *)
Definition of_Z (z : Z) : float := binary_normalize prec emax z 0 false.

Definition add : float -> float -> float := SFadd prec emax.
Definition sub : float -> float -> float := SFsub prec emax.
Definition mul : float -> float -> float := SFmul prec emax.
Definition div : float -> float -> float := SFdiv prec emax.
Definition opp : float -> float := SFopp.
Definition abs : float -> float := SFabs.

Definition ratio (p q : Z) : float := div (of_Z p) (of_Z q).

Definition one : float := of_Z 1.

(** Comparisons: each of them is false as soon as an operand is NaN. *)
Definition ltb : float -> float -> bool := SFltb.
Definition leb : float -> float -> bool := SFleb.
Definition eqb : float -> float -> bool := SFeqb.
Definition gtb (x y : float) : bool := ltb y x.
Definition geb (x y : float) : bool := leb y x.

Definition isnan (x : float) : bool :=
  match x with S754_nan => true | _ => false end.

Definition isinf (x : float) : bool :=
  match x with S754_infinity _ => true | _ => false end.

Definition isfinite (x : float) : bool :=
  match x with S754_zero _ | S754_finite _ _ _ => true | _ => false end.

(** [np.pi], the binary64 nearest to pi: 0x400921FB54442D18. *)
Definition pi : float := S754_finite false 7074237752028440 (-51).

(** [np.pi/2]: halving is exact. *)
Definition half_pi : float := S754_finite false 7074237752028440 (-52).

(** [np.finfo(np.float).eps], 2^-52. *)
Definition eps : float := S754_finite false 4503599627370496 (-104).

End F64.

Import F64.

(** ** numpy arithmetic under [warnings.filterwarnings('error')]

    numpy reports the IEEE exception flags [divide by zero], [overflow] and
    [invalid value] as warnings (underflow is ignored); the warning filter
    of the module turns each of them into a raised exception.  A quiet NaN
    operand raises no flag. *)

Module Np.

Definition overflowed (x y r : float) : bool :=
  isfinite x && isfinite y && isinf r.

Definition checked (x y r : float) : result float :=
  if overflowed x y r then Raise RuntimeWarning else Ok r.

Definition add (x y : float) : result float :=
  match x, y with
  | S754_infinity sx, S754_infinity sy =>
      if Bool.eqb sx sy then Ok x else Raise RuntimeWarning
  | _, _ => checked x y (F64.add x y)
  end.

Definition sub (x y : float) : result float :=
  match x, y with
  | S754_infinity sx, S754_infinity sy =>
      if Bool.eqb sx sy then Raise RuntimeWarning else Ok x
  | _, _ => checked x y (F64.sub x y)
  end.

Definition mul (x y : float) : result float :=
  match x, y with
  | S754_infinity _, S754_zero _ | S754_zero _, S754_infinity _ =>
      Raise RuntimeWarning
  | _, _ => checked x y (F64.mul x y)
  end.

Definition div (x y : float) : result float :=
  match x, y with
  | S754_nan, _ | _, S754_nan => Ok nan
  | S754_zero _, S754_zero _ => Raise RuntimeWarning
  | S754_infinity _, S754_infinity _ => Raise RuntimeWarning
  | S754_finite _ _ _, S754_zero _ => Raise RuntimeWarning
  | _, _ => checked x y (F64.div x y)
  end.

(** [np.sum] of a short one-dimensional array: the first entry, then the
    others added from left to right; the sum of no entry is 0. *)
Fixpoint sum_from (acc : float) (l : list float) : result float :=
  match l with
  | [] => Ok acc
  | x :: l' => acc' <- add acc x ;; sum_from acc' l'
  end.

Definition sum (l : list float) : result float :=
  match l with
  | [] => Ok zero
  | x :: l' => sum_from x l'
  end.

(** [np.mean]: the mean of an empty array is a warning (``Mean of empty
    slice''), hence an exception here. *)
Definition mean (l : list float) : result float :=
  match l with
  | [] => Raise RuntimeWarning
  | _ => s <- sum l ;; div s (of_Z (Z.of_nat (length l)))
  end.

(** [np.clip(x, lo, hi)] on a scalar, for bounds that are numbers: an entry
  below [lo] becomes [lo], an entry above [hi] becomes [hi], and any other
  entry, NaN included, is kept. *)
Definition clip (x lo hi : float) : float :=
  if F64.ltb x lo then lo else if F64.gtb x hi then hi else x.

End Np.

(** Monadic traversals of a list, for the array operations of numpy. *)
Fixpoint mapM {A B : Type} (f : A -> result B) (l : list A) : result (list B) :=
  match l with
  | [] => Ok []
  | x :: l' => y <- f x ;; ys <- mapM f l' ;; Ok (y :: ys)
  end.

Fixpoint forM_ {A : Type} (f : A -> result unit) (l : list A) : result unit :=
  match l with
  | [] => Ok tt
  | x :: l' => f x ;;; forM_ f l'
  end.

(** ** Spots

    A spot is a Python object whose analysis results are attributes assigned
    by the stages; an attribute that has not been assigned yet is [None]
    here.  Only the attributes the stages below read or write are kept. *)

Inductive npval : Type :=
| Scalar (x : float)
| Array (l : list float).

Record Spot : Type := mkSpot {
  intensity : list float;
  use_borderbg : bool;
  borderbgstd : npval;
  SNR : option (list float);
  framecountSNR : option Z;
  meanSNR : option float;
  sam : option (list (list float));
  M_ex : option float;
  M_em : option float;
  phase_ex : option float;
  phase_em : option float;
  LS : option float;
  anisotropy : option float;
  anisotropy_n : option float;
  ET_ruler : option float;
  ETmodel_md_fu : option float;
  ETmodel_th_fu : option float;
  ETmodel_gr : option float;
  ETmodel_et : option float;
  ETmodel_resi : option float
}.

(** Reading an attribute that was never assigned raises. *)
Definition attr {A : Type} (field : Spot -> option A) (s : Spot) : result A :=
  of_option AttributeError (field s).

Definition set_SNR (s : Spot) (v : list float) : Spot :=
  mkSpot (intensity s) (use_borderbg s) (borderbgstd s) (Some v)
    (framecountSNR s) (meanSNR s) (sam s) (M_ex s) (M_em s) (phase_ex s)
    (phase_em s) (LS s) (anisotropy s) (anisotropy_n s) (ET_ruler s)
    (ETmodel_md_fu s) (ETmodel_th_fu s) (ETmodel_gr s) (ETmodel_et s)
    (ETmodel_resi s).

Definition set_framecountSNR (s : Spot) (v : Z) : Spot :=
  mkSpot (intensity s) (use_borderbg s) (borderbgstd s) (SNR s)
    (Some v) (meanSNR s) (sam s) (M_ex s) (M_em s) (phase_ex s)
    (phase_em s) (LS s) (anisotropy s) (anisotropy_n s) (ET_ruler s)
    (ETmodel_md_fu s) (ETmodel_th_fu s) (ETmodel_gr s) (ETmodel_et s)
    (ETmodel_resi s).

Definition set_meanSNR (s : Spot) (v : float) : Spot :=
  mkSpot (intensity s) (use_borderbg s) (borderbgstd s) (SNR s)
    (framecountSNR s) (Some v) (sam s) (M_ex s) (M_em s) (phase_ex s)
    (phase_em s) (LS s) (anisotropy s) (anisotropy_n s) (ET_ruler s)
    (ETmodel_md_fu s) (ETmodel_th_fu s) (ETmodel_gr s) (ETmodel_et s)
    (ETmodel_resi s).

Definition set_sam (s : Spot) (v : list (list float)) : Spot :=
  mkSpot (intensity s) (use_borderbg s) (borderbgstd s) (SNR s)
    (framecountSNR s) (meanSNR s) (Some v) (M_ex s) (M_em s) (phase_ex s)
    (phase_em s) (LS s) (anisotropy s) (anisotropy_n s) (ET_ruler s)
    (ETmodel_md_fu s) (ETmodel_th_fu s) (ETmodel_gr s) (ETmodel_et s)
    (ETmodel_resi s).

Definition set_modulation (s : Spot) (mex mem phex phem ls : float) : Spot :=
  mkSpot (intensity s) (use_borderbg s) (borderbgstd s) (SNR s)
    (framecountSNR s) (meanSNR s) (sam s) (Some mex) (Some mem) (Some phex)
    (Some phem) (Some ls) (anisotropy s) (anisotropy_n s) (ET_ruler s)
    (ETmodel_md_fu s) (ETmodel_th_fu s) (ETmodel_gr s) (ETmodel_et s)
    (ETmodel_resi s).

Definition set_anisotropy (s : Spot) (v : float) : Spot :=
  mkSpot (intensity s) (use_borderbg s) (borderbgstd s) (SNR s)
    (framecountSNR s) (meanSNR s) (sam s) (M_ex s) (M_em s) (phase_ex s)
    (phase_em s) (LS s) (Some v) (anisotropy_n s) (ET_ruler s)
    (ETmodel_md_fu s) (ETmodel_th_fu s) (ETmodel_gr s) (ETmodel_et s)
    (ETmodel_resi s).

Definition set_anisotropy_n (s : Spot) (v : float) : Spot :=
  mkSpot (intensity s) (use_borderbg s) (borderbgstd s) (SNR s)
    (framecountSNR s) (meanSNR s) (sam s) (M_ex s) (M_em s) (phase_ex s)
    (phase_em s) (LS s) (anisotropy s) (Some v) (ET_ruler s)
    (ETmodel_md_fu s) (ETmodel_th_fu s) (ETmodel_gr s) (ETmodel_et s)
    (ETmodel_resi s).

Definition set_ET_ruler (s : Spot) (v : float) : Spot :=
  mkSpot (intensity s) (use_borderbg s) (borderbgstd s) (SNR s)
    (framecountSNR s) (meanSNR s) (sam s) (M_ex s) (M_em s) (phase_ex s)
    (phase_em s) (LS s) (anisotropy s) (anisotropy_n s) (Some v)
    (ETmodel_md_fu s) (ETmodel_th_fu s) (ETmodel_gr s) (ETmodel_et s)
    (ETmodel_resi s).

Definition set_ETmodel (s : Spot) (md_fu th_fu gr et resi : float) : Spot :=
  mkSpot (intensity s) (use_borderbg s) (borderbgstd s) (SNR s)
    (framecountSNR s) (meanSNR s) (sam s) (M_ex s) (M_em s) (phase_ex s)
    (phase_em s) (LS s) (anisotropy s) (anisotropy_n s) (ET_ruler s)
    (Some md_fu) (Some th_fu) (Some gr) (Some et) (Some resi).

(** [self.validspots[si] = s] for an index in range; the callers look the
    index up first, so an index out of range has raised [IndexError]
    before. *)
Fixpoint update_spot (vs : list Spot) (si : nat) (s : Spot) : list Spot :=
  match vs, si with
  | [] , _ => []
  | _ :: vs', O => s :: vs'
  | x :: vs', S si' => x :: update_spot vs' si' s
  end.

Definition get_spot (vs : list Spot) (si : nat) : result Spot :=
  of_option IndexError (nth_error vs si).

(** [for sii, si in enumerate(myspots): body(cols[sii], validspots[si])]:
    the loop shared by the stages, over the spot indices of [myspots] and
    one column of batched results per position in [myspots].  The body
    assigns attributes of the spot object in place. *)
Fixpoint for_spots {C : Type} (body : C -> Spot -> result Spot)
    (cols : list C) (myspots : list nat) (vs : list Spot) {struct myspots}
    : result (list Spot) :=
  match myspots with
  | [] => Ok vs
  | si :: rest =>
      match cols with
      | [] => Raise IndexError
      | c :: cols' =>
          s <- get_spot vs si ;;
          s' <- body c s ;;
          for_spots body cols' rest (update_spot vs si s')
      end
  end.

(** [for si in myspots: body(validspots[si])], the same loop without
    columns. *)
Definition for_each_spot (body : Spot -> result Spot) (myspots : list nat)
    (vs : list Spot) : result (list Spot) :=
  for_spots (fun _ : unit => body) (map (fun _ => tt) myspots) myspots vs.

(** ** The angle grids: [Movie.__init__] *)

Module AngleGrid.

(** C's [fmod] on binary64: the remainder is computed exactly on the
    integer mantissas brought to a common exponent, and has the sign of the
    dividend.  An infinite dividend or a zero divisor raises the [invalid]
    flag. *)
Definition fmod (a b : float) : result float :=
  match a, b with
  | S754_nan, _ | _, S754_nan => Ok nan
  | S754_infinity _, _ => Raise RuntimeWarning
  | _, S754_zero _ => Raise RuntimeWarning
  | _, S754_infinity _ => Ok a
  | S754_zero _, _ => Ok a
  | S754_finite sa ma ea, S754_finite _ mb eb =>
      let e := Z.min ea eb in
      let A := (Zpos ma * 2 ^ (ea - e))%Z in
      let B := (Zpos mb * 2 ^ (eb - e))%Z in
      Ok (binary_normalize prec emax (cond_Zopp sa (A mod B)) e sa)
  end.

(** [np.mod] on binary64: [fmod], then the divisor is added when the
    remainder is not zero and has the other sign. *)
Definition np_mod (a b : float) : result float :=
  r <- fmod a b ;;
  if negb (F64.eqb r zero)
     && negb (Bool.eqb (F64.ltb b zero) (F64.ltb r zero))
  then Np.add r b
  else Ok r.

(** [np.linspace(0, np.pi, n, endpoint=False)]: entry [i] is
    [i * (np.pi / n) + 0]. *)
Definition linspace_0_pi (n : nat) : list float :=
  let step := F64.div pi (of_Z (Z.of_nat n)) in
  map (fun i => F64.add (F64.mul (of_Z (Z.of_nat i)) step) zero) (seq 0 n).

(** [10*np.finfo(np.float).eps] *)
Definition ten_eps : float := F64.mul (of_Z 10) eps.

(** [phase_offset_in_deg * np.pi/180.0], on Python floats. *)
Definition phase_offset_in_rad (phase_offset_in_deg : float) : float :=
  F64.div (F64.mul phase_offset_in_deg pi) (of_Z 180).

(** [np.abs(x - np.pi) < 10*eps], the mask [fix_close_to_pi_here]. *)
Definition close_to_pi (x : float) : result bool :=
  d <- Np.sub x pi ;;
  Ok (F64.ltb (F64.abs d) ten_eps).

(** One entry of the excitation grid: the offset is added, an entry close
    to pi is set to pi, and the entry is taken modulo pi. *)
Definition fix_close_to_pi (x : float) : result float :=
  c <- close_to_pi x ;;
  Ok (if c then pi else x).

Definition excitation_entry (off x : float) : result float :=
  y <- Np.add x off ;;
  z <- fix_close_to_pi y ;;
  np_mod z pi.

Definition excitation_grid (n : nat) (phase_offset_in_deg : float)
    : result (list float) :=
  mapM (excitation_entry (phase_offset_in_rad phase_offset_in_deg))
       (linspace_0_pi n).

Definition emission_grid (n : nat) : list float := linspace_0_pi n.

(** [np.abs(a - g) < 10*eps] *)
Definition within_ten_eps (a g : float) : bool :=
  F64.ltb (F64.abs (F64.sub a g)) ten_eps.

(** [assert np.any(np.abs(a - grid) < 10*eps)] *)
Definition assert_on_grid (grid : list float) (a : float) : result unit :=
  mapM (Np.sub a) grid ;;;
  assert (existsb (within_ten_eps a) grid).

Record grids : Type := mkGrids {
  excitation_angles_grid : list float;
  emission_angles_grid : list float
}.

(** The part of the constructor that fixes and checks the grids, from the
    unique angles of the motor file and its phase offset. *)
Definition init (unique_exangles unique_emangles : list float)
    (phase_offset_in_deg : float) : result grids :=
  let ExAngleGridSize := length unique_exangles in
  let EmAngleGridSize := length unique_emangles in
  gex <- excitation_grid ExAngleGridSize phase_offset_in_deg ;;
  let gem := emission_grid EmAngleGridSize in
  forM_ (assert_on_grid gex) unique_exangles ;;;
  forM_ (assert_on_grid gem) unique_emangles ;;;
  Ok (mkGrids gex gem).

End AngleGrid.

(** ** The portrait indexer: [Movie.find_portraits] and [Movie.startstop] *)

Module PortraitIndexer.

(** [np.rint]: the nearest integer, ties to even. *)
Definition rint (x : float) : float :=
  match x with
  | S754_finite s m e =>
      if (0 <=? e)%Z then x
      else
        let d := (2 ^ (- e))%Z in
        let q := (Zpos m / d)%Z in
        let r := (Zpos m mod d)%Z in
        let q' :=
          match (2 * r ?= d)%Z with
          | Lt => q
          | Gt => (q + 1)%Z
          | Eq => if Z.even q then q else (q + 1)%Z
          end in
        binary_normalize prec emax (cond_Zopp s q') 0 s
  | _ => x
  end.

(** [np.round(x, decimals=2)]: [rint(x * 100) / 100]. *)
Definition round2 (x : float) : result float :=
  y <- Np.mul x (of_Z 100) ;;
  Np.div (rint y) (of_Z 100).

(** The order of [np.sort] on binary64: NaN comes last. *)
Definition sort_ltb (x y : float) : bool :=
  if isnan y then negb (isnan x) else F64.ltb x y.

Fixpoint insert_sorted (x : float) (l : list float) : list float :=
  match l with
  | [] => [x]
  | y :: l' => if sort_ltb y x then y :: insert_sorted x l' else x :: y :: l'
  end.

Definition np_sort (l : list float) : list float :=
  fold_right insert_sorted [] l.

(** [np.unique]: the sorted array without the entries equal to their
    predecessor ([aux[1:] != aux[:-1]]). *)
Fixpoint drop_repeats (prev : float) (l : list float) : list float :=
  match l with
  | [] => []
  | x :: l' =>
      if F64.eqb x prev then drop_repeats x l' else x :: drop_repeats x l'
  end.

Definition np_unique (l : list float) : list float :=
  match np_sort l with
  | [] => []
  | x :: l' => x :: drop_repeats x l'
  end.

(** [range(n)] on Python integers. *)
Definition range (n : Z) : list Z := map Z.of_nat (seq 0 (Z.to_nat n)).

(** Python 2's [/] on integers. *)
Definition int_div (a b : Z) : result Z :=
  if (b =? 0)%Z then Raise ZeroDivisionError else Ok (a / b)%Z.

(** [number_of_verticals * number_of_lines], the frames per portrait. *)
Definition frames_per_portrait (exangles emangles : list float) : result Z :=
  exangles_rounded <- mapM round2 exangles ;;
  emangles_rounded <- mapM round2 emangles ;;
  let number_of_verticals := Z.of_nat (length (np_unique exangles_rounded)) in
  let number_of_lines := Z.of_nat (length (np_unique emangles_rounded)) in
  Ok (number_of_verticals * number_of_lines)%Z.

(** The loop that collects the portrait indices, with its [break]. *)
Fixpoint collect_indices (pis : list Z) (fpp frameoffset Nframes : Z) : list Z :=
  match pis with
  | [] => []
  | pi :: pis' =>
      let ind := (pi * fpp + frameoffset)%Z in
      if negb (ind >? Nframes)%Z
      then ind :: collect_indices pis' fpp frameoffset Nframes
      else []
  end.

Record portraits : Type := mkPortraits {
  Nportraits : Z;
  portrait_indices : list Z
}.

Definition find_portraits (exangles emangles : list float) (frameoffset : Z)
    : result portraits :=
  fpp <- frames_per_portrait exangles emangles ;;
  let Nframes := Z.of_nat (length exangles) in
  Nportraits <- int_div Nframes fpp ;;
  assert (Nframes mod fpp =? 0)%Z ;;;
  let portrait_indices :=
    collect_indices (range (Nportraits + 1)) fpp frameoffset Nframes in
  let Nportraits := (Z.of_nat (length portrait_indices) - 1)%Z in
  assert (Nportraits >? 0)%Z ;;;
  Ok (mkPortraits Nportraits portrait_indices).

(** [np.diff] *)
Fixpoint np_diff (l : list float) : result (list float) :=
  match l with
  | x :: ((y :: _) as l') =>
      d <- Np.sub y x ;; ds <- np_diff l' ;; Ok (d :: ds)
  | _ => Ok []
  end.

(** [d.nonzero()[0]]: the indices of the entries that are not zero. *)
Fixpoint nonzero_from (i : Z) (d : list float) : list Z :=
  match d with
  | [] => []
  | x :: d' =>
      if F64.eqb x zero then nonzero_from (i + 1) d'
      else i :: nonzero_from (i + 1) d'
  end.

Definition edge (edges : list Z) (i : Z) : result Z :=
  of_option IndexError (nth_error edges (Z.to_nat i)).

(** The rows [[edges[i*nl] + 1, edges[(i+1)*nl]]] of [indices]. *)
Definition portrait_row (edges : list Z) (number_of_lines i : Z)
    : result (Z * Z) :=
  a <- edge edges (i * number_of_lines) ;;
  b <- edge edges ((i + 1) * number_of_lines) ;;
  Ok ((a + 1)%Z, b).

(** [startstop] returns the rows of [self.portrait_indices]; the first
    entry of the first row is overwritten by 0, which raises when there is
    no row. *)
Definition startstop (emission_angles : list float)
    : result (list (Z * Z)) :=
  emangles_rounded <- mapM round2 emission_angles ;;
  let number_of_lines := Z.of_nat (length (np_unique emangles_rounded)) in
  d <- np_diff emangles_rounded ;;
  match d with
  | [] => Raise IndexError
  | _ :: d' =>
      let d := one :: d' in
      let d := d ++ [one] in
      let edges := nonzero_from 0 d in
      Nportraits <- int_div (Z.of_nat (length edges) - 1) number_of_lines ;;
      indices <- mapM (portrait_row edges number_of_lines) (range Nportraits) ;;
      match indices with
      | [] => Raise IndexError
      | (_, stop) :: rows => Ok ((0%Z, stop) :: rows)
      end
  end.

End PortraitIndexer.

(** ** Modulation depths, phases, line shift and anisotropy:
    [Movie.find_modulation_depths_and_phases_selective] *)

(** One column of what the cosine fitter returns: phase, [I0], modulation
    depth and residual. *)
Record fitcol : Type := mkFit {
  fit_phase : float;
  fit_I0 : float;
  fit_M : float;
  fit_resi : float
}.

(** [-np.pi/2] *)
Definition minus_half_pi : float := F64.div (F64.opp pi) (of_Z 2).

(** The two masked updates of the array [LS], for one entry:
    [LS[LS > np.pi/2] -= np.pi] and then [LS[LS < -np.pi/2] += np.pi]. *)
Definition wrap_LS (ls : float) : result float :=
  ls <- (if F64.gtb ls half_pi then Np.sub ls pi else Ok ls) ;;
  if F64.ltb ls minus_half_pi then Np.add ls pi else Ok ls.

(** [LS = ph_ex - ph_em], then the two updates. *)
Definition line_shift (ph_ex ph_em : float) : result float :=
  ls <- Np.sub ph_ex ph_em ;;
  wrap_LS ls.

(** Python's [/] on two floats. *)
Definition py_float_div (x y : float) : result float :=
  if F64.eqb y zero then Raise ZeroDivisionError else Ok (F64.div x y).

(** The guarded quotient of the two anisotropy loops:
    [float(Ipara-Iperp)/float(Ipara+2*Iperp)] unless the denominator
    compares equal to 0, and NaN then. *)
Definition anisotropy_of (Ipara Iperp : float) : result float :=
  t <- Np.mul (of_Z 2) Iperp ;;
  den <- Np.add Ipara t ;;
  if negb (F64.eqb den zero) then
    num <- Np.sub Ipara Iperp ;;
    py_float_div num den
  else Ok nan.

(** [ex_par_rad = ex_par_deg * np.pi/180.0] for [ex_par_deg = 0.0]. *)
Definition ex_par_rad : float := F64.div (F64.mul zero pi) (of_Z 180).

Section Modulation.

(** [np.cos] on a scalar; it raises [invalid] at an infinity. *)
Variable np_cos : float -> result float.

(** [Spot.recover_average_portrait_matrix] *)
Variable recover_average_portrait_matrix : Spot -> result (list (list float)).

(** The projections of the average portraits on the two axes and the two
    batched cosine fits of these projections: for each position in
    [myspots], the column of the fit in excitation and the column of the
    fit in emission. *)
Variable marginal_fits :
  list Spot -> list nat -> result (list (fitcol * fitcol)).

(** The line fits of each spot evaluated at one excitation angle per spot,
    averaged over the portraits, and the batched vertical cosine fit of
    these values: one column per position in [myspots]. *)
Variable vertical_fit :
  list Spot -> list nat -> list float -> result (list fitcol).

(** [mycos = lambda a, ph, I, M: I*(1+M*(np.cos(2*(a-ph))))] *)
Definition mycos (a ph I M : float) : result float :=
  d <- Np.sub a ph ;;
  t <- Np.mul (of_Z 2) d ;;
  c <- np_cos t ;;
  mc <- Np.mul M c ;;
  u <- Np.add one mc ;;
  Np.mul I u.

(** The two intensities of the fitted vertical model of column [c], at the
    excitation angle [a] and at [a - np.pi/2]. *)
Definition para_perp (a : float) (c : fitcol) : result (float * float) :=
  Ipara <- mycos a (fit_phase c) (fit_I0 c) (fit_M c) ;;
  a' <- Np.sub a half_pi ;;
  Iperp <- mycos a' (fit_phase c) (fit_I0 c) (fit_M c) ;;
  Ok (Ipara, Iperp).

Definition store_sam (s : Spot) : result Spot :=
  m <- recover_average_portrait_matrix s ;;
  Ok (set_sam s m).

(** The assignment loop after the two marginal fits. *)
Definition modulation_spot (c : fitcol * fitcol * float) (s : Spot)
    : result Spot :=
  let '(ex, em, ls) := c in
  Ok (set_modulation s (fit_M ex) (fit_M em) (fit_phase ex) (fit_phase em) ls).

(** The loop of the ``advanced'' anisotropy: the model is evaluated at the
    spot's own [phase_ex]. *)
Definition anisotropy_spot (c : fitcol) (s : Spot) : result Spot :=
  a <- attr phase_ex s ;;
  '(Ipara, Iperp) <- para_perp a c ;;
  v <- anisotropy_of Ipara Iperp ;;
  Ok (set_anisotropy s v).

(** The loop of the ``normal'' anisotropy: the model is evaluated at the
    fixed angle [ex_par_rad]. *)
Definition anisotropy_n_spot (c : fitcol) (s : Spot) : result Spot :=
  '(Ipara, Iperp) <- para_perp ex_par_rad c ;;
  v <- anisotropy_of Ipara Iperp ;;
  Ok (set_anisotropy_n s v).

Definition line_shifts (fits : list (fitcol * fitcol)) : result (list float) :=
  mapM (fun c => line_shift (fit_phase (fst c)) (fit_phase (snd c))) fits.

Definition find_modulation_depths_and_phases_selective
    (myspots : list nat) (vs : list Spot) : result (list Spot) :=
  vs <- for_each_spot store_sam myspots vs ;;
  fits <- marginal_fits vs myspots ;;
  LS <- line_shifts fits ;;
  vs <- for_spots modulation_spot (combine fits LS) myspots vs ;;
  phases <- mapM (fun si => s <- get_spot vs si ;; attr phase_ex s) myspots ;;
  cols <- vertical_fit vs myspots phases ;;
  vs <- for_spots anisotropy_spot cols myspots vs ;;
  cols_n <- vertical_fit vs myspots (map (fun _ => ex_par_rad) myspots) ;;
  vs <- for_spots anisotropy_n_spot cols_n myspots vs ;;
  of_option IndexError (hd_error myspots) ;;;
  Ok vs.

End Modulation.

(** ** The FFT ruler: [Movie.ETrulerFFT_selective] *)

(** One column of [self.peaks]: the power of the normalised spectrum around
    the four expected harmonics [i1], [i2], [i3] and [i4]. *)
Record peaks4 : Type := mkPeaks { pk0 : float; pk1 : float; pk2 : float; pk3 : float }.

Definition peaks_list (p : peaks4) : list float := [pk0 p; pk1 p; pk2 p; pk3 p].

(** [MYpeaks /= np.sum(MYpeaks)] *)
Definition peaks_over (p : peaks4) (d : float) : result peaks4 :=
  a <- Np.div (pk0 p) d ;;
  b <- Np.div (pk1 p) d ;;
  c <- Np.div (pk2 p) d ;;
  e <- Np.div (pk3 p) d ;;
  Ok (mkPeaks a b c e).

(** [if ruler < 0: ruler = 0] followed by [if ruler > 1: ruler = 1]. *)
Definition clamp_ruler (ruler : float) : float :=
  let ruler := if F64.ltb ruler zero then zero else ruler in
  if F64.gtb ruler one then one else ruler.

(** The tolerance [.08] on the sum of the four peaks. *)
Definition tol : float := ratio 8 100.

(** [np.abs(np.sum(p) - 1) > .08] *)
Definition peaks_are_weird (p : peaks4) : result bool :=
  tot <- Np.sum (peaks_list p) ;;
  d <- Np.sub tot one ;;
  Ok (F64.gtb (F64.abs d) tol).

Section ETruler.

(** The resampling of the average portraits along the slanted line, the
    FFT and the integration around the four peaks, for the spots of
    [myspots] in their order: one column per spot. *)
Variable observed_peaks : list Spot -> list nat -> result (list peaks4).

(** The peaks of the three-dipole model without energy transfer, from the
    spot's [M_ex], before they are normalised by their sum. *)
Variable model_peaks : float -> result peaks4.

(** The raw ruler [1-(crossdiff/MYcrossdiff)] of a spot, together with the
    outcome of the two tests on the sums of the peaks. *)
Definition raw_ruler (p : peaks4) (s : Spot) : result (bool * bool * float) :=
  weird <- peaks_are_weird p ;;
  crossdiff <- Np.sub (pk1 p) (pk3 p) ;;
  mex <- attr M_ex s ;;
  MYraw <- model_peaks mex ;;
  MYtot <- Np.sum (peaks_list MYraw) ;;
  MYpeaks <- peaks_over MYraw MYtot ;;
  MYweird <- peaks_are_weird MYpeaks ;;
  MYcrossdiff <- Np.sub (pk1 MYpeaks) (pk3 MYpeaks) ;;
  q <- Np.div crossdiff MYcrossdiff ;;
  ruler <- Np.sub one q ;;
  Ok (weird, MYweird, ruler).

(** The body of the loop over the spots, for the spot [s] and its
    column [p] of the peaks: the two tests assign NaN to [ET_ruler], and the
    last statement assigns the clamped ruler. *)
Definition ETruler_spot (p : peaks4) (s : Spot) : result Spot :=
  weird <- peaks_are_weird p ;;
  let s := if weird then set_ET_ruler s nan else s in
  crossdiff <- Np.sub (pk1 p) (pk3 p) ;;
  mex <- attr M_ex s ;;
  MYraw <- model_peaks mex ;;
  MYtot <- Np.sum (peaks_list MYraw) ;;
  MYpeaks <- peaks_over MYraw MYtot ;;
  MYweird <- peaks_are_weird MYpeaks ;;
  let s := if MYweird then set_ET_ruler s nan else s in
  MYcrossdiff <- Np.sub (pk1 MYpeaks) (pk3 MYpeaks) ;;
  q <- Np.div crossdiff MYcrossdiff ;;
  ruler <- Np.sub one q ;;
  Ok (set_ET_ruler s (clamp_ruler ruler)).

Definition ETrulerFFT_selective (myspots : list nat) (vs : list Spot)
    : result (list Spot) :=
  cols <- observed_peaks vs myspots ;;
  for_spots ETruler_spot cols myspots vs.

End ETruler.

(** ** The funnel model: [Movie.ETmodel_selective] *)

Record funnel_fit : Type := mkFunnel {
  md_fu : float;
  th_fu : float;
  gr : float;
  et : float;
  resi : float
}.

(** The bounds [.000001] and [.999999] of the clipping of [M_ex]. *)
Definition mex_lo : float := ratio 1 1000000.
Definition mex_hi : float := ratio 999999 1000000.

Section ETmodel.

(** [sam/np.sum(sam)], reshaped to one dimension. *)
Variable normalise_sam : list (list float) -> result (list float).

(** [the_new_way()]: the bounded optimisation ([so.fmin_l_bfgs_b] on
    [SFA_full_error]), from the clipped modulation depth [mex], the spot's
    [phase_ex] and the normalised portrait. *)
Variable the_new_way : float -> float -> list float -> result funnel_fit.

(** [SFA_full_func([md_fu,th_fu,gr,et], EX, EM, mex, phase_ex)] *)
Variable SFA_full_func :
  float * float * float * float -> float -> float -> result (list float).

(** The branch taken when [mex] is a number: the fit, the three
    evaluations of the model, and the assignment of the five results. *)
Definition fit_funnel (mex : float) (Ftotnormed : list float) (s : Spot)
    : result Spot :=
  phex <- attr phase_ex s ;;
  f <- the_new_way mex phex Ftotnormed ;;
  SFA_full_func (md_fu f, th_fu f, gr f, zero) mex phex ;;;
  SFA_full_func (md_fu f, th_fu f, gr f, one) mex phex ;;;
  SFA_full_func (md_fu f, th_fu f, gr f, et f) mex phex ;;;
  Ok (set_ETmodel s (md_fu f) (th_fu f) (gr f) (et f) (resi f)).

(** The body of the loop over the spots. *)
Definition ETmodel_spot (s : Spot) : result Spot :=
  m <- attr sam s ;;
  Ftotnormed <- normalise_sam m ;;
  M <- attr M_ex s ;;
  let mex := Np.clip M mex_lo mex_hi in
  if negb (isnan mex) then fit_funnel mex Ftotnormed s
  else Ok (set_ETmodel s nan nan nan nan nan).

Definition ETmodel_selective (myspots : list nat) (vs : list Spot)
    : result (list Spot) :=
  for_each_spot ETmodel_spot myspots vs.

End ETmodel.

(** ** The multi-process driver: [Movie.run_mp] *)

Module WorkDistributor.

(** What the coordinator does to the outside world: it starts worker
    processes. *)
Inductive event : Type :=
| Start (whichproc : nat) (thesespots : list nat).

(** Python's [>=] on two booleans. *)
Definition bool_ge (a b : bool) : bool := (Z.b2z b <=? Z.b2z a)%Z.

(** [fits >= mods >= ETruler >= ETmodel] *)
Definition stage_order (fits mods ETruler ETmodel : bool) : bool :=
  bool_ge fits mods && bool_ge mods ETruler && bool_ge ETruler ETmodel.

(** [np.array_split(np.arange(n), Nprocs)]: the first [n mod Nprocs]
    blocks have one index more than the others. *)
Fixpoint blocks (start : nat) (sizes : list nat) : list (list nat) :=
  match sizes with
  | [] => []
  | k :: sizes' => seq start k :: blocks (start + k) sizes'
  end.

Definition array_split (n : nat) (Nprocs : Z) : result (list (list nat)) :=
  if (Nprocs <=? 0)%Z then Raise ValueError
  else
    let N := Z.to_nat Nprocs in
    let Neach := Nat.div n N in
    let extras := Nat.modulo n N in
    Ok (blocks 0 (repeat (S Neach) extras ++ repeat Neach (N - extras))).

Fixpoint start_jobs (i : nat) (myspots : list (list nat)) : list event :=
  match myspots with
  | [] => []
  | b :: myspots' => Start i b :: start_jobs (S i) myspots'
  end.

Section RunMp.

(** What follows the start of the workers: the records they put on the
    result queue are drained and merged into the spots, the workers are
    joined and the contrast images are updated. *)
Variable drain_and_merge :
  list (list nat) -> bool -> bool -> bool -> bool -> list Spot
  -> result (list Spot).

(** [run_mp] returns the trace of the processes it started, in order, and
    its outcome. *)
Definition run_mp (Nprocs : Z) (fits mods ETruler ETmodel : bool)
    (validspots : list Spot) : list event * result (list Spot) :=
  if negb (stage_order fits mods ETruler ETmodel) then
    ([], Raise AssertionError)
  else
    match array_split (length validspots) Nprocs with
    | Raise e => ([], Raise e)
    | Ok myspots =>
        (start_jobs 0 myspots,
         drain_and_merge myspots fits mods ETruler ETmodel validspots)
    end.

End RunMp.

End WorkDistributor.

(** ** The signal-to-noise filter: [Movie.are_spots_valid] *)

Module Validity.

(** [np.any(bgstd==0)] *)
Definition any_zero (bgstd : npval) : bool :=
  match bgstd with
  | Scalar x => F64.eqb x zero
  | Array l => existsb (fun x => F64.eqb x zero) l
  end.

Fixpoint div_arrays (xs ys : list float) : result (list float) :=
  match xs, ys with
  | [], [] => Ok []
  | x :: xs', y :: ys' =>
      q <- Np.div x y ;; qs <- div_arrays xs' ys' ;; Ok (q :: qs)
  | _, _ => Raise ValueError
  end.

(** [np.abs(intensity/bgstd)]; two arrays of different lengths do not
    broadcast. *)
Definition abs_ratio (intensity : list float) (bgstd : npval)
    : result (list float) :=
  qs <- match bgstd with
        | Scalar y => mapM (fun x => Np.div x y) intensity
        | Array ys => div_arrays intensity ys
        end ;;
  Ok (map F64.abs qs).

(** [np.ones_like(intensity)*np.inf] *)
Definition all_inf (intensity : list float) : list float :=
  map (fun _ => inf) intensity.

(** [np.sum(snr > SNR)] *)
Definition count_above (snr : list float) (threshold : float) : Z :=
  Z.of_nat (length (filter (fun x => F64.gtb x threshold) snr)).

(** [framecountSNR >= validframesratio*float(len(SNR))] *)
Definition enough_frames (framecount : Z) (validframesratio : float)
    (snr : list float) : bool :=
  F64.geb (of_Z framecount)
          (F64.mul validframesratio (of_Z (Z.of_nat (length snr)))).

Record outcome : Type := mkOutcome {
  spots : list Spot;
  validspots : list Spot;
  validspotindices : list nat
}.

(** The signal-to-noise ratio of each frame of a spot, for the background
    deviation [bgstd] in force. *)
Definition measure (bgstd : option npval) (s : Spot) : result (list float) :=
  match bgstd with
  | None => Ok (all_inf (intensity s))
  | Some b =>
      if any_zero b then Ok (all_inf (intensity s))
      else abs_ratio (intensity s) b
  end.

(** The loop over [enumerate(self.spots)].  The variable [bgstd] is
    assigned before the loop and by each iteration on a spot with its own
    border background; the spot appended to [validspots] is the object whose
    [meanSNR] is assigned next. *)
Fixpoint loop (threshold validframesratio : float) (bgstd : option npval)
    (si : nat) (todo : list Spot) : result outcome :=
  match todo with
  | [] => Ok (mkOutcome [] [] [])
  | s :: todo' =>
      let bgstd := if use_borderbg s then Some (borderbgstd s) else bgstd in
      snr <- measure bgstd s ;;
      let s := set_SNR s snr in
      let framecount := count_above snr threshold in
      let s := set_framecountSNR s framecount in
      let valid := enough_frames framecount validframesratio snr in
      m <- Np.mean snr ;;
      let s := set_meanSNR s m in
      r <- loop threshold validframesratio bgstd (S si) todo' ;;
      Ok (mkOutcome (s :: spots r)
            (if valid then s :: validspots r else validspots r)
            (if valid then si :: validspotindices r else validspotindices r))
  end.

(** [are_spots_valid(SNR, validframesratio)]: [bg_spot_sample_std] is the
    [std] of the sample background spot, if one was defined. *)
Definition are_spots_valid (bg_spot_sample_std : option npval)
    (all_spots : list Spot) (threshold validframesratio : float)
    : result outcome :=
  loop threshold validframesratio bg_spot_sample_std 0 all_spots.

(** The default arguments [SNR=10] and [validframesratio=.7]. *)
Definition default_SNR : float := of_Z 10.
Definition default_validframesratio : float := ratio 7 10.

End Validity.

(** ** What the stages are compared with

    The properties of a spot or of a grid that the theorems below state. *)

(** Every angle of [angles] has an entry of [grid] within ten epsilons. *)
Definition covered (angles grid : list float) : Prop :=
  forall a, In a angles ->
  exists g, In g grid /\ AngleGrid.within_ten_eps a g = true.

(** The anisotropy as the specification words it: the quotient
    [(Ipara - Iperp) / (Ipara + 2*Iperp)] in binary64, and NaN when the
    denominator compares equal to zero.  It is compared below with
    [anisotropy_of], which follows the code. *)
Definition spec_anisotropy (Ipara Iperp : float) : float :=
  let den := F64.add Ipara (F64.mul (of_Z 2) Iperp) in
  if F64.eqb den zero then nan
  else F64.div (F64.sub Ipara Iperp) den.


(** What the assignment loop of the modulation stage leaves on a spot, for
    the marginal fits [fits]: the two phases of one pair of fits and the
    line shift computed from them. *)
Definition shifted (fits : list (fitcol * fitcol)) (s : Spot) : Prop :=
  exists ex em raw ls,
    In (ex, em) fits
    /\ phase_ex s = Some (fit_phase ex) /\ phase_em s = Some (fit_phase em)
    /\ Np.sub (fit_phase ex) (fit_phase em) = Ok raw /\ wrap_LS raw = Ok ls
    /\ LS s = Some ls.

(** What the two anisotropy loops leave on a spot, for the columns [cols]
    of the vertical fit. *)
Definition has_anisotropy (np_cos : float -> result float)
    (cols : list fitcol) (s : Spot) : Prop :=
  exists a c Ipara Iperp,
    In c cols
    /\ phase_ex s = Some a
    /\ para_perp np_cos a c = Ok (Ipara, Iperp)
    /\ anisotropy s = Some (spec_anisotropy Ipara Iperp).

Definition has_anisotropy_n (np_cos : float -> result float)
    (cols : list fitcol) (s : Spot) : Prop :=
  exists c Ipara Iperp,
    In c cols
    /\ para_perp np_cos ex_par_rad c = Ok (Ipara, Iperp)
    /\ anisotropy_n s = Some (spec_anisotropy Ipara Iperp).

(** ** Reading binary64 numbers as integers

    A finite number [(-1)^s * m * 2^e] is read in units of [2^k], for any
    [k] not above its exponent; the comparisons and the exact results of the
    operations are stated on these integers. *)

(** [3*np.pi/2], which is exactly one and a half times [np.pi]. *)
Definition three_half_pi : float :=
  F64.div (F64.mul (of_Z 3) pi) (of_Z 2).

Definition scaled (k : Z) (x : float) : Z :=
  match x with
  | S754_finite s m e => cond_Zopp s (Zpos m * 2 ^ (e - k))
  | _ => 0
  end.

(** The exponent of a finite number is at least [k]. *)
Definition exponent_ge (k : Z) (x : float) : Prop :=
  match x with
  | S754_finite _ _ e => (k <= e)%Z
  | _ => True
  end.

(** A number of binary64: zero or a finite number in canonical form. *)
Definition representable (x : float) : Prop :=
  isfinite x = true /\ valid_binary prec emax x = true.

(** The sign of a number that is not NaN. *)
Definition has_sign (s : bool) (x : float) : Prop :=
  match x with
  | S754_zero s' | S754_infinity s' | S754_finite s' _ _ => s' = s
  | S754_nan => False
  end.

(** ** Sample inputs

    Concrete spots, peaks and angle arrays on which the stages are run in
    the examples below. *)

Module Samples.

(** A spot with the given frames and background settings, before any stage
    has run. *)
Definition fresh_spot (frames : list float) (own_bg : bool) (bg : npval) : Spot :=
  mkSpot frames own_bg bg None None None None None None None None None None
    None None None None None None None.

(** A spot after the modulation stage found the modulation depth [m] in
    excitation. *)
Definition spot_with_M_ex (m : float) : Spot :=
  mkSpot [] false (Scalar one) None None None None (Some m) None None None
    None None None None None None None None None.

(** Model peaks for the examples: NaN propagates as it does through
    [np.arccos], [np.cos] and the FFT, and any other [M_ex] gives the
    peaks 1, 2, 1 and 0. *)
Definition model_peaks (m : float) : result peaks4 :=
  if isnan m then Ok (mkPeaks nan nan nan nan)
  else Ok (mkPeaks one (of_Z 2) one zero).

(** Observed peaks handed over as they are. *)
Definition observed (cols : list peaks4) (_ : list Spot) (_ : list nat)
    : result (list peaks4) := Ok cols.


(** Peaks 1/8, 1/4, 1/8 and 0: they sum to 1/2. *)
Definition half_peaks : peaks4 :=
  mkPeaks (ratio 1 8) (ratio 1 4) (ratio 1 8) zero.

(** Peaks 1/4, 1/2, 1/4 and 0: they sum to 1. *)
Definition unit_peaks : peaks4 :=
  mkPeaks (ratio 1 4) (ratio 1 2) (ratio 1 4) zero.

End Samples.

Module PortraitSamples.

Import PortraitIndexer.

(** Eleven frames of a scan with two excitation angles (0 and pi/2) and two
    emission angles (0 and pi/2): two portraits of four frames and three
    frames more. *)
Definition exangles : list float :=
  [zero; half_pi; zero; half_pi; zero; half_pi; zero; half_pi;
   zero; half_pi; zero].

Definition emangles : list float :=
  [zero; zero; half_pi; half_pi; zero; zero; half_pi; half_pi;
   zero; zero; half_pi].

End PortraitSamples.

Module StageSamples.

(** Stand-ins for the numerical routines, for the examples: a cosine that
    knows the angles 0, -pi and -2*pi, fits that return the same column for
    every spot, and an optimiser that returns its starting point. *)
Definition np_cos (x : float) : result float :=
  if F64.eqb x zero then Ok one
  else if F64.eqb x (F64.opp pi) then Ok (F64.opp one)
  else if F64.eqb x (F64.mul (of_Z (-2)) pi) then Ok one
  else Raise RuntimeWarning.

Definition column : fitcol := mkFit zero one (ratio 1 2) zero.

Definition recover (_ : Spot) : result (list (list float)) :=
  Ok [[ratio 3 2; ratio 1 2]].

Definition marginal_fits (_ : list Spot) (myspots : list nat)
    : result (list (fitcol * fitcol)) :=
  Ok (map (fun _ => (column, column)) myspots).

(** Marginal fits with the phase -pi/2 in excitation and 0 in emission. *)
Definition marginal_fits_quarter (_ : list Spot) (myspots : list nat)
    : result (list (fitcol * fitcol)) :=
  Ok (map (fun _ => (mkFit minus_half_pi one (ratio 1 2) zero, column))
          myspots).

Definition vertical_fit (_ : list Spot) (myspots : list nat) (_ : list float)
    : result (list fitcol) :=
  Ok (map (fun _ => column) myspots).

Definition normalise_sam (m : list (list float)) : result (list float) :=
  Ok (concat m).

Definition the_new_way (mex phex : float) (_ : list float) : result funnel_fit :=
  Ok (mkFunnel mex phex one (ratio 1 2) zero).

Definition SFA_full_func (_ : float * float * float * float) (_ _ : float)
    : result (list float) := Ok [].

(** A spot after the modulation stage, with modulation depth [m]. *)
Definition analysed_spot (m : float) : Spot :=
  mkSpot [] false (Scalar one) None None None (Some [[ratio 3 2; ratio 1 2]])
    (Some m) (Some m) (Some zero) (Some zero) (Some zero) None None None
    None None None None None.

End StageSamples.

Module ValiditySamples.

(** A bright spot that carries its own border background, of deviation 1,
    and a dim spot without border background; no sample background spot is
    defined in the examples. *)
Definition bright_own_bg : Spot :=
  Samples.fresh_spot [of_Z 100; of_Z 100] true (Scalar one).

Definition dim_no_bg : Spot :=
  Samples.fresh_spot [one; one] false (Scalar one).

End ValiditySamples.

(** ** What a stage leaves alone

    Two spots that agree on every attribute a stage does not assign: they
    are equal once the attributes of the stage are overwritten by the same
    values. *)

Definition same_but_ET_ruler (s s' : Spot) : Prop :=
  set_ET_ruler s' nan = set_ET_ruler s nan.

Definition same_but_ETmodel (s s' : Spot) : Prop :=
  set_ETmodel s' nan nan nan nan nan = set_ETmodel s nan nan nan nan nan.



(** ** Python sequences and numpy arrays *)

Import String.StringSyntax.

(** A loop that threads a state through the entries of a list and stops
    at the first exception. *)
Fixpoint foldM {A S : Type} (f : S -> A -> result S) (l : list A) (s : S)
    : result S :=
  match l with
  | [] => Ok s
  | x :: l' => s' <- f s x ;; foldM f l' s'
  end.

(** Python 2's [range(start, stop, step)], a list; a step of 0 raises
    [ValueError]. *)
Definition py_range (start stop step : Z) : result (list Z) :=
  if (step =? 0)%Z then Raise ValueError
  else
    let n :=
      if (0 <? step)%Z then
        if (start <? stop)%Z then ((stop - start - 1) / step + 1)%Z else 0%Z
      else
        if (stop <? start)%Z then ((start - stop - 1) / (- step) + 1)%Z
        else 0%Z in
    Ok (map (fun i => (start + Z.of_nat i * step)%Z) (seq 0 (Z.to_nat n))).

(** [range(start, stop)] *)
Definition py_range2 (start stop : Z) : list Z :=
  map (fun i => (start + Z.of_nat i)%Z) (seq 0 (Z.to_nat (stop - start))).

(** [l[i]] on a list of Python or an axis of a numpy array of length [n]:
    the place an index stands for.  An index from [-n] to [-1] counts from
    the end, and any index outside [-n .. n-1] raises [IndexError]. *)
Definition py_index (n : nat) (i : Z) : result nat :=
  if ((0 <=? i) && (i <? Z.of_nat n))%Z then Ok (Z.to_nat i)
  else if ((- Z.of_nat n <=? i) && (i <? 0))%Z
       then Ok (Z.to_nat (i + Z.of_nat n))
       else Raise IndexError.

Definition py_getitem {A : Type} (l : list A) (i : Z) : result A :=
  k <- py_index (length l) i ;;
  of_option IndexError (nth_error l k).

(** The list [l] with [v] at the place [k]. *)
Fixpoint set_nth {A : Type} (k : nat) (v : A) (l : list A) : list A :=
  match l, k with
  | [], _ => []
  | _ :: l', O => v :: l'
  | x :: l', S k' => x :: set_nth k' v l'
  end.

(** Two-dimensional arrays of numpy, as the list of their rows. *)
Module Array2.

(** The place [(row, column)] that the index [p] stands for in [a]. *)
Definition place {A : Type} (a : list (list A)) (p : Z * Z)
    : result (nat * nat) :=
  r <- py_index (length a) (fst p) ;;
  row <- of_option IndexError (nth_error a r) ;;
  c <- py_index (length row) (snd p) ;;
  Ok (r, c).

(** What is at a place of the array. *)
Definition at_place {A : Type} (a : list (list A)) (rc : nat * nat)
    : option A :=
  match nth_error a (fst rc) with
  | Some row => nth_error row (snd rc)
  | None => None
  end.

(** [a[p[0], p[1]]] *)
Definition getitem {A : Type} (a : list (list A)) (p : Z * Z) : result A :=
  rc <- place a p ;;
  of_option IndexError (at_place a rc).

(** [a[p[0], p[1]] = v]; the array is changed in place, and the changed
    array is what the model returns. *)
Definition setitem {A : Type} (a : list (list A)) (p : Z * Z) (v : A)
    : result (list (list A)) :=
  rc <- place a p ;;
  row <- of_option IndexError (nth_error a (fst rc)) ;;
  Ok (set_nth (fst rc) (set_nth (snd rc) v row) a).

(** One of the indices [ps] stands for the place [rc] of the array. *)
Definition covers {A : Type} (a : list (list A)) (ps : list (Z * Z))
    (rc : nat * nat) : bool :=
  existsb
    (fun p =>
       match place a p with
       | Ok (r, c) => (r =? fst rc)%nat && (c =? snd rc)%nat
       | Raise _ => false
       end)
    ps.

(** The array has [nrows] rows of [ncols] entries. *)
Definition has_shape {A : Type} (nrows ncols : nat) (a : list (list A))
    : Prop :=
  length a = nrows /\ forall row, In row a -> length row = ncols.

End Array2.

(** ** Squares on a section of the image:
    [misc.grid_image_section_into_squares_and_define_spots] *)

Module GridSpots.

(** [l[-1]] *)
Definition last_item (l : list Z) : result Z := py_getitem l (-1).

(** [range(lo, hi, res)], without its last entry when this entry plus
    [res] is above [hi]: [leftedges] and [topedges]. *)
Definition edges (lo hi res : Z) : result (list Z) :=
  es <- py_range lo hi res ;;
  e <- last_item es ;;
  if (e + res >? hi)%Z then Ok (removelast es) else Ok es.

(** The function returns nothing; what it does is to call
    [movie.define_spot] on a list of four coordinates for each square.  The
    model returns the arguments of these calls, in their order, as long as
    [define_spot] returns. *)
Definition grid_image_section_into_squares_and_define_spots
    (res : Z) (bounds : list Z) : result (list (list Z)) :=
  let rb := bounds in
  rb1 <- py_getitem rb 1 ;;
  rb3 <- py_getitem rb 3 ;;
  leftedges <- edges rb1 rb3 res ;;
  rb0 <- py_getitem rb 0 ;;
  rb2 <- py_getitem rb 2 ;;
  topedges <- edges rb0 rb2 res ;;
  Ok (flat_map
        (fun xi =>
           map (fun yi => [yi; xi; yi - 1 + res; xi - 1 + res]%Z) topedges)
        leftedges).

End GridSpots.

(** ** The region of the blank fit: [misc.pixel_list] *)

Module PixelList.

(** The dictionary [shape]: the four sides of a rectangle, in pixels, and
    what to do with it. *)
Record rectangle : Type := mkRectangle {
  left : Z;
  right : Z;
  lower : Z;
  upper : Z;
  op : String.string
}.

Local Open Scope string_scope.

(** [datasize] is [movie.blank_data.datasize]: the numbers of frames, of
    rows and of columns.  The array [boolimage] is changed in place and
    returned. *)
Definition pixel_list (datasize : Z * Z * Z) (shape : rectangle)
    (boolimage : list (list bool)) : result (list (list bool)) :=
  let '(_, datasize1, datasize2) := datasize in
  assert (lower shape >=? upper shape)%Z ;;;
  assert ((left shape >=? 0) && (upper shape >=? 0))%Z ;;;
  assert ((right shape <? datasize2) && (lower shape <? datasize1))%Z ;;;
  foldM
    (fun boolimage col =>
       foldM
         (fun boolimage row =>
            if String.eqb (op shape) "include" then
              Array2.setitem boolimage (row, col) true
            else if String.eqb (op shape) "exclude" then
              Array2.setitem boolimage (row, col) false
            else Raise ValueError)
         (py_range2 (upper shape) (lower shape + 1)) boolimage)
    (py_range2 (left shape) (right shape + 1)) boolimage.

(** The three assertions on the rectangle hold. *)
Definition asserted (datasize : Z * Z * Z) (shape : rectangle) : bool :=
  let '(_, datasize1, datasize2) := datasize in
  ((lower shape >=? upper shape)
   && ((left shape >=? 0) && (upper shape >=? 0))
   && ((right shape <? datasize2) && (lower shape <? datasize1)))%Z.

(** The pixels that the two loops go through, in their order. *)
Definition rectangle_pixels (shape : rectangle) : list (Z * Z) :=
  flat_map
    (fun col =>
       map (fun row => (row, col)) (py_range2 (upper shape) (lower shape + 1)))
    (py_range2 (left shape) (right shape + 1)).

(** The pixel [(row, col)] is in the rectangle. *)
Definition inside (shape : rectangle) (row col : Z) : bool :=
  ((left shape <=? col) && (col <=? right shape)
   && (upper shape <=? row) && (row <=? lower shape))%Z.

End PixelList.

(** ** The contrast images: [Movie.initContrastImages],
    [Movie.store_property_in_image] and [Movie.update_images] *)

Module ContrastImages.

(** A spot together with [spot.pixel], the list of the pixels it is made
    of, which the record [Spot] does not keep. *)
Record located : Type := mkLocated {
  spot : Spot;
  pixel : list (Z * Z)
}.

(** [for p in spot.pixel: getattr(self,image)[p[0], p[1]] = getattr(spot, prop)];
    [image] is the array [getattr(self,image)], changed in place. *)
Definition store_property_in_image (s : located) (image : list (list float))
    (prop : Spot -> option float) : result (list (list float)) :=
  foldM (fun image p => v <- attr prop (spot s) ;; Array2.setitem image p v)
    (pixel s) image.

(** The properties [allprops] that [update_images] writes, each into the
    image of its name. *)
Inductive contrast : Type :=
| c_M_ex | c_M_em | c_phase_ex | c_phase_em | c_LS
| c_anisotropy | c_anisotropy_n | c_ET_ruler
| c_ETmodel_md_fu | c_ETmodel_th_fu | c_ETmodel_gr | c_ETmodel_et
| c_ETmodel_resi.

Definition allprops : list contrast :=
  [c_M_ex; c_M_em; c_phase_ex; c_phase_em; c_LS;
   c_anisotropy; c_anisotropy_n; c_ET_ruler;
   c_ETmodel_md_fu; c_ETmodel_th_fu; c_ETmodel_gr; c_ETmodel_et;
   c_ETmodel_resi].

(** [getattr(s, prop)], and [hasattr(s, prop)] when it is not [None]. *)
Definition value_of (prop : contrast) : Spot -> option float :=
  match prop with
  | c_M_ex => M_ex
  | c_M_em => M_em
  | c_phase_ex => phase_ex
  | c_phase_em => phase_em
  | c_LS => LS
  | c_anisotropy => anisotropy
  | c_anisotropy_n => anisotropy_n
  | c_ET_ruler => ET_ruler
  | c_ETmodel_md_fu => ETmodel_md_fu
  | c_ETmodel_th_fu => ETmodel_th_fu
  | c_ETmodel_gr => ETmodel_gr
  | c_ETmodel_et => ETmodel_et
  | c_ETmodel_resi => ETmodel_resi
  end.

Definition contrast_eqb (a b : contrast) : bool :=
  match a, b with
  | c_M_ex, c_M_ex | c_M_em, c_M_em | c_phase_ex, c_phase_ex
  | c_phase_em, c_phase_em | c_LS, c_LS | c_anisotropy, c_anisotropy
  | c_anisotropy_n, c_anisotropy_n | c_ET_ruler, c_ET_ruler
  | c_ETmodel_md_fu, c_ETmodel_md_fu | c_ETmodel_th_fu, c_ETmodel_th_fu
  | c_ETmodel_gr, c_ETmodel_gr | c_ETmodel_et, c_ETmodel_et
  | c_ETmodel_resi, c_ETmodel_resi => true
  | _, _ => false
  end.

(** The images of the movie that [update_images] writes:
    [getattr(self, prop+'_image')] for each property. *)
Definition images : Type := contrast -> list (list float).

Definition set_image (imgs : images) (prop : contrast)
    (image : list (list float)) : images :=
  fun prop' => if contrast_eqb prop' prop then image else imgs prop'.

(** [np.ones((datasize[1], datasize[2]))*np.nan], which
    [initContrastImages] copies into each image. *)
Definition initContrastImages (datasize1 datasize2 : nat) : images :=
  fun _ => repeat (repeat nan datasize2) datasize1.

Definition update_images (validspots : list located) (imgs : images)
    : result images :=
  foldM
    (fun imgs s =>
       foldM
         (fun imgs prop =>
            match value_of prop (spot s) with
            | Some _ =>
                image <- store_property_in_image s (imgs prop)
                           (value_of prop) ;;
                Ok (set_image imgs prop image)
            | None => Ok imgs
            end)
         allprops imgs)
    validspots imgs.

(** What [update_images] does to the image of one property: for one spot,
    and for the valid spots one after the other. *)
Definition one_update (s : located) (prop : contrast)
    (image : list (list float)) : result (list (list float)) :=
  match value_of prop (spot s) with
  | Some _ => store_property_in_image s image (value_of prop)
  | None => Ok image
  end.

Definition update_image (prop : contrast) (validspots : list located)
    (image : list (list float)) : result (list (list float)) :=
  foldM (fun image s => one_update s prop image) validspots image.

End ContrastImages.

(** ** The images of the output files: [misc.save_hdf5] and
    [misc.combine_outputs] *)

Module OutputFiles.

(** [sc[new_value_indices] = new[new_value_indices]] with
    [new_value_indices = ~np.isnan(new)], for two images: where the new
    image holds a number, it replaces what the old image holds.  The
    boolean index must have the shape of the array it indexes; with another
    shape the assignment is an [IndexError]. *)
Fixpoint update_row (sc new : list float) : result (list float) :=
  match sc, new with
  | [], [] => Ok []
  | x :: sc', y :: new' =>
      r <- update_row sc' new' ;;
      Ok ((if isnan y then x else y) :: r)
  | _, _ => Raise IndexError
  end.

Fixpoint update_where_not_nan (sc new : list (list float))
    : result (list (list float)) :=
  match sc, new with
  | [], [] => Ok []
  | x :: sc', y :: new' =>
      row <- update_row x y ;;
      r <- update_where_not_nan sc' new' ;;
      Ok (row :: r)
  | _, _ => Raise IndexError
  end.

(** [combine_outputs], for the image of one name: [files] are the images
    of this name in the files of [filelist], in the order of the list.  The
    image of the first file is updated with each of the others in turn, and
    the result is what the combined file gets. *)
Definition combine_outputs (files : list (list (list float)))
    : result (list (list float)) :=
  match files with
  | [] => Raise IndexError
  | first :: rest => foldM update_where_not_nan rest first
  end.

(** The image holds a number at a place. *)
Definition has_data (a : list (list float)) (rc : nat * nat) (v : float)
    : Prop :=
  Array2.at_place a rc = Some v /\ isnan v = false.

(** Two files never hold two different numbers at the same place. *)
Definition never_disagree (files : list (list (list float))) : Prop :=
  forall f g rc v w,
    In f files -> In g files -> has_data f rc v -> has_data g rc w -> v = w.

End OutputFiles.

(** ** The result queue: [mp_worker] and the merge loop of [Movie.run_mp] *)

Module ResultQueue.

Local Open Scope string_scope.

Section Attributes.

(** The values of the attributes of a spot: numbers and arrays. *)
Variable V : Type.

(** A spot as a Python object: its attributes, by name. *)
Definition object : Type := list (String.string * V).

(** [getattr(o, name)] *)
Fixpoint getattr (o : object) (name : String.string) : result V :=
  match o with
  | [] => Raise AttributeError
  | (k, v) :: o' => if String.eqb k name then Ok v else getattr o' name
  end.

(** [setattr(o, name, v)] *)
Fixpoint setattr (o : object) (name : String.string) (v : V) : object :=
  match o with
  | [] => [(name, v)]
  | (k, w) :: o' =>
      if String.eqb k name then (k, v) :: o' else (k, w) :: setattr o' name v
  end.

(** The dictionary that a worker puts on the queue for a spot: the index of
    the spot, under the key ['spot'], and the attributes it reports. *)
Record message : Type := mkMessage {
  spot : nat;
  attributes : list (String.string * V)
}.

(** The keys of the dictionary other than ['spot'], for the stages that
    were asked for. *)
Definition reported (fits mods ETruler ETmodel : bool)
    : list String.string :=
  (if fits then ["linefitparams"; "residual"; "verticalfitparams"] else [])
  ++ (if mods
      then ["M_ex"; "M_em"; "phase_ex"; "phase_em"; "LS"; "anisotropy";
            "anisotropy_n"]
      else [])
  ++ (if ETruler then ["ET_ruler"] else [])
  ++ (if ETmodel
      then ["ETmodel_md_fu"; "ETmodel_th_fu"; "ETmodel_gr"; "ETmodel_et";
            "ETmodel_resi"]
      else []).

(** [validspots[si]] *)
Definition get_object (validspots : list object) (si : nat) : result object :=
  of_option IndexError (nth_error validspots si).

(** The dictionary of one spot. *)
Definition dictionary (validspots : list object) (keys : list String.string)
    (si : nat) : result message :=
  a <- mapM (fun key =>
               s <- get_object validspots si ;;
               v <- getattr s key ;;
               Ok (key, v))
         keys ;;
  Ok (mkMessage si a).

(** The second loop of [mp_worker]: the dictionaries it puts on the queue,
    in their order, up to the first exception if there is one. *)
Fixpoint put_all (validspots : list object) (keys : list String.string)
    (thesespots : list nat) : list message * result unit :=
  match thesespots with
  | [] => ([], Ok tt)
  | si :: rest =>
      match dictionary validspots keys si with
      | Ok a =>
          let (queue, r) := put_all validspots keys rest in (a :: queue, r)
      | Raise e => ([], Raise e)
      end
  end.

(** The stages, which work on the copy of the valid spots that the worker
    process has. *)
Variable fit_all_portraits_spot_parallel_selective :
  list nat -> list object -> result (list object).
Variable find_modulation_depths_and_phases_selective :
  list nat -> list object -> result (list object).
Variable values_for_ETruler : object -> result object.
Variable ETmodel_selective :
  list nat -> list object -> result (list object).

(** The first part of [mp_worker]: the stages that were asked for. *)
Definition run_stages (validspots : list object) (thesespots : list nat)
    (fits mods ETruler ETmodel : bool) : result (list object) :=
  vs <- (if fits
         then fit_all_portraits_spot_parallel_selective thesespots validspots
         else Ok validspots) ;;
  vs <- (if mods
         then find_modulation_depths_and_phases_selective thesespots vs
         else Ok vs) ;;
  vs <- (if ETruler
         then foldM (fun vs si =>
                       s <- get_object vs si ;;
                       s' <- values_for_ETruler s ;;
                       Ok (set_nth si s' vs))
                thesespots vs
         else Ok vs) ;;
  if ETmodel then ETmodel_selective thesespots vs else Ok vs.

(** [mp_worker]: what it puts on the queue, and how it ends. *)
Definition mp_worker (validspots : list object) (thesespots : list nat)
    (fits mods ETruler ETmodel : bool) : list message * result unit :=
  match run_stages validspots thesespots fits mods ETruler ETmodel with
  | Ok vs => put_all vs (reported fits mods ETruler ETmodel) thesespots
  | Raise e => ([], Raise e)
  end.

(** [myspots.index(si)]: the first place of [si], and [ValueError] when it
    is not in the list. *)
Fixpoint index (myspots : list nat) (si : nat) : result nat :=
  match myspots with
  | [] => Raise ValueError
  | x :: myspots' =>
      if (x =? si)%nat then Ok O else i <- index myspots' si ;; Ok (S i)
  end.

(** [myspots.pop(i)] *)
Fixpoint pop (i : nat) (myspots : list nat) : list nat :=
  match myspots, i with
  | [], _ => []
  | _ :: myspots', O => myspots'
  | x :: myspots', S i' => x :: pop i' myspots'
  end.

(** [for key in a.keys(): setattr(self.validspots[si], key, a[key])] *)
Definition merge_one (validspots : list object) (a : message)
    : result (list object) :=
  foldM (fun vs kv =>
           s <- get_object vs (spot a) ;;
           Ok (set_nth (spot a) (setattr s (fst kv) (snd kv)) vs))
    (attributes a) validspots.

(** The loop [while len(myspots)>0] of [run_mp], on the dictionaries that
    arrive on the queue, in their order.  [resultqueue.get()] waits until a
    dictionary arrives: when the spots are not all merged and nothing
    arrives any more, the loop waits for ever, which is the outcome [None].
    Otherwise the loop ends with the merged spots and what is left on the
    queue. *)
Fixpoint drain (arrivals : list message) (myspots : list nat)
    (validspots : list object) {struct arrivals}
    : result (option (list object * list message)) :=
  match myspots with
  | [] => Ok (Some (validspots, arrivals))
  | _ :: _ =>
      match arrivals with
      | [] => Ok None
      | a :: arrivals' =>
          vs <- merge_one validspots a ;;
          i <- index myspots (spot a) ;;
          drain arrivals' (pop i myspots) vs
      end
  end.

(** What follows the start of the workers in [run_mp], up to the update of
    the images: the loop, and the assertion that the queue is empty. *)
Definition merge_results (arrivals : list message) (validspots : list object)
    : result (option (list object)) :=
  let myspots := seq 0 (length validspots) in
  r <- drain arrivals myspots validspots ;;
  match r with
  | None => Ok None
  | Some (vs, left_over) =>
      assert (match left_over with [] => true | _ => false end) ;;;
      Ok (Some vs)
  end.

(** The attributes of a dictionary, assigned to an object one after the
    other. *)
Definition with_attributes (s : object) (a : list (String.string * V))
    : object :=
  fold_left (fun s kv => setattr s (fst kv) (snd kv)) a s.

End Attributes.

End ResultQueue.

(** ** The lines of a portrait: [Movie.find_lines] and
    [Movie.retrieve_angles] *)

Module LineIndexer.

Import PortraitIndexer.

(** [l[start:stop]] on a sequence: a negative index counts from the end,
    and both indices are brought into the sequence. *)
Definition py_slice {A : Type} (l : list A) (start stop : Z) : list A :=
  let n := Z.of_nat (length l) in
  let clip := fun i => if (i <? 0)%Z then Z.max 0 (i + n) else Z.min i n in
  let a := clip start in
  let b := clip stop in
  firstn (Z.to_nat (b - a)) (skipn (Z.to_nat a) l).

(** The loop over the lines of one portrait: for each unique rounded
    emission angle, in increasing order, the array
    [unique_emangles[li]==emangles_rounded] of booleans. *)
Definition lines_of_portrait (emangles : list float) (pstart pstop : Z)
    : result (list (list bool)) :=
  emangles_rounded <- mapM round2 (py_slice emangles pstart pstop) ;;
  let unique_emangles := np_unique emangles_rounded in
  Ok (map (fun u => map (fun x => F64.eqb u x) emangles_rounded)
        unique_emangles).

(** [self.line_indices] and [self.Nlines].  The last statement of
    [find_lines] assigns to [self.Nlines] the number of lines of the last
    portrait; when there is no portrait the variable it reads was never
    assigned, and the statement raises [UnboundLocalError], an exception
    that [exn] does not list: [Nlines] is [None] then. *)
Record lines : Type := mkLines {
  line_indices : list (list (list bool));
  Nlines : option Z
}.

Definition find_lines (emangles : list float) (p : portraits) : result lines :=
  all_line_indices <-
    mapM (fun pi =>
            pstart <- py_getitem (portrait_indices p) pi ;;
            pstop <- py_getitem (portrait_indices p) (pi + 1) ;;
            lines_of_portrait emangles pstart pstop)
      (range (Nportraits p)) ;;
  Ok (mkLines all_line_indices
        (match rev all_line_indices with
         | [] => None
         | line_indices :: _ => Some (Z.of_nat (length line_indices))
         end)).

(** [a[mask]] for an array of booleans [mask]: the entries of [a] where
    [mask] is true.  The mask must have the length of the array. *)
Fixpoint select {A : Type} (a : list A) (mask : list bool) : result (list A) :=
  match a, mask with
  | [], [] => Ok []
  | x :: a', b :: mask' =>
      r <- select a' mask' ;; Ok (if b then x :: r else r)
  | _, _ => Raise IndexError
  end.

Definition retrieve_angles (exangles emangles : list float) (p : portraits)
    (line_indices : list (list (list bool))) (iportrait iline : Z)
    : result (list float * float) :=
  pstart <- py_getitem (portrait_indices p) iportrait ;;
  pstop <- py_getitem (portrait_indices p) (iportrait + 1) ;;
  lines <- py_getitem line_indices iportrait ;;
  mask <- py_getitem lines iline ;;
  exangles <- select (py_slice exangles pstart pstop) mask ;;
  emangle <- select (py_slice emangles pstart pstop) mask ;;
  emangle0 <- py_getitem emangle 0 ;;
  assert (forallb (fun x => F64.eqb emangle0 x) emangle) ;;;
  Ok (exangles, emangle0).

End LineIndexer.

(** ** The measurements of a directory:
    [find_measurement_files_in_directory] *)

Module MeasurementFiles.

(** A file name is a Python 2 [str], a sequence of characters. *)
Definition str : Type := list Ascii.ascii.

Definition lit (s : String.string) : str := String.list_ascii_of_string s.

Definition str_eqb (a b : str) : bool :=
  if list_eq_dec Ascii.ascii_dec a b then true else false.

(** [s.endswith(suffix)] *)
Definition endswith (s suffix : str) : bool :=
  (length suffix <=? length s)
  && str_eqb (skipn (length s - length suffix) s) suffix.

(** [s[:-4]]: all the characters but the last four; none when there are
    four or fewer. *)
Definition but_last4 (s : str) : str := firstn (length s - 4) s.

Local Open Scope string_scope.

(** [listdir] is what [os.listdir(".")] returns once the directory has been
    entered; the directory does not change while the function runs.  The
    result is [(basenames, spefiles, motorfiles)]. *)
Definition find_measurement_files_in_directory (listdir : list str)
    : list str * list str * list str :=
  fold_left
    (fun found file1 =>
       if endswith file1 (lit ".spe") || endswith file1 (lit ".SPE") then
         fold_left
           (fun found file2 =>
              if str_eqb file2 (lit "MS-" ++ but_last4 file1 ++ lit ".txt")
              then
                let '(basenames, spefiles, motorfiles) := found in
                (basenames ++ [but_last4 file1],
                 spefiles ++ [file1],
                 motorfiles ++ [file2])
              else found)
           listdir found
       else found)
    listdir ([], [], []).

End MeasurementFiles.

(** * Theorems *)

Unset Implicit Arguments.

(** ** Lists of spots and the loop over them *)

Lemma bind_ok {A B : Type} (r : result A) (k : A -> result B) (b : B) :
  bind r k = Ok b -> exists a, r = Ok a /\ k a = Ok b.
Proof. destruct r as [a|e]; simpl; intros H; [eauto | discriminate]. Qed.

Ltac inv_bind H :=
  let x := fresh "x" in
  let Hx := fresh "Hx" in
  apply bind_ok in H; destruct H as (x & Hx & H).

Lemma update_spot_same (vs : list Spot) (si : nat) (s s' : Spot) :
  nth_error vs si = Some s -> nth_error (update_spot vs si s') si = Some s'.
Proof.
  revert si; induction vs as [|x vs IH]; intros [|si]; simpl; try discriminate; auto.
Qed.

Lemma update_spot_other (vs : list Spot) (si sj : nat) (s' : Spot) :
  si <> sj -> nth_error (update_spot vs si s') sj = nth_error vs sj.
Proof.
  revert si sj; induction vs as [|x vs IH]; intros [|si] [|sj] H; simpl; auto.
  congruence.
Qed.

Lemma get_spot_ok (vs : list Spot) (si : nat) (s : Spot) :
  get_spot vs si = Ok s -> nth_error vs si = Some s.
Proof.
  unfold get_spot, of_option. destruct (nth_error vs si); congruence.
Qed.

Section ForSpots.

Context {C : Type}.
Variable body : C -> Spot -> result Spot.

Lemma for_spots_untouched (myspots : list nat) :
  forall (ccols : list C) (vs vs' : list Spot) (sj : nat),
    for_spots body ccols myspots vs = Ok vs' ->
    ~ In sj myspots ->
    nth_error vs' sj = nth_error vs sj.
Proof.
  induction myspots as [|si rest IH]; intros ccols vs vs' sj H Hn; simpl in H.
  - injection H as <-. reflexivity.
  - destruct ccols as [|c ccols]; [discriminate|].
    inv_bind H. inv_bind H.
    erewrite IH; [| eassumption | intro; apply Hn; right; assumption].
    apply update_spot_other. intro; apply Hn; left; assumption.
Qed.

(** What the body establishes holds, when the loop is over, of every spot
    the loop went through. *)
Lemma for_spots_post (P : Spot -> Prop) (myspots : list nat) :
  forall (cols : list C) (vs vs' : list Spot) (si : nat),
    (forall c s s', In c cols -> body c s = Ok s' -> P s') ->
    for_spots body cols myspots vs = Ok vs' ->
    In si myspots ->
    exists s', nth_error vs' si = Some s' /\ P s'.
Proof.
  induction myspots as [|sj rest IH]; intros cols vs vs' si HP H Hin.
  - destruct Hin.
  - simpl in H. destruct cols as [|c cols]; [discriminate|].
    inv_bind H. inv_bind H.
    destruct (in_dec Nat.eq_dec si rest) as [Hr|Hr].
    + eapply IH; [| eassumption | assumption].
      intros c' s s' Hc. apply HP. now right.
    + destruct Hin as [->|Hin]; [|contradiction].
      exists x0. split.
      * erewrite for_spots_untouched; [| eassumption | assumption].
        apply update_spot_same with (s := x). now apply get_spot_ok.
      * eapply HP; [now left | eassumption].
Qed.

(** What the body preserves is preserved by the loop. *)
Lemma for_spots_preserves (Q : Spot -> Prop) (myspots : list nat) :
  forall (cols : list C) (vs vs' : list Spot) (sj : nat) (s : Spot),
    (forall c s s', body c s = Ok s' -> Q s -> Q s') ->
    for_spots body cols myspots vs = Ok vs' ->
    nth_error vs sj = Some s -> Q s ->
    exists s', nth_error vs' sj = Some s' /\ Q s'.
Proof.
  induction myspots as [|si rest IH]; intros cols vs vs' sj s HQ H Hs Qs.
  - simpl in H. injection H as <-. eauto.
  - simpl in H. destruct cols as [|c cols]; [discriminate|].
    inv_bind H. inv_bind H.
    destruct (Nat.eq_dec si sj) as [->|Hne].
    + eapply IH; [exact HQ | eassumption | |].
      * apply update_spot_same with (s := x). now apply get_spot_ok.
      * eapply HQ; [eassumption|]. apply get_spot_ok in Hx. congruence.
    + eapply IH; [exact HQ | eassumption | | eassumption].
      rewrite update_spot_other by assumption. assumption.
Qed.

End ForSpots.

Lemma mapM_length {A B : Type} (f : A -> result B) (l : list A) (l' : list B) :
  mapM f l = Ok l' -> length l' = length l.
Proof.
  revert l'; induction l as [|x l IH]; simpl; intros l' H.
  - injection H as <-. reflexivity.
  - inv_bind H. inv_bind H. injection H as <-. simpl. f_equal. now apply IH.
Qed.

Lemma mapM_nth {A B : Type} (f : A -> result B) (l : list A) (l' : list B) :
  mapM f l = Ok l' ->
  forall i y, nth_error l' i = Some y ->
  exists x, nth_error l i = Some x /\ f x = Ok y.
Proof.
  revert l'; induction l as [|x l IH]; simpl; intros l' H i y Hy.
  - injection H as <-. destruct i; discriminate.
  - inv_bind H. inv_bind H. injection H as <-.
    destruct i as [|i]; simpl in *.
    + injection Hy as <-. eauto.
    + eapply IH; eauto.
Qed.

Lemma mapM_combine {A B : Type} (f : A -> result B) (l : list A) (l' : list B) :
  mapM f l = Ok l' ->
  forall x y, In (x, y) (combine l l') -> f x = Ok y.
Proof.
  revert l'; induction l as [|a l IH]; simpl; intros l' H x y Hin.
  - destruct Hin.
  - inv_bind H. inv_bind H. injection H as <-.
    destruct Hin as [Heq|Hin].
    + injection Heq as <- <-. assumption.
    + eapply IH; eauto.
Qed.

Lemma forM_ok {A : Type} (f : A -> result unit) (l : list A) :
  forM_ f l = Ok tt -> forall x, In x l -> f x = Ok tt.
Proof.
  induction l as [|a l IH]; simpl; intros H x Hin.
  - destruct Hin.
  - inv_bind H. destruct x0. destruct Hin as [<-|Hin]; auto.
Qed.

(** ** Comparisons of binary64 numbers *)

Lemma SFcompare_antisym (x y : float) (c : comparison) :
  SFcompare x y = Some c -> SFcompare y x = Some (CompOpp c).
Proof.
  destruct x as [sx|sx| |sx mx ex], y as [sy|sy| |sy my ey]; simpl;
    try discriminate;
    try (destruct sx; intros H; injection H as <-; reflexivity);
    try (destruct sy; intros H; injection H as <-; reflexivity);
    try (intros H; injection H as <-; reflexivity).
  - destruct sx, sy; intros H; injection H as <-; reflexivity.
  - destruct sx, sy; intros H; injection H as <-; try reflexivity.
    + rewrite (Z.compare_antisym ex ey).
      destruct (ex ?= ey)%Z; simpl; try reflexivity.
      do 2 f_equal. exact (eq_sym (Pos.compare_cont_antisym mx my Eq)).
    + rewrite (Z.compare_antisym ex ey).
      destruct (ex ?= ey)%Z; simpl; try reflexivity.
      f_equal. exact (eq_sym (Pos.compare_cont_antisym mx my Eq)).
Qed.

Lemma ltb_false_leb (x y : float) :
  isnan x = false -> isnan y = false -> F64.ltb x y = false -> F64.leb y x = true.
Proof.
  unfold F64.ltb, F64.leb, SFltb, SFleb. intros Hx Hy H.
  destruct (SFcompare x y) as [c|] eqn:E.
  - rewrite (SFcompare_antisym _ _ _ E). destruct c; simpl; congruence.
  - destruct x, y; simpl in *; try discriminate;
      repeat match goal with b : bool |- _ => destruct b end; discriminate.
Qed.

Lemma ltb_leb (x y : float) : F64.ltb x y = true -> F64.leb x y = true.
Proof.
  unfold F64.ltb, F64.leb, SFltb, SFleb.
  destruct (SFcompare x y) as [[]|]; congruence.
Qed.

Lemma ltb_not_nan (x y : float) :
  F64.ltb x y = true -> isnan x = false /\ isnan y = false.
Proof.
  destruct x, y; simpl; auto; discriminate.
Qed.

Lemma ltb_asym (x y : float) : F64.ltb x y = true -> F64.ltb y x = false.
Proof.
  unfold F64.ltb, SFltb. destruct (SFcompare x y) as [c|] eqn:E; [|discriminate].
  rewrite (SFcompare_antisym _ _ _ E). destruct c; simpl; congruence.
Qed.

(** ** Binary64 numbers as integers *)

Local Open Scope Z_scope.

Lemma digits2_pos_size (m : positive) : digits2_pos m = Pos.size m.
Proof. induction m; simpl; congruence. Qed.

Lemma digits2_pos_bounds (m : positive) :
  2 ^ (Zpos (digits2_pos m) - 1) <= Zpos m < 2 ^ Zpos (digits2_pos m).
Proof.
  induction m as [m IH|m IH|].
  - simpl digits2_pos. rewrite Pos2Z.inj_succ.
    replace (Z.succ (Zpos (digits2_pos m)) - 1) with (Zpos (digits2_pos m)) by lia.
    rewrite Z.pow_succ_r by lia.
    replace (Zpos (digits2_pos m)) with (Zpos (digits2_pos m) - 1 + 1) at 1 by lia.
    rewrite Z.pow_add_r by lia. change (2 ^ 1) with 2. lia.
  - simpl digits2_pos. rewrite Pos2Z.inj_succ.
    replace (Z.succ (Zpos (digits2_pos m)) - 1) with (Zpos (digits2_pos m)) by lia.
    rewrite Z.pow_succ_r by lia.
    replace (Zpos (digits2_pos m)) with (Zpos (digits2_pos m) - 1 + 1) at 1 by lia.
    rewrite Z.pow_add_r by lia. change (2 ^ 1) with 2. lia.
  - simpl. lia.
Qed.

Lemma iter_xO_value (m d : positive) :
  Zpos (Pos.iter xO m d) = Zpos m * 2 ^ Zpos d.
Proof.
  revert m. induction d using Pos.peano_ind; intros m.
  - simpl. lia.
  - rewrite Pos.iter_succ. rewrite Pos2Z.inj_xO, IHd, Pos2Z.inj_succ.
    rewrite Z.pow_succ_r by lia. lia.
Qed.

Lemma iter_xO_digits (m d : positive) :
  Zpos (digits2_pos (Pos.iter xO m d)) = Zpos (digits2_pos m) + Zpos d.
Proof.
  revert m. induction d using Pos.peano_ind; intros m.
  - simpl. lia.
  - rewrite Pos.iter_succ. simpl digits2_pos.
    rewrite Pos2Z.inj_succ, IHd. lia.
Qed.

(** Aligning a mantissa on a smaller exponent keeps the value. *)
Lemma shl_align_spec (m : positive) (e e' : Z) :
  e' <= e ->
  let r := shl_align m e e' in
  Zpos (fst r) = Zpos m * 2 ^ (e - e')
  /\ snd r = e'
  /\ Zpos (digits2_pos (fst r)) = Zpos (digits2_pos m) + (e - e').
Proof.
  intros H. unfold shl_align.
  destruct (e' - e) as [|p|p] eqn:E; cbn [fst snd].
  - assert (e' = e) by lia. subst. rewrite Z.sub_diag, Z.pow_0_r. lia.
  - lia.
  - assert (e - e' = Zpos p) by lia.
    rewrite iter_xO_value, iter_xO_digits. rewrite H0. lia.
Qed.

Lemma fexp_spec (x : Z) : fexp prec emax x = Z.max (x - 53) (-1074).
Proof. reflexivity. Qed.

(** A canonical mantissa has at most 53 bits, and exactly 53 above the
    smallest exponent. *)
Lemma canonical_bounds (m : positive) (e : Z) :
  canonical_mantissa prec emax m e = true ->
  -1074 <= e /\ Zpos m < 2 ^ 53 /\ (-1074 < e -> 2 ^ 52 <= Zpos m).
Proof.
  unfold canonical_mantissa. rewrite fexp_spec. intros H.
  apply Z.eqb_eq in H.
  pose proof (digits2_pos_bounds m) as [Hlo Hhi].
  assert (Hd : Zpos (digits2_pos m) <= 53) by lia.
  split; [lia|]. split.
  - eapply Z.lt_le_trans; [exact Hhi|]. apply Z.pow_le_mono_r; lia.
  - intros He. assert (Zpos (digits2_pos m) = 53) by lia.
    rewrite H0 in Hlo. exact Hlo.
Qed.

Lemma pow2_pos (n : Z) : 0 <= n -> 0 < 2 ^ n.
Proof. intros. apply Z.pow_pos_nonneg; lia. Qed.

Lemma mul_compare_pos (a b c : Z) : 0 < c -> (a * c ?= b * c) = (a ?= b).
Proof.
  intros H. destruct (Z.compare_spec a b) as [E|E|E].
  - subst. apply Z.compare_refl.
  - apply Z.compare_lt_iff. nia.
  - apply Z.compare_gt_iff. nia.
Qed.

(** Two canonical positive numbers compare as their integers do. *)
Lemma compare_canonical (m1 m2 : positive) (e1 e2 k : Z) :
  canonical_mantissa prec emax m1 e1 = true ->
  canonical_mantissa prec emax m2 e2 = true ->
  k <= e1 -> k <= e2 ->
  match (e1 ?= e2) with
  | Lt => Lt
  | Gt => Gt
  | Eq => Pos.compare_cont Eq m1 m2
  end = (Zpos m1 * 2 ^ (e1 - k) ?= Zpos m2 * 2 ^ (e2 - k)).
Proof.
  intros C1 C2 K1 K2.
  destruct (canonical_bounds _ _ C1) as (L1 & U1 & N1).
  destruct (canonical_bounds _ _ C2) as (L2 & U2 & N2).
  destruct (Z.compare_spec e1 e2) as [E|E|E].
  - subst e2. symmetry.
    rewrite mul_compare_pos by (apply pow2_pos; lia).
    reflexivity.
  - symmetry. apply Z.compare_lt_iff.
    replace (e2 - k) with ((e2 - e1) + (e1 - k)) by lia.
    rewrite Z.pow_add_r by lia. rewrite Z.mul_assoc.
    apply Z.mul_lt_mono_pos_r; [apply pow2_pos; lia|].
    assert (2 <= 2 ^ (e2 - e1)).
    { change 2 with (2 ^ 1) at 1. apply Z.pow_le_mono_r; lia. }
    specialize (N2 ltac:(lia)). nia.
  - symmetry. apply Z.compare_gt_iff.
    replace (e1 - k) with ((e1 - e2) + (e2 - k)) by lia.
    rewrite Z.pow_add_r by lia. rewrite Z.mul_assoc.
    apply Z.mul_lt_mono_pos_r; [apply pow2_pos; lia|].
    assert (2 <= 2 ^ (e1 - e2)).
    { change 2 with (2 ^ 1) at 1. apply Z.pow_le_mono_r; lia. }
    specialize (N1 ltac:(lia)). nia.
Qed.

Lemma scaled_sign (k : Z) (s : bool) (m : positive) (e : Z) :
  k <= e ->
  if s then scaled k (S754_finite s m e) < 0
  else 0 < scaled k (S754_finite s m e).
Proof.
  intros H. pose proof (pow2_pos (e - k) ltac:(lia)).
  assert (0 < Zpos m * 2 ^ (e - k)) by (apply Z.mul_pos_pos; lia).
  destruct s; cbn [scaled cond_Zopp]; lia.
Qed.

(** The comparison of two numbers of binary64 is the comparison of their
    integers. *)
Lemma compare_scaled (k : Z) (x y : float) :
  representable x -> representable y ->
  exponent_ge k x -> exponent_ge k y ->
  SFcompare x y = Some (scaled k x ?= scaled k y).
Proof.
  intros [Fx Vx] [Fy Vy] Kx Ky.
  destruct x as [sx|sx| |sx mx ex], y as [sy|sy| |sy my ey];
    try discriminate; simpl in Kx, Ky.
  - reflexivity.
  - pose proof (scaled_sign k sy my ey Ky) as S.
    cbn [SFcompare]. change (scaled k (S754_zero sx)) with 0.
    destruct sy; f_equal; symmetry;
      [apply Z.compare_gt_iff | apply Z.compare_lt_iff]; lia.
  - pose proof (scaled_sign k sx mx ex Kx) as S.
    cbn [SFcompare]. change (scaled k (S754_zero sy)) with 0.
    destruct sx; f_equal; symmetry;
      [apply Z.compare_lt_iff | apply Z.compare_gt_iff]; lia.
  - simpl in Vx, Vy. unfold bounded in Vx, Vy.
    apply andb_prop in Vx, Vy. destruct Vx as [Cx _], Vy as [Cy _].
    pose proof (scaled_sign k sx mx ex Kx) as Sx.
    pose proof (scaled_sign k sy my ey Ky) as Sy.
    pose proof (compare_canonical _ _ _ _ _ Cx Cy Kx Ky) as Hc.
    cbn [SFcompare]. f_equal.
    destruct sx, sy.
    + cbn [scaled cond_Zopp]. rewrite Z.compare_opp.
      rewrite <- (compare_canonical _ _ _ _ _ Cy Cx Ky Kx).
      rewrite (Z.compare_antisym ex ey).
      destruct (ex ?= ey); simpl; try reflexivity.
      exact (Pos.compare_cont_antisym mx my Eq).
    + symmetry. apply Z.compare_lt_iff. lia.
    + symmetry. apply Z.compare_gt_iff. lia.
    + exact Hc.
Qed.

(** ** Rounding a mantissa that fits *)

(** A mantissa of at most 53 bits, on an exponent of binary64, is only
    put in canonical form: the value is kept. *)
Lemma binary_round_exact (s : bool) (m : positive) (e : Z) :
  Zpos (digits2_pos m) <= 53 -> -1074 <= e -> e <= 970 ->
  exists m' e',
    binary_round prec emax s m e = S754_finite s m' e'
    /\ e - 53 < e' <= e
    /\ Zpos m' = Zpos m * 2 ^ (e - e')
    /\ valid_binary prec emax (S754_finite s m' e') = true.
Proof.
  intros Hd He Hmax.
  set (d := Zpos (digits2_pos m)) in *.
  assert (Hd1 : 1 <= d) by (unfold d; lia).
  set (e' := fexp prec emax (d + e)).
  assert (He' : e - 53 < e' <= e) by (unfold e'; rewrite fexp_spec; lia).
  destruct (shl_align_spec m e e' ltac:(lia)) as (Hv & Hs & Hg).
  unfold binary_round. fold d. fold e'.
  destruct (shl_align m e e') as [mz ez] eqn:E. cbn [fst snd] in Hv, Hs, Hg.
  subst ez. exists mz, e'.
  assert (Hfe : fexp prec emax (Zpos (digits2_pos mz) + e') = e').
  { rewrite Hg. fold d. replace (d + (e - e') + e') with (d + e) by lia.
    reflexivity. }
  assert (Hshr : shr_fexp prec emax (Zpos mz) e' loc_Exact
                 = (Build_shr_record (Zpos mz) false false, e')).
  { unfold shr_fexp. cbn [Zdigits2]. rewrite Hfe, Z.sub_diag. reflexivity. }
  split.
  - unfold binary_round_aux. rewrite Hshr. cbn [shr_m loc_of_shr_record
      round_nearest_even]. rewrite Hshr. cbn [shr_m].
    destruct (Z.leb_spec e' (emax - prec)) as [_|Hbad]; [reflexivity|].
    unfold emax, prec in Hbad. lia.
  - split; [exact He'|]. split; [exact Hv|].
    cbn [valid_binary]. unfold bounded, canonical_mantissa.
    rewrite Hfe, Z.eqb_refl. cbn [andb].
    apply Z.leb_le. unfold emax, prec. lia.
Qed.

(** The same for an integer of either sign. *)
Lemma binary_normalize_exact (D e : Z) :
  Z.abs D < 2 ^ 53 -> -1074 <= e -> e <= 970 ->
  let r := binary_normalize prec emax D e false in
  representable r
  /\ exponent_ge (e - 53) r
  /\ forall k, k <= e - 53 -> scaled k r = D * 2 ^ (e - k).
Proof.
  intros HD He Hmax. destruct D as [|p|p]; cbn [binary_normalize].
  - repeat split.
  - assert (Hd : Zpos (digits2_pos p) <= 53).
    { pose proof (digits2_pos_bounds p) as [Hlo _].
      destruct (Z.le_gt_cases (Zpos (digits2_pos p)) 53) as [|Hgt]; [assumption|].
      exfalso. assert (2 ^ 53 <= 2 ^ (Zpos (digits2_pos p) - 1))
        by (apply Z.pow_le_mono_r; lia). simpl Z.abs in HD. lia. }
    destruct (binary_round_exact false p e Hd He Hmax) as (m' & e' & -> & Hb & Hv & Hok).
    split; [split; [reflexivity | exact Hok]|]. split; [simpl; lia|].
    intros k Hk. cbn [scaled cond_Zopp]. rewrite Hv.
    rewrite <- Z.mul_assoc, <- Z.pow_add_r by lia. f_equal. f_equal. lia.
  - assert (Hd : Zpos (digits2_pos p) <= 53).
    { pose proof (digits2_pos_bounds p) as [Hlo _].
      destruct (Z.le_gt_cases (Zpos (digits2_pos p)) 53) as [|Hgt]; [assumption|].
      exfalso. assert (2 ^ 53 <= 2 ^ (Zpos (digits2_pos p) - 1))
        by (apply Z.pow_le_mono_r; lia). simpl Z.abs in HD. lia. }
    destruct (binary_round_exact true p e Hd He Hmax) as (m' & e' & -> & Hb & Hv & Hok).
    split; [split; [reflexivity | exact Hok]|]. split; [simpl; lia|].
    intros k Hk. cbn [scaled cond_Zopp]. rewrite Hv.
    rewrite <- Z.mul_assoc, <- Z.pow_add_r by lia.
    change (Zneg p) with (- Zpos p). rewrite Z.mul_opp_l.
    f_equal. f_equal. f_equal. lia.
Qed.

(** ** The sign of a rounded number *)

Lemma shr_1_nonneg (mrs : shr_record) : 0 <= shr_m mrs -> 0 <= shr_m (shr_1 mrs).
Proof.
  destruct mrs as [m r s]. cbn [shr_m]. unfold shr_1.
  destruct m as [|[p|p|]|[p|p|]]; cbn [shr_m]; lia.
Qed.

Lemma iter_pos_shr_1_nonneg (p : positive) :
  forall mrs, 0 <= shr_m mrs -> 0 <= shr_m (iter_pos shr_1 p mrs).
Proof.
  induction p as [p IH|p IH|]; intros mrs H; cbn [iter_pos].
  - apply IH, IH, shr_1_nonneg, H.
  - apply IH, IH, H.
  - apply shr_1_nonneg, H.
Qed.

Lemma shr_fexp_nonneg (m e : Z) (l : location) :
  0 <= m -> 0 <= shr_m (fst (shr_fexp prec emax m e l)).
Proof.
  intros H. unfold shr_fexp, shr.
  assert (H0 : 0 <= shr_m (shr_record_of_loc m l))
    by (destruct l as [|[]]; exact H).
  destruct (fexp prec emax (Zdigits2 m + e) - e); cbn [fst]; auto.
  now apply iter_pos_shr_1_nonneg.
Qed.

Lemma round_nearest_even_nonneg (m : Z) (l : location) :
  0 <= m -> 0 <= round_nearest_even m l.
Proof.
  intros H. destruct l as [|[]]; cbn [round_nearest_even]; try lia.
  destruct (Z.even m); lia.
Qed.

(** Rounding keeps the sign it is given. *)
Lemma binary_round_aux_sign (s : bool) (m e : Z) (l : location) :
  0 <= m -> has_sign s (binary_round_aux prec emax s m e l).
Proof.
  intros H. unfold binary_round_aux.
  pose proof (shr_fexp_nonneg m e l H) as H1.
  destruct (shr_fexp prec emax m e l) as [mrs' e1]. cbn [fst] in H1.
  pose proof (round_nearest_even_nonneg _ (loc_of_shr_record mrs') H1) as H2.
  pose proof (shr_fexp_nonneg _ e1 loc_Exact H2) as H3.
  destruct (shr_fexp prec emax _ e1 loc_Exact) as [mrs'' e2]. cbn [fst] in H3.
  destruct (shr_m mrs'') as [|p|p]; [reflexivity| |lia].
  destruct (e2 <=? emax - prec); reflexivity.
Qed.

Lemma binary_round_sign (s : bool) (m : positive) (e : Z) :
  has_sign s (binary_round prec emax s m e).
Proof.
  unfold binary_round. destruct (shl_align m e _) as [mz ez].
  apply binary_round_aux_sign. lia.
Qed.

(** ** Exact differences and sums *)

Lemma scaled_aligned (s : bool) (m : positive) (e ez : Z) :
  ez <= e ->
  cond_Zopp s (Zpos (fst (shl_align m e ez))) = scaled ez (S754_finite s m e).
Proof.
  intros H. destruct (shl_align_spec m e ez H) as (Hv & _ & _).
  cbn [scaled]. now rewrite Hv.
Qed.

Lemma sub_finite (sx sy : bool) (mx my : positive) (ex ey : Z) :
  let x := S754_finite sx mx ex in
  let y := S754_finite sy my ey in
  let ez := Z.min ex ey in
  F64.sub x y = binary_normalize prec emax (scaled ez x - scaled ez y) ez false.
Proof.
  intros x y ez. unfold F64.sub, SFsub, x, y. fold ez.
  rewrite !scaled_aligned by (unfold ez; lia). reflexivity.
Qed.

Lemma add_finite (sx sy : bool) (mx my : positive) (ex ey : Z) :
  let x := S754_finite sx mx ex in
  let y := S754_finite sy my ey in
  let ez := Z.min ex ey in
  F64.add x y = binary_normalize prec emax (scaled ez x + scaled ez y) ez false.
Proof.
  intros x y ez. unfold F64.add, SFadd, x, y. fold ez.
  rewrite !scaled_aligned by (unfold ez; lia). reflexivity.
Qed.

(** ** Comparisons through the integers *)

Lemma leb_scaled (k : Z) (x y : float) :
  representable x -> representable y ->
  exponent_ge k x -> exponent_ge k y ->
  F64.leb x y = (scaled k x <=? scaled k y).
Proof.
  intros Rx Ry Kx Ky. unfold F64.leb, SFleb.
  rewrite (compare_scaled k x y Rx Ry Kx Ky). unfold Z.leb.
  destruct (scaled k x ?= scaled k y); reflexivity.
Qed.


Lemma leb_not_ltb (x y : float) : F64.leb x y = true -> F64.ltb y x = false.
Proof.
  unfold F64.leb, F64.ltb, SFleb, SFltb.
  destruct (SFcompare x y) as [c|] eqn:E; [|discriminate].
  rewrite (SFcompare_antisym _ _ _ E). destruct c; simpl; congruence.
Qed.

Lemma compare_cont_lt (p q : positive) :
  Pos.compare_cont Eq p q = Lt -> (Zpos p < Zpos q).
Proof.
  intros H. change (Pos.compare p q = Lt) in H.
  rewrite Pos.compare_lt_iff in H. lia.
Qed.

Lemma compare_cont_gt (p q : positive) :
  Pos.compare_cont Eq p q = Gt -> (Zpos q < Zpos p).
Proof.
  intros H. change (Pos.compare p q = Gt) in H.
  rewrite Pos.compare_gt_iff in H. lia.
Qed.

Lemma compare_cont_eq (p q : positive) :
  Pos.compare_cont Eq p q = Eq -> Zpos p = Zpos q.
Proof.
  intros H. change (Pos.compare p q = Eq) in H.
  apply Pos.compare_eq in H. congruence.
Qed.

Local Close Scope Z_scope.

(** ** numpy arithmetic: what it returns and what it raises *)

Lemma checked_ok (x y r v : float) : Np.checked x y r = Ok v -> v = r.
Proof. unfold Np.checked. destruct (Np.overflowed x y r); congruence. Qed.


Lemma Np_add_ok (x y v : float) : Np.add x y = Ok v -> v = F64.add x y.
Proof.
  destruct x as [sx|sx| |sx mx ex], y as [sy|sy| |sy my ey];
    try (apply checked_ok).
  simpl. destruct sx, sy; simpl; congruence.
Qed.

Lemma Np_sub_ok (x y v : float) : Np.sub x y = Ok v -> v = F64.sub x y.
Proof.
  destruct x as [sx|sx| |sx mx ex], y as [sy|sy| |sy my ey];
    try (apply checked_ok).
  simpl. destruct sx, sy; simpl; congruence.
Qed.

Lemma Np_mul_ok (x y v : float) : Np.mul x y = Ok v -> v = F64.mul x y.
Proof.
  destruct x as [sx|sx| |sx mx ex], y as [sy|sy| |sy my ey];
    try (apply checked_ok); intros H; discriminate H.
Qed.

Lemma Np_div_ok (x y v : float) : Np.div x y = Ok v -> v = F64.div x y.
Proof.
  destruct x as [sx|sx| |sx mx ex], y as [sy|sy| |sy my ey];
    try (apply checked_ok); intros H; try discriminate H;
    injection H as <-; reflexivity.
Qed.




(** ** The angle grids *)

Import AngleGrid.

Lemma assert_on_grid_ok (grid : list float) (a : float) :
  assert_on_grid grid a = Ok tt ->
  exists g, In g grid /\ within_ten_eps a g = true.
Proof.
  unfold assert_on_grid. intros H. inv_bind H.
  unfold assert in H. destruct (existsb _ grid) eqn:E; [|discriminate].
  apply existsb_exists in E. exact E.
Qed.

Lemma assert_on_grid_fails (grid : list float) (a : float) :
  (forall g, In g grid -> within_ten_eps a g = false) ->
  exists e, assert_on_grid grid a = Raise e.
Proof.
  unfold assert_on_grid. intros H.
  destruct (mapM (Np.sub a) grid) as [ds|e]; cbn [bind]; [|eauto].
  assert (E : existsb (within_ten_eps a) grid = false).
  { destruct (existsb _ grid) eqn:E; [|reflexivity].
    apply existsb_exists in E. destruct E as (g & Hg & Hw).
    rewrite (H g Hg) in Hw. discriminate. }
  rewrite E. simpl. eauto.
Qed.

Lemma forM_covered (grid angles : list float) :
  forM_ (assert_on_grid grid) angles = Ok tt -> covered angles grid.
Proof.
  intros H a Ha. apply assert_on_grid_ok. eapply forM_ok; eauto.
Qed.

Lemma forM_not_covered (grid angles : list float) (a : float) :
  In a angles ->
  (forall g, In g grid -> within_ten_eps a g = false) ->
  exists e, forM_ (assert_on_grid grid) angles = Raise e.
Proof.
  induction angles as [|b angles IH]; intros Hin H; [destruct Hin|].
  simpl. destruct (assert_on_grid grid b) as [[]|e] eqn:E; cbn [bind]; [|eauto].
  destruct Hin as [->|Hin].
  - destruct (assert_on_grid_fails grid a H) as (e & He). congruence.
  - auto.
Qed.

(** C5.  The constructor checks the grids against the observed angles: if
    it succeeds, every unique excitation angle and every unique emission
    angle has an entry of its grid within ten epsilons; and if, for the grids
    it computed, some observed angle has no such entry, it fails. *)
Theorem init_validates_grids
    (unique_exangles unique_emangles : list float) (offset : float) :
  (forall g, init unique_exangles unique_emangles offset = Ok g ->
     covered unique_exangles (excitation_angles_grid g)
     /\ covered unique_emangles (emission_angles_grid g))
  /\ (forall gex a,
        excitation_grid (length unique_exangles) offset = Ok gex ->
        (In a unique_exangles
         /\ forall g, In g gex -> within_ten_eps a g = false)
        \/ (In a unique_emangles
            /\ forall g, In g (emission_grid (length unique_emangles)) ->
                         within_ten_eps a g = false) ->
        exists e, init unique_exangles unique_emangles offset = Raise e).
Proof.
  unfold init. split.
  - intros g H. inv_bind H. inv_bind H. inv_bind H. injection H as <-.
    destruct x0, x1. simpl. split; now apply forM_covered.
  - intros gex a -> H. cbn [bind].
    destruct H as [(Hin & H)|(Hin & H)].
    + destruct (forM_not_covered gex unique_exangles a Hin H) as (e & ->).
      simpl. eauto.
    + destruct (forM_ (assert_on_grid gex) unique_exangles) as [[]|e];
        cbn [bind]; [|eauto].
      destruct (forM_not_covered _ unique_emangles a Hin H) as (e & ->).
      simpl. eauto.
Qed.

Lemma init_validates_grids_witness :
  (init [zero; half_pi] [zero] zero = Ok (mkGrids [zero; half_pi] [zero])
   /\ covered [zero; half_pi] [zero; half_pi] /\ covered [zero] [zero])
  /\ exists e, init [zero; one] [zero] zero = Raise e.
Proof.
  destruct (init_validates_grids [zero; half_pi] [zero] zero) as [H _].
  destruct (init_validates_grids [zero; one] [zero] zero) as [_ H'].
  split.
  - split; [vm_compute; reflexivity|].
    apply (H (mkGrids [zero; half_pi] [zero])). vm_compute. reflexivity.
  - apply (H' [zero; half_pi] one); [vm_compute; reflexivity|].
    left. split; [simpl; auto|].
    intros g [<-|[<-|[]]]; vm_compute; reflexivity.
Defined.

(** ** The wrap of the excitation grid *)

Local Open Scope Z_scope.




Local Close Scope Z_scope.

Lemma linspace_length (n : nat) : length (linspace_0_pi n) = n.
Proof. unfold linspace_0_pi. now rewrite length_map, length_seq. Qed.






(** The wrap of a tiny negative value: the remainder is the value itself,
    pi is added to it, and the sum rounds to pi. *)
Example wrap_of_tiny_negative :
  AngleGrid.np_mod (F64.opp (ratio 1 100000000000000000000)) pi = Ok pi.
Proof. vm_compute. reflexivity. Qed.

(** ** The portrait indexer *)

Import PortraitIndexer.

Lemma range_in (n i : Z) : In i (range n) -> (0 <= i < n)%Z.
Proof.
  unfold range. rewrite in_map_iff. intros (j & <- & Hj).
  apply in_seq in Hj. lia.
Qed.

Lemma range_length (n : Z) : length (range n) = Z.to_nat n.
Proof. unfold range. now rewrite length_map, length_seq. Qed.

Lemma collect_indices_all (fpp frameoffset Nframes : Z) (pis : list Z) :
  (forall i, In i pis -> (i * fpp + frameoffset <= Nframes)%Z) ->
  collect_indices pis fpp frameoffset Nframes
  = map (fun i => (i * fpp + frameoffset)%Z) pis.
Proof.
  induction pis as [|i pis IH]; simpl; intros H; [reflexivity|].
  assert (Hi : (i * fpp + frameoffset <= Nframes)%Z) by (apply H; now left).
  destruct (Z.gtb_spec (i * fpp + frameoffset) Nframes); [lia|]. simpl.
  f_equal. apply IH. intros j Hj. apply H. now right.
Qed.

Lemma frames_per_portrait_nonneg (ex em : list float) (fpp : Z) :
  frames_per_portrait ex em = Ok fpp -> (0 <= fpp)%Z.
Proof.
  unfold frames_per_portrait. intros H. inv_bind H. inv_bind H.
  injection H as <-. lia.
Qed.

(** C3 (as amended).  Let the frame count be [k*fpp + r], [fpp] being the
    product of the numbers of unique rounded excitation and emission angles.
    If [r = 0] and there is at least one frame, [find_portraits] without
    frame offset yields exactly [k] portraits, which start at 0, [fpp], ...;
    if [0 < r < fpp] its divisibility check fails with an assertion error,
    whatever the frame offset. *)
Theorem find_portraits_whole_or_assertion
    (exangles emangles : list float) (fpp k r : Z) :
  frames_per_portrait exangles emangles = Ok fpp ->
  Z.of_nat (length exangles) = (k * fpp + r)%Z ->
  (r = 0%Z -> exangles <> [] ->
   find_portraits exangles emangles 0
   = Ok (mkPortraits k (map (fun i => (i * fpp + 0)%Z) (range (k + 1)))))
  /\ ((0 < r < fpp)%Z ->
      forall frameoffset,
        find_portraits exangles emangles frameoffset = Raise AssertionError).
Proof.
  intros Hf Hn. pose proof (frames_per_portrait_nonneg _ _ _ Hf) as Hpos.
  unfold find_portraits. rewrite Hf. cbn [bind]. split.
  - intros -> Hne.
    assert (Hlen : (0 < Z.of_nat (length exangles))%Z)
      by (destruct exangles; [congruence | simpl; lia]).
    assert (Hfpp : (0 < fpp)%Z).
    { destruct (Z.eq_dec fpp 0) as [E|E]; [|lia].
      rewrite E, Z.mul_0_r in Hn. lia. }
    assert (Hk : (0 < k)%Z).
    { rewrite Z.add_0_r in Hn. rewrite Hn in Hlen.
      destruct (Z.lt_total 0 k) as [?|[<-|?]]; [assumption|lia|nia]. }
    unfold int_div. destruct (Z.eqb_spec fpp 0); [lia|]. cbn [bind].
    rewrite Hn, Z.add_0_r, Z.mod_mul by lia. cbn [assert bind Z.eqb].
    rewrite Z.div_mul by lia.
    rewrite collect_indices_all.
    + rewrite length_map, range_length.
      replace (Z.of_nat (Z.to_nat (k + 1)) - 1)%Z with k by lia.
      destruct (Z.gtb_spec k 0); [|lia]. reflexivity.
    + intros i Hi. apply range_in in Hi. nia.
  - intros Hr frameoffset.
    unfold int_div. destruct (Z.eqb_spec fpp 0); [lia|]. cbn [bind].
    replace (Z.of_nat (length exangles) mod fpp)%Z with r.
    + destruct (Z.eqb_spec r 0); [lia|]. reflexivity.
    + rewrite Hn. rewrite Z.add_comm, Z.mod_add by lia.
      symmetry. apply Z.mod_small. lia.
Qed.

Lemma find_portraits_whole_or_assertion_witness :
  (0%Z = 0%Z -> firstn 8 PortraitSamples.exangles <> [] ->
   find_portraits (firstn 8 PortraitSamples.exangles)
     (firstn 8 PortraitSamples.emangles) 0
   = Ok (mkPortraits 2 (map (fun i => (i * 4 + 0)%Z) (range (2 + 1)))))
  /\ ((0 < 0 < 4)%Z ->
      forall frameoffset,
        find_portraits (firstn 8 PortraitSamples.exangles)
          (firstn 8 PortraitSamples.emangles) frameoffset
        = Raise AssertionError).
Proof.
  apply (@find_portraits_whole_or_assertion
           (firstn 8 PortraitSamples.exangles)
           (firstn 8 PortraitSamples.emangles) 4 2 0).
  - vm_compute. reflexivity.
  - reflexivity.
Defined.

(** C3, counterexample.  Eleven frames with four frames per portrait are two
    portraits and a remainder of three frames: [find_portraits] raises the
    assertion error instead of yielding two portraits, and [startstop] yields
    three rows, the last one for the three frames of the remainder. *)
Lemma portrait_remainder_not_dropped :
  frames_per_portrait PortraitSamples.exangles PortraitSamples.emangles = Ok 4%Z
  /\ Z.of_nat (length PortraitSamples.exangles) = (2 * 4 + 3)%Z
  /\ find_portraits PortraitSamples.exangles PortraitSamples.emangles 0
     = Raise AssertionError
  /\ startstop PortraitSamples.emangles
     = Ok [(0, 3); (4, 7); (8, 10)]%Z.
Proof. repeat split; vm_compute; reflexivity. Qed.

(** ** The anisotropy *)

Lemma py_float_div_guarded (x y : float) :
  F64.eqb y zero = false -> py_float_div x y = Ok (F64.div x y).
Proof. unfold py_float_div. intros ->. reflexivity. Qed.

(** When the guarded quotient returns, it returns what the specification
    says. *)
Lemma anisotropy_of_spec (Ipara Iperp v : float) :
  anisotropy_of Ipara Iperp = Ok v -> v = spec_anisotropy Ipara Iperp.
Proof.
  unfold anisotropy_of, spec_anisotropy. intros H.
  inv_bind H. apply Np_mul_ok in Hx. subst x.
  inv_bind H. apply Np_add_ok in Hx. subst x.
  destruct (F64.eqb (F64.add Ipara (F64.mul (of_Z 2) Iperp)) zero) eqn:E;
    cbn [negb] in H.
  - congruence.
  - inv_bind H. apply Np_sub_ok in Hx. subst x.
    rewrite py_float_div_guarded in H by assumption. congruence.
Qed.



(** ** The stages of the modulation analysis *)

Section ModulationFacts.

Variable np_cos : float -> result float.
Variable recover : Spot -> result (list (list float)).
Variable marginal_fits : list Spot -> list nat -> result (list (fitcol * fitcol)).
Variable vertical_fit : list Spot -> list nat -> list float -> result (list fitcol).

Lemma modulation_spot_shifted (fits : list (fitcol * fitcol)) (LS : list float) :
  line_shifts fits = Ok LS ->
  forall c s s', In c (combine fits LS) -> modulation_spot c s = Ok s' ->
                 shifted fits s'.
Proof.
  intros HLS [[ex em] ls] s s' Hin H. simpl in H. injection H as <-.
  pose proof (mapM_combine _ _ _ HLS _ _ Hin) as Hl. simpl in Hl.
  unfold line_shift in Hl. inv_bind Hl.
  exists ex, em, x, ls. simpl. repeat split; auto.
  eapply in_combine_l; eauto.
Qed.

Lemma anisotropy_spot_keeps_shift (fits : list (fitcol * fitcol))
    (c : fitcol) (s s' : Spot) :
  anisotropy_spot np_cos c s = Ok s' -> shifted fits s -> shifted fits s'.
Proof.
  unfold anisotropy_spot. intros H. inv_bind H. inv_bind H. destruct x0.
  inv_bind H. injection H as <-. exact (fun P => P).
Qed.

Lemma anisotropy_n_spot_keeps_shift (fits : list (fitcol * fitcol))
    (c : fitcol) (s s' : Spot) :
  anisotropy_n_spot np_cos c s = Ok s' -> shifted fits s -> shifted fits s'.
Proof.
  unfold anisotropy_n_spot. intros H. inv_bind H. destruct x.
  inv_bind H. injection H as <-. exact (fun P => P).
Qed.

Lemma anisotropy_spot_post (cols : list fitcol) (c : fitcol) (s s' : Spot) :
  In c cols ->
  anisotropy_spot np_cos c s = Ok s' -> has_anisotropy np_cos cols s'.
Proof.
  unfold anisotropy_spot. intros Hc H. inv_bind H. inv_bind H.
  destruct x0 as [Ipara Iperp]. inv_bind H. injection H as <-.
  exists x, c, Ipara, Iperp. simpl. repeat split; try assumption.
  - unfold attr, of_option in Hx. destruct (phase_ex s); congruence.
  - f_equal. now apply anisotropy_of_spec.
Qed.

Lemma anisotropy_n_spot_keeps (cols : list fitcol) (c : fitcol) (s s' : Spot) :
  anisotropy_n_spot np_cos c s = Ok s' ->
  has_anisotropy np_cos cols s -> has_anisotropy np_cos cols s'.
Proof.
  unfold anisotropy_n_spot. intros H. inv_bind H. destruct x.
  inv_bind H. injection H as <-. exact (fun P => P).
Qed.

Lemma anisotropy_n_spot_post (cols : list fitcol) (c : fitcol) (s s' : Spot) :
  In c cols ->
  anisotropy_n_spot np_cos c s = Ok s' -> has_anisotropy_n np_cos cols s'.
Proof.
  unfold anisotropy_n_spot. intros Hc H. inv_bind H.
  destruct x as [Ipara Iperp]. inv_bind H. injection H as <-.
  exists c, Ipara, Iperp. simpl. repeat split; try assumption.
  f_equal. now apply anisotropy_of_spec.
Qed.

(** Every spot the stage went through carries, when the stage returns, the
    line shift of the two fitted phases of one pair of marginal fits, and
    the two anisotropies of columns of the two vertical fits. *)
Lemma modulation_stage_post (myspots : list nat) (vs vs' : list Spot) (si : nat) :
  find_modulation_depths_and_phases_selective np_cos recover marginal_fits
    vertical_fit myspots vs = Ok vs' ->
  In si myspots ->
  exists vs1 fits vs2 phases cols vs3 cols_n,
    marginal_fits vs1 myspots = Ok fits
    /\ vertical_fit vs2 myspots phases = Ok cols
    /\ vertical_fit vs3 myspots (map (fun _ => ex_par_rad) myspots) = Ok cols_n
    /\ exists s', nth_error vs' si = Some s'
                  /\ shifted fits s' /\ has_anisotropy np_cos cols s'
                  /\ has_anisotropy_n np_cos cols_n s'.
Proof.
  unfold find_modulation_depths_and_phases_selective. intros H Hin.
  inv_bind H. rename x into vs1. clear Hx.
  inv_bind H. rename x into fits.
  inv_bind H. rename x into LS.
  inv_bind H. rename x into vs2. rename Hx1 into L2.
  inv_bind H. rename x into phases. clear Hx1.
  inv_bind H. rename x into cols.
  inv_bind H. rename x into vs3. rename Hx2 into L3.
  inv_bind H. rename x into cols_n.
  inv_bind H. rename x into vs4. rename Hx3 into L4.
  inv_bind H. injection H as <-.
  exists vs1, fits, vs2, phases, cols, vs3, cols_n.
  repeat (split; [assumption|]).
  destruct (@for_spots_post _ _ (shifted fits) myspots _ vs1 vs2 si
              (modulation_spot_shifted _ _ Hx0) L2 Hin) as (s2 & Hs2 & P2).
  destruct (@for_spots_preserves _ _ (shifted fits) myspots _ vs2 vs3 si s2
              (anisotropy_spot_keeps_shift fits) L3 Hs2 P2)
    as (s3 & Hs3 & P3).
  destruct (@for_spots_post _ _ (has_anisotropy np_cos cols) myspots _ vs2
              vs3 si (fun c s s' Hc => anisotropy_spot_post cols c s s' Hc)
              L3 Hin)
    as (s3' & Hs3' & A3).
  assert (s3' = s3) by congruence. subst s3'.
  destruct (@for_spots_preserves _ (anisotropy_n_spot np_cos)
              (fun s => shifted fits s /\ has_anisotropy np_cos cols s)
              myspots cols_n vs3 vs4 si s3) as (s4 & Hs4 & P4 & A4); auto.
  { intros c s s' Hb [? ?]. split.
    - eapply anisotropy_n_spot_keeps_shift; eauto.
    - eapply anisotropy_n_spot_keeps; eauto. }
  destruct (@for_spots_post _ _ (has_anisotropy_n np_cos cols_n) myspots _
              vs3 vs4 si
              (fun c s s' Hc => anisotropy_n_spot_post cols_n c s s' Hc)
              L4 Hin)
    as (s4' & Hs4' & N4).
  assert (s4' = s4) by congruence. subst s4'.
  exists s4. auto.
Qed.

End ModulationFacts.



(** ** The line shift *)

Local Open Scope Z_scope.

Lemma representable_half_pi : representable half_pi.
Proof. split; reflexivity. Qed.

Lemma representable_minus_half_pi : representable minus_half_pi.
Proof. split; reflexivity. Qed.

(** What the comparisons with pi/2 and 3*pi/2 say of a positive number. *)
Lemma above_half_pi (x : float) :
  valid_binary prec emax x = true -> F64.ltb half_pi x = true ->
  x = S754_infinity false
  \/ exists m e, x = S754_finite false m e
                 /\ 2 ^ 52 <= Zpos m < 2 ^ 53
                 /\ canonical_mantissa prec emax m e = true
                 /\ (-52 < e \/ (e = -52 /\ 7074237752028440 < Zpos m)).
Proof.
  intros V H.
  destruct x as [s|s| |s m e];
    [discriminate H | | discriminate H | ].
  - destruct s; [discriminate H | now left].
  - destruct s; [discriminate H|]. right. exists m, e.
    cbn [valid_binary] in V. unfold bounded in V.
    apply andb_prop in V. destruct V as [C _].
    destruct (canonical_bounds m e C) as (L & U & N).
    unfold F64.ltb, SFltb, half_pi in H. cbn [SFcompare] in H.
    destruct (Z.compare_spec (-52) e) as [E|E|E]; [| |discriminate H].
    + subst e. specialize (N ltac:(lia)). split; [reflexivity|].
      split; [split; assumption|]. split; [assumption|].
      right. split; [reflexivity|].
      destruct (Pos.compare_cont Eq 7074237752028440 m) eqn:Ec;
        try discriminate H.
      now apply compare_cont_lt in Ec.
    + specialize (N ltac:(lia)). split; [reflexivity|].
      split; [split; assumption|]. split; [assumption|]. now left.
Qed.

Lemma upto_three_half_pi (m : positive) (e : Z) :
  F64.leb (S754_finite false m e) three_half_pi = true ->
  e < -50 \/ (e = -50 /\ Zpos m <= 5305678314021330).
Proof.
  unfold F64.leb, SFleb. change three_half_pi
    with (S754_finite false 5305678314021330 (-50)). cbn [SFcompare].
  destruct (Z.compare_spec e (-50)) as [E|E|E]; intros H.
  - right. split; [assumption|].
    destruct (Pos.compare_cont Eq m 5305678314021330) eqn:Ec;
      try discriminate H.
    + apply compare_cont_eq in Ec. lia.
    + apply compare_cont_lt in Ec. lia.
  - now left.
  - discriminate H.
Qed.

Lemma scaled_minus_half_pi (k : Z) :
  scaled k minus_half_pi = - scaled k half_pi.
Proof. reflexivity. Qed.

(** A number whose integer lies between those of -pi/2 and pi/2 lies
    between -pi/2 and pi/2. *)
Lemma between_half_pis (r : float) (k D : Z) :
  representable r -> exponent_ge k r -> k <= -52 ->
  scaled k r = D ->
  - scaled k half_pi <= D <= scaled k half_pi ->
  F64.leb minus_half_pi r = true /\ F64.leb r half_pi = true.
Proof.
  intros R K Hk HD HB.
  rewrite (leb_scaled k minus_half_pi r representable_minus_half_pi R Hk K).
  rewrite (leb_scaled k r half_pi R representable_half_pi K Hk).
  rewrite scaled_minus_half_pi, HD. split; apply Z.leb_le; lia.
Qed.

(** The powers of two met in a hypothesis or in the goal, computed. *)
Ltac compute_pow2 :=
  repeat match goal with
    | H : context [2 ^ ?a] |- _ =>
        let v := eval vm_compute in (2 ^ a) in change (2 ^ a) with v in H
    | |- context [2 ^ ?a] =>
        let v := eval vm_compute in (2 ^ a) in change (2 ^ a) with v
    end.

(** The goal is about a sum or a difference with pi that fits in 53 bits on
    the exponent [ez]: it is replaced by its integer in units of [2^k],
    [k = ez - 53], and compared with those of -pi/2 and pi/2. *)
Ltac between_by_integer ez k :=
  match goal with
  | |- context [binary_normalize prec emax ?d ez false] =>
      let D := fresh "D" in
      let HD := fresh "HD" in
      let R := fresh "R" in
      let K := fresh "K" in
      let S := fresh "S" in
      let r := fresh "r" in
      remember d as D eqn:HD;
      cbn [scaled cond_Zopp] in HD; compute_pow2;
      destruct (binary_normalize_exact D ez) as (R & K & S);
      [lia | lia | lia |];
      specialize (S k ltac:(lia));
      change (ez - 53) with k in K;
      revert R K S; generalize (binary_normalize prec emax D ez false);
      intros r R K S;
      apply (between_half_pis r k _ R K ltac:(lia) S);
      change (scaled k half_pi)
        with (7074237752028440 * 2 ^ (-52 - k));
      compute_pow2; lia
  end.

(** Subtracting pi from a number above pi/2 and up to 3*pi/2 is exact, and
    the difference lies between -pi/2 and pi/2; so is adding pi to the
    opposite number. *)
Lemma shift_by_pi_range (s : bool) (m : positive) (e : Z) :
  2 ^ 52 <= Zpos m < 2 ^ 53 ->
  (e = -52 /\ 7074237752028440 < Zpos m)
  \/ e = -51
  \/ (e = -50 /\ Zpos m <= 5305678314021330) ->
  let r := if s then F64.add (S754_finite true m e) pi
           else F64.sub (S754_finite false m e) pi in
  F64.leb minus_half_pi r = true /\ F64.leb r half_pi = true.
Proof.
  intros Hm Hcases. compute_pow2.
  destruct s; cbv zeta; unfold pi; [rewrite add_finite | rewrite sub_finite];
    destruct Hcases as [[-> Hc]|[->|[-> Hc]]];
    match goal with
    | |- context [Z.min ?a ?b] =>
        let v := eval vm_compute in (Z.min a b) in change (Z.min a b) with v
    end.
  - between_by_integer (-52) (-105).
  - between_by_integer (-51) (-104).
  - between_by_integer (-51) (-104).
  - between_by_integer (-52) (-105).
  - between_by_integer (-51) (-104).
  - between_by_integer (-51) (-104).
Qed.

Lemma sub_pi_range (x : float) :
  valid_binary prec emax x = true ->
  F64.ltb half_pi x = true -> F64.leb x three_half_pi = true ->
  F64.leb minus_half_pi (F64.sub x pi) = true
  /\ F64.leb (F64.sub x pi) half_pi = true.
Proof.
  intros V Hlo Hhi.
  destruct (above_half_pi x V Hlo) as [->|(m & e & -> & Hm & C & He)];
    [discriminate Hhi|].
  apply upto_three_half_pi in Hhi.
  apply (shift_by_pi_range false m e Hm). lia.
Qed.

Lemma below_minus_half_pi (x : float) :
  valid_binary prec emax x = true -> F64.ltb x minus_half_pi = true ->
  x = S754_infinity true
  \/ exists m e, x = S754_finite true m e
                 /\ 2 ^ 52 <= Zpos m < 2 ^ 53
                 /\ (-52 < e \/ (e = -52 /\ 7074237752028440 < Zpos m)).
Proof.
  intros V H.
  destruct x as [s|s| |s m e];
    [destruct s; discriminate H | | discriminate H | ].
  - destruct s; [now left | discriminate H].
  - destruct s; [|discriminate H]. right. exists m, e.
    cbn [valid_binary] in V. unfold bounded in V.
    apply andb_prop in V. destruct V as [C _].
    destruct (canonical_bounds m e C) as (L & U & N).
    unfold F64.ltb, SFltb in H.
    change minus_half_pi with (S754_finite true 7074237752028440 (-52)) in H.
    cbn [SFcompare] in H.
    destruct (Z.compare_spec e (-52)) as [E|E|E]; [|discriminate H|].
    + subst e. specialize (N ltac:(lia)). split; [reflexivity|].
      split; [split; assumption|].
      right. split; [reflexivity|].
      destruct (Pos.compare_cont Eq m 7074237752028440) eqn:Ec;
        try discriminate H.
      now apply compare_cont_gt in Ec.
    + specialize (N ltac:(lia)). split; [reflexivity|].
      split; [split; assumption|]. now left.
Qed.

Lemma from_minus_three_half_pi (m : positive) (e : Z) :
  F64.leb (F64.opp three_half_pi) (S754_finite true m e) = true ->
  e < -50 \/ (e = -50 /\ Zpos m <= 5305678314021330).
Proof.
  unfold F64.leb, SFleb. change (F64.opp three_half_pi)
    with (S754_finite true 5305678314021330 (-50)). cbn [SFcompare].
  destruct (Z.compare_spec (-50) e) as [E|E|E]; intros H.
  - right. split; [lia|].
    destruct (Pos.compare_cont Eq 5305678314021330 m) eqn:Ec;
      try discriminate H.
    + apply compare_cont_eq in Ec. lia.
    + apply compare_cont_gt in Ec. lia.
  - discriminate H.
  - now left.
Qed.

Lemma add_pi_range (x : float) :
  valid_binary prec emax x = true ->
  F64.ltb x minus_half_pi = true ->
  F64.leb (F64.opp three_half_pi) x = true ->
  F64.leb minus_half_pi (F64.add x pi) = true
  /\ F64.leb (F64.add x pi) half_pi = true.
Proof.
  intros V Hhi Hlo.
  destruct (below_minus_half_pi x V Hhi) as [->|(m & e & -> & Hm & He)];
    [discriminate Hlo|].
  apply from_minus_three_half_pi in Hlo.
  apply (shift_by_pi_range true m e Hm). lia.
Qed.

Lemma nonneg_not_below (r : float) :
  has_sign false r -> F64.ltb r minus_half_pi = false.
Proof.
  destruct r as [s|s| |s m e]; simpl; intros H; try contradiction;
    subst; reflexivity.
Qed.

(** A number above pi/2 is not below -pi/2 once pi is subtracted: the
    second update of the line shift never undoes the first. *)
Lemma sub_pi_not_below (x : float) :
  valid_binary prec emax x = true -> F64.ltb half_pi x = true ->
  F64.ltb (F64.sub x pi) minus_half_pi = false.
Proof.
  intros V Hlo.
  destruct (above_half_pi x V Hlo) as [->|(m & e & -> & Hm & C & He)];
    [reflexivity|].
  destruct (Z.lt_ge_cases e (-50)) as [Hlt|Hge].
  - apply leb_not_ltb.
    apply (shift_by_pi_range false m e Hm). lia.
  - apply nonneg_not_below. unfold pi. rewrite sub_finite.
    replace (Z.min e (-51)) with (-51) by lia.
    cbn [scaled cond_Zopp]. change (2 ^ (-51 - -51)) with 1.
    assert (H2 : 2 <= 2 ^ (e - -51)).
    { change 2 with (2 ^ 1) at 1. apply Z.pow_le_mono_r; lia. }
    change (2 ^ 52) with 4503599627370496 in Hm.
    change (2 ^ 53) with 9007199254740992 in Hm.
    assert (H3 : 0 < Zpos m * 2 ^ (e - -51) - 7074237752028440 * 1) by nia.
    destruct (Zpos m * 2 ^ (e - -51) - 7074237752028440 * 1) as [|p|p];
      try lia.
    cbn [binary_normalize]. apply binary_round_sign.
Qed.

Lemma not_above_when_below (x : float) :
  F64.ltb x minus_half_pi = true -> F64.gtb x half_pi = false.
Proof.
  destruct x as [s|s| |s m e]; [| | discriminate |]; destruct s;
    first [reflexivity | discriminate].
Qed.

(** The line shift of a difference: at most one correction by pi, and a
    result between -pi/2 and pi/2 for a difference between -3*pi/2 and
    3*pi/2. *)
Lemma wrap_LS_spec (raw ls : float) :
  valid_binary prec emax raw = true ->
  wrap_LS raw = Ok ls ->
  (F64.gtb raw half_pi = true -> ls = F64.sub raw pi)
  /\ (F64.ltb raw minus_half_pi = true -> ls = F64.add raw pi)
  /\ (F64.gtb raw half_pi = false -> F64.ltb raw minus_half_pi = false ->
      ls = raw)
  /\ (F64.leb (F64.opp three_half_pi) raw = true ->
      F64.leb raw three_half_pi = true ->
      F64.leb minus_half_pi ls = true /\ F64.leb ls half_pi = true).
Proof.
  intros V H. unfold wrap_LS in H.
  destruct (F64.gtb raw half_pi) eqn:Hgt.
  - (* pi is subtracted, and nothing is added back *)
    inv_bind H. apply Np_sub_ok in Hx. subst x.
    rewrite (sub_pi_not_below raw V Hgt) in H. injection H as <-.
    split; [reflexivity|]. split; [|split].
    + intros Hlt. apply not_above_when_below in Hlt. congruence.
    + discriminate.
    + intros _ Hhi. apply (sub_pi_range raw V Hgt Hhi).
  - cbn [bind] in H. destruct (F64.ltb raw minus_half_pi) eqn:Hlt.
    + apply Np_add_ok in H. subst ls.
      split; [discriminate|]. split; [reflexivity|]. split; [discriminate|].
      intros Hlo _. apply (add_pi_range raw V Hlt Hlo).
    + injection H as <-.
      split; [discriminate|]. split; [discriminate|]. split; [reflexivity|].
      intros Hlo Hhi.
      assert (Hn : isnan raw = false) by (destruct raw; [reflexivity..|discriminate|reflexivity]).
      split; apply ltb_false_leb; auto.
Qed.

Local Close Scope Z_scope.

(** C7 (as amended).  For every spot the modulation stage goes through, the
    stored phases are those of one pair of marginal fits, and the stored
    line shift is made from their difference [phase_ex - phase_em] by at
    most one correction: pi is subtracted from a difference above pi/2, pi is
    added to a difference below -pi/2, and any other difference, -pi/2
    included, is stored as it is.  For a difference between -3*pi/2 and
    3*pi/2 the stored line shift lies in the closed interval from -pi/2 to
    pi/2. *)
Theorem line_shift_one_correction
    (np_cos : float -> result float)
    (recover : Spot -> result (list (list float)))
    (marginal_fits : list Spot -> list nat -> result (list (fitcol * fitcol)))
    (vertical_fit : list Spot -> list nat -> list float -> result (list fitcol))
    (myspots : list nat) (vs vs' : list Spot) (si : nat) :
  find_modulation_depths_and_phases_selective np_cos recover marginal_fits
    vertical_fit myspots vs = Ok vs' ->
  In si myspots ->
  exists vs1 fits s' ex em ls,
    marginal_fits vs1 myspots = Ok fits
    /\ In (ex, em) fits
    /\ nth_error vs' si = Some s'
    /\ phase_ex s' = Some (fit_phase ex) /\ phase_em s' = Some (fit_phase em)
    /\ LS s' = Some ls
    /\ let raw := F64.sub (fit_phase ex) (fit_phase em) in
       valid_binary prec emax raw = true ->
       (F64.gtb raw half_pi = true -> ls = F64.sub raw pi)
       /\ (F64.ltb raw minus_half_pi = true -> ls = F64.add raw pi)
       /\ (F64.gtb raw half_pi = false -> F64.ltb raw minus_half_pi = false ->
           ls = raw)
       /\ (F64.leb (F64.opp three_half_pi) raw = true ->
           F64.leb raw three_half_pi = true ->
           F64.leb minus_half_pi ls = true /\ F64.leb ls half_pi = true).
Proof.
  intros H Hin.
  destruct (modulation_stage_post _ _ _ _ _ _ _ _ H Hin)
    as (vs1 & fits & vs2 & phases & cols & vs3 & cols_n & Hf & _ & _
        & s' & Hs' & (ex & em & raw & ls & Hfit & Hex & Hem & Hraw & Hw & Hls)
        & _).
  exists vs1, fits, s', ex, em, ls. repeat (split; [assumption|]).
  apply Np_sub_ok in Hraw. subst raw. cbv zeta. intros V.
  now apply wrap_LS_spec.
Qed.

Lemma line_shift_one_correction_witness :
  exists vs',
    find_modulation_depths_and_phases_selective StageSamples.np_cos
      StageSamples.recover StageSamples.marginal_fits_quarter
      StageSamples.vertical_fit [0] [Samples.fresh_spot [] false (Scalar one)]
    = Ok vs'
    /\ exists vs1 fits s' ex em ls,
         StageSamples.marginal_fits_quarter vs1 [0] = Ok fits
         /\ In (ex, em) fits
         /\ nth_error vs' 0 = Some s'
         /\ phase_ex s' = Some (fit_phase ex)
         /\ phase_em s' = Some (fit_phase em)
         /\ LS s' = Some ls
         /\ let raw := F64.sub (fit_phase ex) (fit_phase em) in
            valid_binary prec emax raw = true ->
            (F64.gtb raw half_pi = true -> ls = F64.sub raw pi)
            /\ (F64.ltb raw minus_half_pi = true -> ls = F64.add raw pi)
            /\ (F64.gtb raw half_pi = false ->
                F64.ltb raw minus_half_pi = false -> ls = raw)
            /\ (F64.leb (F64.opp three_half_pi) raw = true ->
                F64.leb raw three_half_pi = true ->
                F64.leb minus_half_pi ls = true /\ F64.leb ls half_pi = true).
Proof.
  eexists. split; [vm_compute; reflexivity|].
  eapply (@line_shift_one_correction StageSamples.np_cos
            StageSamples.recover StageSamples.marginal_fits_quarter
            StageSamples.vertical_fit [0]
            [Samples.fresh_spot [] false (Scalar one)] _ 0).
  - vm_compute. reflexivity.
  - simpl. auto.
Defined.

(** C7, counterexample.  With the fitted phases -pi/2 in excitation and 0
    in emission the difference is -pi/2, which is not below -pi/2: it is
    stored as it is, and the stored line shift is not above -pi/2. *)
Lemma line_shift_reaches_minus_half_pi :
  exists vs' s' ls,
    find_modulation_depths_and_phases_selective StageSamples.np_cos
      StageSamples.recover StageSamples.marginal_fits_quarter
      StageSamples.vertical_fit [0] [Samples.fresh_spot [] false (Scalar one)]
    = Ok vs'
    /\ nth_error vs' 0 = Some s'
    /\ phase_ex s' = Some minus_half_pi /\ phase_em s' = Some zero
    /\ LS s' = Some ls
    /\ ls = minus_half_pi
    /\ ~ (F64.ltb minus_half_pi ls = true /\ F64.leb ls half_pi = true).
Proof.
  eexists. eexists. exists minus_half_pi.
  split; [vm_compute; reflexivity|].
  split; [reflexivity|].
  repeat split. intros [H _]. discriminate H.
Qed.

(** ** The clamp of the ruler *)

Lemma clamp_ruler_nan : clamp_ruler nan = nan.
Proof. reflexivity. Qed.






(** ** The FFT ruler *)

Lemma set_ET_ruler_twice (s : Spot) (u v : float) :
  set_ET_ruler (set_ET_ruler s u) v = set_ET_ruler s v.
Proof. reflexivity. Qed.

(** The last assignment of the loop body decides: whatever the two tests on
    the sums of the peaks found, the spot ends with the clamped raw ruler. *)
Lemma ETruler_spot_stores_clamped
    (model_peaks : float -> result peaks4) (p : peaks4) (s s' : Spot) :
  ETruler_spot model_peaks p s = Ok s' ->
  exists weird MYweird ruler,
    raw_ruler model_peaks p s = Ok (weird, MYweird, ruler)
    /\ s' = set_ET_ruler s (clamp_ruler ruler).
Proof.
  unfold ETruler_spot, raw_ruler. intros H.
  inv_bind H. rewrite Hx. cbn [bind].
  inv_bind H. rewrite Hx0. cbn [bind].
  assert (HM : attr M_ex (if x then set_ET_ruler s nan else s) = attr M_ex s)
    by (destruct x; reflexivity).
  rewrite HM in H. clear HM.
  repeat (let y := fresh "y" in
          let Hy := fresh "Hy" in
          apply bind_ok in H; destruct H as (y & Hy & H);
          rewrite Hy; cbn [bind]).
  injection H as <-.
  do 3 eexists. split; [reflexivity|].
  destruct x; match goal with |- context [if ?b then _ else _] => destruct b end;
    reflexivity.
Qed.




(** C2, the code at a failing input.  The four observed peaks sum to 1/2,
    so the first test assigns NaN to the ruler; the loop body goes on and
    its last statement assigns the clamped ruler 1/2 over it. *)
Theorem ET_ruler_weird_peaks_overwritten :
  peaks_are_weird Samples.half_peaks = Ok true
  /\ ETrulerFFT_selective (Samples.observed [Samples.half_peaks])
       Samples.model_peaks [0] [Samples.spot_with_M_ex (ratio 1 2)]
     = Ok [set_ET_ruler (Samples.spot_with_M_ex (ratio 1 2)) (ratio 1 2)]
  /\ isnan (ratio 1 2) = false.
Proof. repeat split; vm_compute; reflexivity. Qed.

(** ** The funnel model *)



Section ETmodelFacts.

Variable normalise_sam : list (list float) -> result (list float).
Variable the_new_way : float -> float -> list float -> result funnel_fit.
Variable SFA_full_func :
  float * float * float * float -> float -> float -> result (list float).



End ETmodelFacts.



(** ** The multi-process driver *)

Import WorkDistributor.

Lemma stage_order_violated (fits mods ETruler ETmodel : bool) :
  stage_order fits mods ETruler ETmodel = false <->
  (mods = true /\ fits = false) \/ (ETruler = true /\ mods = false)
  \/ (ETmodel = true /\ ETruler = false).
Proof.
  destruct fits, mods, ETruler, ETmodel; vm_compute; intuition congruence.
Qed.

Lemma start_jobs_length (myspots : list (list nat)) :
  forall i, length (start_jobs i myspots) = length myspots.
Proof. induction myspots; simpl; intros; auto. Qed.

(** When the order holds, one process per block is started. *)
Lemma run_mp_starts_workers
    (drain : list (list nat) -> bool -> bool -> bool -> bool -> list Spot
             -> result (list Spot))
    (Nprocs : Z) (fits mods ETruler ETmodel : bool) (vs : list Spot)
    (myspots : list (list nat)) :
  stage_order fits mods ETruler ETmodel = true ->
  array_split (length vs) Nprocs = Ok myspots ->
  fst (run_mp drain Nprocs fits mods ETruler ETmodel vs) = start_jobs 0 myspots.
Proof. unfold run_mp. intros -> ->. reflexivity. Qed.

(** C9.  Whenever the flags violate [fits >= mods >= ETruler >= ETmodel],
    [run_mp] raises the assertion error and has started no process. *)
Theorem run_mp_checks_stage_order
    (drain : list (list nat) -> bool -> bool -> bool -> bool -> list Spot
             -> result (list Spot))
    (Nprocs : Z) (fits mods ETruler ETmodel : bool) (vs : list Spot) :
  stage_order fits mods ETruler ETmodel = false ->
  run_mp drain Nprocs fits mods ETruler ETmodel vs = ([], Raise AssertionError).
Proof. unfold run_mp. intros ->. reflexivity. Qed.

Lemma run_mp_checks_stage_order_witness :
  stage_order false true true false = false
  /\ run_mp (fun _ _ _ _ _ vs => Ok vs) 4 false true true false
       [Samples.spot_with_M_ex one; Samples.spot_with_M_ex one]
     = ([], Raise AssertionError).
Proof.
  split; [reflexivity|].
  apply (@run_mp_checks_stage_order (fun _ _ _ _ _ vs => Ok vs) 4
           false true true false).
  reflexivity.
Defined.

(** ** The signal-to-noise filter *)

Import Validity.

Lemma measure_unknown (s : Spot) :
  measure None s = Ok (all_inf (intensity s)).
Proof. reflexivity. Qed.

Lemma measure_zero_deviation (b : npval) (s : Spot) :
  any_zero b = true -> measure (Some b) s = Ok (all_inf (intensity s)).
Proof. unfold measure. intros ->. reflexivity. Qed.

Lemma count_above_all_inf (l : list float) (threshold : float) :
  F64.ltb threshold inf = true ->
  count_above (all_inf l) threshold = Z.of_nat (length l).
Proof.
  intros H. unfold count_above, all_inf. f_equal.
  induction l as [|x l IH]; [reflexivity|].
  cbn [map filter]. unfold F64.gtb at 1. rewrite H.
  cbn [length]. now rewrite IH.
Qed.

Lemma all_inf_length (l : list float) : length (all_inf l) = length l.
Proof. unfold all_inf. apply length_map. Qed.

Lemma sum_from_inf (l : list float) :
  Np.sum_from inf (all_inf l) = Ok inf.
Proof. induction l as [|x l IH]; simpl; auto. Qed.

Lemma of_Z_small (n : Z) :
  (0 < n < 2 ^ 53)%Z ->
  exists m e, of_Z n = S754_finite false m e.
Proof.
  intros H. destruct n as [|p|p]; try lia.
  unfold of_Z. cbn [binary_normalize].
  assert (Hd : (Zpos (digits2_pos p) <= 53)%Z).
  { pose proof (digits2_pos_bounds p) as [Hlo _].
    destruct (Z.le_gt_cases (Zpos (digits2_pos p)) 53) as [|Hgt]; [assumption|].
    exfalso. assert (2 ^ 53 <= 2 ^ (Zpos (digits2_pos p) - 1))%Z
      by (apply Z.pow_le_mono_r; lia). lia. }
  destruct (binary_round_exact false p 0 Hd ltac:(lia) ltac:(lia))
    as (m & e & -> & _).
  eauto.
Qed.

(** The mean of frames that are all at infinity is infinity. *)
Lemma mean_all_inf (l : list float) :
  l <> [] -> (Z.of_nat (length l) < 2 ^ 53)%Z ->
  Np.mean (all_inf l) = Ok inf.
Proof.
  intros Hne Hlen. destruct l as [|x l]; [congruence|].
  unfold Np.mean. cbn [all_inf map Np.sum]. fold (all_inf l).
  rewrite sum_from_inf. cbn [bind].
  change (length (inf :: all_inf l)) with (S (length (all_inf l))).
  rewrite all_inf_length.
  destruct (of_Z_small (Z.of_nat (S (length l)))) as (m & e & ->).
  - simpl length in Hlen. lia.
  - reflexivity.
Qed.

(** Without a sample background spot and without any spot that carries its
    own border background, every spot gets the ratio infinity on each of its
    frames, and is kept as soon as the threshold is a number and the
    valid-frames test holds for its number of frames. *)
Lemma loop_without_background (threshold validframesratio : float) :
  F64.ltb threshold inf = true ->
  forall (todo : list Spot) (si : nat),
    (forall s, In s todo ->
       use_borderbg s = false /\ intensity s <> []
       /\ (Z.of_nat (length (intensity s)) < 2 ^ 53)%Z
       /\ enough_frames (Z.of_nat (length (intensity s))) validframesratio
            (all_inf (intensity s)) = true) ->
    exists o,
      loop threshold validframesratio None si todo = Ok o
      /\ validspotindices o = seq si (length todo)
      /\ validspots o = spots o
      /\ map SNR (spots o)
         = map (fun s => Some (all_inf (intensity s))) todo.
Proof.
  intros Hthr. induction todo as [|s todo IH]; intros si Hall.
  - exists (mkOutcome [] [] []). repeat split.
  - destruct (Hall s (or_introl eq_refl)) as (Hb & Hne & Hlen & Hen).
    destruct (IH (S si)) as (o & Ho & Hi & Hv & Hs).
    { intros s' Hs'. apply Hall. now right. }
    cbn [loop]. rewrite Hb. rewrite measure_unknown. cbn [bind].
    rewrite (mean_all_inf _ Hne Hlen). cbn [bind]. rewrite Ho. cbn [bind].
    rewrite (count_above_all_inf _ _ Hthr), Hen.
    eexists. split; [reflexivity|]. cbn [validspotindices validspots spots].
    repeat split.
    + simpl. now rewrite Hi.
    + now rewrite Hv.
    + simpl. now rewrite Hs.
Qed.

(** C10, the code at a failing input.  No sample background spot is
    defined.  The dim spot carries no border background, so its background
    is unknown; but it comes after a spot that carries one, the deviation of
    that spot is still in force, and the dim spot gets finite ratios and is
    dropped.  When it comes first it gets the ratio infinity and is kept. *)
Theorem border_background_stays_in_force :
  (exists o,
     are_spots_valid None
       [ValiditySamples.bright_own_bg; ValiditySamples.dim_no_bg]
       default_SNR default_validframesratio = Ok o
     /\ map SNR (spots o) = [Some [of_Z 100; of_Z 100]; Some [one; one]]
     /\ validspotindices o = [0])
  /\ (exists o,
        are_spots_valid None
          [ValiditySamples.dim_no_bg; ValiditySamples.bright_own_bg]
          default_SNR default_validframesratio = Ok o
        /\ map SNR (spots o) = [Some [inf; inf]; Some [of_Z 100; of_Z 100]]
        /\ validspotindices o = [0; 1]).
Proof.
  split; eexists; (split; [vm_compute; reflexivity|]); split; reflexivity.
Qed.

(** ** The blocks of spots handed to the workers *)

Lemma blocks_concat (sizes : list nat) :
  forall start, concat (blocks start sizes) = seq start (list_sum sizes).
Proof.
  induction sizes as [|k sizes IH]; intros start; simpl.
  - reflexivity.
  - rewrite IH. symmetry. apply seq_app.
Qed.

Lemma blocks_length (sizes : list nat) :
  forall start, length (blocks start sizes) = length sizes.
Proof.
  induction sizes as [|k sizes IH]; intros start; simpl; [reflexivity|].
  now rewrite IH.
Qed.

Lemma blocks_sizes (sizes : list nat) :
  forall start b, In b (blocks start sizes) -> In (length b) sizes.
Proof.
  induction sizes as [|k sizes IH]; intros start b; simpl.
  - tauto.
  - intros [<-|Hin].
    + left. now rewrite length_seq.
    + right. eapply IH; eassumption.
Qed.

Lemma list_sum_repeat (a n : nat) : list_sum (repeat a n) = n * a.
Proof. induction n as [|n IH]; simpl; [reflexivity | now rewrite IH]. Qed.

Lemma array_split_spec (n : nat) (Nprocs : Z) :
  (0 < Nprocs)%Z ->
  exists myspots,
    array_split n Nprocs = Ok myspots
    /\ length myspots = Z.to_nat Nprocs
    /\ concat myspots = seq 0 n
    /\ forall b, In b myspots ->
       n / Z.to_nat Nprocs <= length b <= n / Z.to_nat Nprocs + 1.
Proof.
  intros Hpos. unfold array_split.
  destruct (Nprocs <=? 0)%Z eqn:Hle; [apply Z.leb_le in Hle; lia|].
  set (N := Z.to_nat Nprocs).
  assert (HN : N <> 0) by (unfold N; lia).
  assert (Hmod : n mod N < N) by (apply Nat.mod_upper_bound; assumption).
  eexists. split; [reflexivity|]. split; [|split].
  - rewrite blocks_length, length_app, !repeat_length. lia.
  - rewrite blocks_concat, list_sum_app, !list_sum_repeat.
    f_equal. pose proof (Nat.div_mod_eq n N) as E. nia.
  - intros b Hb. apply blocks_sizes in Hb. apply in_app_or in Hb.
    destruct Hb as [Hb|Hb]; apply repeat_spec in Hb; lia.
Qed.

(** X1.  When the stages are in order and at least one process is asked
    for, [run_mp] starts exactly [Nprocs] workers, numbered from 0, and
    hands every index of [validspots] to exactly one of them: the blocks of
    the workers, put end to end in the order of the workers, are the indices
    0, 1, ... in order, and two blocks differ by at most one index in
    length. *)
Theorem run_mp_splits_the_spots
    (drain_and_merge :
       list (list nat) -> bool -> bool -> bool -> bool -> list Spot
       -> result (list Spot))
    (Nprocs : Z) (fits mods ETruler ETmodel : bool) (vs : list Spot) :
  stage_order fits mods ETruler ETmodel = true ->
  (0 < Nprocs)%Z ->
  exists myspots,
    fst (run_mp drain_and_merge Nprocs fits mods ETruler ETmodel vs)
    = start_jobs 0 myspots
    /\ length myspots = Z.to_nat Nprocs
    /\ concat myspots = seq 0 (length vs)
    /\ forall b, In b myspots ->
       length vs / Z.to_nat Nprocs <= length b
       <= length vs / Z.to_nat Nprocs + 1.
Proof.
  intros Hord Hpos.
  destruct (array_split_spec (length vs) Nprocs Hpos)
    as (myspots & Hsplit & Hlen & Hcat & Hsize).
  exists myspots. unfold run_mp. rewrite Hord, Hsplit. simpl.
  repeat split; try assumption; now apply Hsize.
Qed.

Lemma run_mp_splits_the_spots_witness :
  exists myspots,
    fst (run_mp (fun _ _ _ _ _ vs => Ok vs) 2 true true true false
           [Samples.spot_with_M_ex one; Samples.spot_with_M_ex one;
            Samples.spot_with_M_ex one])
    = start_jobs 0 myspots
    /\ length myspots = 2
    /\ concat myspots = [0; 1; 2]
    /\ forall b, In b myspots -> 1 <= length b <= 2.
Proof.
  exact (run_mp_splits_the_spots (fun _ _ _ _ _ vs => Ok vs) 2 true true true
           false
           [Samples.spot_with_M_ex one; Samples.spot_with_M_ex one;
            Samples.spot_with_M_ex one] eq_refl eq_refl).
Defined.

(** ** What a stage leaves alone *)

Lemma update_spot_length (vs : list Spot) (si : nat) (s : Spot) :
  length (update_spot vs si s) = length vs.
Proof.
  revert si; induction vs as [|x vs IH]; intros [|si]; simpl; auto.
Qed.

Lemma for_spots_length {C : Type} (body : C -> Spot -> result Spot)
    (myspots : list nat) :
  forall (cols : list C) (vs vs' : list Spot),
    for_spots body cols myspots vs = Ok vs' -> length vs' = length vs.
Proof.
  induction myspots as [|si rest IH]; intros cols vs vs' H; simpl in H.
  - now injection H as <-.
  - destruct cols as [|c cols]; [discriminate|].
    inv_bind H. inv_bind H. apply IH in H.
    now rewrite update_spot_length in H.
Qed.

(** A loop over the spots of a block, whose body keeps a spot in relation
    with what it was: the list keeps its length, the spots outside the block
    are the same objects with the same attributes, and every spot is still
    in relation with what it was. *)
Lemma for_spots_frame {C : Type} (body : C -> Spot -> result Spot)
    (R : Spot -> Spot -> Prop) (myspots : list nat) (cols : list C)
    (vs vs' : list Spot) :
  (forall s, R s s) ->
  (forall c s0 s s', body c s = Ok s' -> R s0 s -> R s0 s') ->
  for_spots body cols myspots vs = Ok vs' ->
  length vs' = length vs
  /\ (forall sj, ~ In sj myspots -> nth_error vs' sj = nth_error vs sj)
  /\ (forall sj s, nth_error vs sj = Some s ->
      exists s', nth_error vs' sj = Some s' /\ R s s').
Proof.
  intros Hrefl Hbody H. split; [|split].
  - eapply for_spots_length; eassumption.
  - intros sj Hn. eapply for_spots_untouched; eassumption.
  - intros sj s Hs.
    eapply (for_spots_preserves body (R s)); try eassumption; auto.
    intros c t t'. apply Hbody.
Qed.

Lemma ETruler_spot_frame (model_peaks : float -> result peaks4) (p : peaks4)
    (s0 s s' : Spot) :
  ETruler_spot model_peaks p s = Ok s' ->
  same_but_ET_ruler s0 s -> same_but_ET_ruler s0 s'.
Proof.
  intros H. apply ETruler_spot_stores_clamped in H.
  destruct H as (w & w' & r & _ & ->).
  unfold same_but_ET_ruler. now rewrite set_ET_ruler_twice.
Qed.

(** X2.  When [ETrulerFFT_selective] returns, the list of valid spots has
    the length it had, the spots whose index is not in [myspots] have not
    changed, and a spot of [myspots] differs from what it was in its
    [ET_ruler] at most: no other attribute of any spot is assigned. *)
Theorem ETruler_touches_only_ET_ruler
    (observed_peaks : list Spot -> list nat -> result (list peaks4))
    (model_peaks : float -> result peaks4)
    (myspots : list nat) (vs vs' : list Spot) :
  ETrulerFFT_selective observed_peaks model_peaks myspots vs = Ok vs' ->
  length vs' = length vs
  /\ (forall sj, ~ In sj myspots -> nth_error vs' sj = nth_error vs sj)
  /\ (forall sj s, nth_error vs sj = Some s ->
      exists s', nth_error vs' sj = Some s' /\ same_but_ET_ruler s s').
Proof.
  unfold ETrulerFFT_selective. intros H. inv_bind H.
  eapply for_spots_frame; [| | exact H].
  - reflexivity.
  - intros c s0 s s'. apply ETruler_spot_frame.
Qed.

Lemma ETruler_touches_only_ET_ruler_witness :
  let vs := [Samples.spot_with_M_ex (ratio 1 2);
             Samples.spot_with_M_ex (ratio 1 4)] in
  exists vs',
    ETrulerFFT_selective (Samples.observed [Samples.unit_peaks])
      Samples.model_peaks [1] vs = Ok vs'
    /\ length vs' = length vs
    /\ (forall sj, ~ In sj [1] -> nth_error vs' sj = nth_error vs sj)
    /\ (forall sj s, nth_error vs sj = Some s ->
        exists s', nth_error vs' sj = Some s' /\ same_but_ET_ruler s s').
Proof.
  intros vs. eexists. split; [vm_compute; reflexivity|].
  apply (ETruler_touches_only_ET_ruler
           (Samples.observed [Samples.unit_peaks]) Samples.model_peaks [1] vs).
  vm_compute. reflexivity.
Defined.

Lemma ETmodel_spot_frame
    (normalise_sam : list (list float) -> result (list float))
    (the_new_way : float -> float -> list float -> result funnel_fit)
    (SFA_full_func :
       float * float * float * float -> float -> float -> result (list float))
    (s0 s s' : Spot) :
  ETmodel_spot normalise_sam the_new_way SFA_full_func s = Ok s' ->
  same_but_ETmodel s0 s -> same_but_ETmodel s0 s'.
Proof.
  unfold ETmodel_spot, same_but_ETmodel. intros H Hs.
  inv_bind H. inv_bind H. inv_bind H.
  destruct (negb (isnan (Np.clip x1 mex_lo mex_hi))).
  - unfold fit_funnel in H.
    inv_bind H. inv_bind H. inv_bind H. inv_bind H. inv_bind H.
    injection H as <-. exact Hs.
  - injection H as <-. exact Hs.
Qed.

(** X3.  When [ETmodel_selective] returns, the list of valid spots has the
    length it had, the spots whose index is not in [myspots] have not
    changed, and a spot of [myspots] differs from what it was in the five
    results of the funnel model at most. *)
Theorem ETmodel_touches_only_its_results
    (normalise_sam : list (list float) -> result (list float))
    (the_new_way : float -> float -> list float -> result funnel_fit)
    (SFA_full_func :
       float * float * float * float -> float -> float -> result (list float))
    (myspots : list nat) (vs vs' : list Spot) :
  ETmodel_selective normalise_sam the_new_way SFA_full_func myspots vs
  = Ok vs' ->
  length vs' = length vs
  /\ (forall sj, ~ In sj myspots -> nth_error vs' sj = nth_error vs sj)
  /\ (forall sj s, nth_error vs sj = Some s ->
      exists s', nth_error vs' sj = Some s' /\ same_but_ETmodel s s').
Proof.
  unfold ETmodel_selective, for_each_spot. intros H.
  eapply for_spots_frame; [| | exact H].
  - reflexivity.
  - intros c s0 s s'. apply ETmodel_spot_frame.
Qed.

Lemma ETmodel_touches_only_its_results_witness :
  let vs := [StageSamples.analysed_spot nan;
             StageSamples.analysed_spot (ratio 1 2)] in
  exists vs',
    ETmodel_selective StageSamples.normalise_sam StageSamples.the_new_way
      StageSamples.SFA_full_func [1] vs = Ok vs'
    /\ length vs' = length vs
    /\ (forall sj, ~ In sj [1] -> nth_error vs' sj = nth_error vs sj)
    /\ (forall sj s, nth_error vs sj = Some s ->
        exists s', nth_error vs' sj = Some s' /\ same_but_ETmodel s s').
Proof.
  intros vs. eexists. split; [vm_compute; reflexivity|].
  apply (ETmodel_touches_only_its_results StageSamples.normalise_sam
           StageSamples.the_new_way StageSamples.SFA_full_func [1] vs).
  vm_compute. reflexivity.
Defined.





(** X5.  On an empty list of spot indices, as a worker gets when there are
    more processes than valid spots,
    [find_modulation_depths_and_phases_selective] never returns: the call
    ends in an exception, which is the [IndexError] of its last statement
    [si=myspots[0]] unless one of the fits already raised on the empty
    batch. *)
Theorem modulation_of_no_spot_raises
    (np_cos : float -> result float)
    (recover : Spot -> result (list (list float)))
    (marginal_fits : list Spot -> list nat -> result (list (fitcol * fitcol)))
    (vertical_fit : list Spot -> list nat -> list float -> result (list fitcol))
    (vs : list Spot) :
  exists e,
    find_modulation_depths_and_phases_selective np_cos recover marginal_fits
      vertical_fit [] vs = Raise e
    /\ (e = IndexError
        \/ marginal_fits vs [] = Raise e
        \/ (exists fits,
              marginal_fits vs [] = Ok fits /\ line_shifts fits = Raise e)
        \/ vertical_fit vs [] [] = Raise e).
Proof.
  unfold find_modulation_depths_and_phases_selective, for_each_spot.
  cbn [for_spots map bind].
  destruct (marginal_fits vs []) as [fits|e] eqn:Hf; cbn [bind];
    [|exists e; auto].
  destruct (line_shifts fits) as [LS|e] eqn:HL; cbn [bind];
    [|exists e; split; [reflexivity|]; right; right; left; eauto].
  cbn [mapM bind].
  destruct (vertical_fit vs [] []) as [cols|e] eqn:Hv; cbn [bind];
    [|exists e; auto].
  exists IndexError. auto.
Qed.

(** ** The spots the signal-to-noise filter keeps *)

(** What one iteration of the loop of [are_spots_valid] assigns to a spot
    measured with the signal-to-noise ratios [snr]. *)
Lemma loop_spec (threshold validframesratio : float) (todo : list Spot) :
  forall (bgstd : option npval) (si : nat) (r : outcome),
    loop threshold validframesratio bgstd si todo = Ok r ->
    length (spots r) = length todo
    /\ length (validspots r) = length (validspotindices r)
    /\ (forall j i, nth_error (validspotindices r) j = Some i ->
        si <= i < si + length todo
        /\ nth_error (validspots r) j = nth_error (spots r) (i - si))
    /\ (forall j j' i i', j < j' ->
        nth_error (validspotindices r) j = Some i ->
        nth_error (validspotindices r) j' = Some i' -> i < i')
    /\ (forall k s', nth_error (spots r) k = Some s' ->
        exists s snr m,
          nth_error todo k = Some s
          /\ Np.mean snr = Ok m
          /\ s' = set_meanSNR
                    (set_framecountSNR (set_SNR s snr)
                       (count_above snr threshold)) m
          /\ (In (si + k) (validspotindices r)
              <-> enough_frames (count_above snr threshold) validframesratio
                    snr = true)).
Proof.
  induction todo as [|s todo IH]; intros bgstd si r H; simpl in H.
  - injection H as <-. simpl. repeat split; intros;
      try (destruct j; discriminate); try (destruct k; discriminate).
  - apply bind_ok in H. destruct H as (snr & Hsnr & H).
    apply bind_ok in H. destruct H as (m & Hm & H).
    apply bind_ok in H. destruct H as (r0 & Hr0 & H).
    injection H as <-.
    destruct (IH _ _ _ Hr0) as (L & LV & HI & HS & HK). clear IH.
    assert (Hlow : forall i, In i (validspotindices r0) -> S si <= i).
    { intros i Hi. apply In_nth_error in Hi. destruct Hi as [j Hj].
      apply HI in Hj. lia. }
    cbn [spots validspots validspotindices].
    split; [simpl; now rewrite L|].
    destruct (enough_frames (count_above snr threshold) validframesratio snr)
      eqn:Hv.
    + split; [simpl; now rewrite LV|]. split; [|split].
      * intros [|j] i Hj; simpl in Hj.
        -- injection Hj as <-. rewrite Nat.sub_diag. simpl. split; [lia|reflexivity].
        -- destruct (HI _ _ Hj) as [Hr Hn]. split; [simpl; lia|].
           simpl. rewrite Hn. replace (i - si) with (S (i - S si)) by lia.
           reflexivity.
      * intros [|j] [|j'] i i' Hlt Hj Hj'; simpl in Hj, Hj'; try lia.
        -- injection Hj as <-. apply nth_error_In in Hj'. apply Hlow in Hj'. lia.
        -- eapply HS; [|eassumption|eassumption]. lia.
      * intros [|k] s' Hk; simpl in Hk.
        -- injection Hk as <-. exists s, snr, m.
           rewrite Nat.add_0_r, Hv. repeat split; auto. now left.
        -- destruct (HK _ _ Hk) as (s0 & snr0 & m0 & Hs0 & Hm0 & -> & Hiff).
           exists s0, snr0, m0. repeat split; auto.
           ++ intros [Heq|Hin]; [lia|]. apply Hiff.
              now replace (S si + k) with (si + S k) by lia.
           ++ intros Hen. right. apply Hiff in Hen.
              now replace (si + S k) with (S si + k) by lia.
    + split; [assumption|]. split; [|split].
      * intros j i Hj. destruct (HI _ _ Hj) as [Hr Hn]. split; [simpl; lia|].
        rewrite Hn. replace (i - si) with (S (i - S si)) by lia. reflexivity.
      * exact HS.
      * intros [|k] s' Hk; simpl in Hk.
        -- injection Hk as <-. exists s, snr, m.
           rewrite Nat.add_0_r, Hv. repeat split; auto.
           ++ intros Hin. apply Hlow in Hin. lia.
           ++ discriminate.
        -- destruct (HK _ _ Hk) as (s0 & snr0 & m0 & Hs0 & Hm0 & -> & Hiff).
           exists s0, snr0, m0. repeat split; auto.
           ++ intros Hin. apply Hiff.
              now replace (S si + k) with (si + S k) by lia.
           ++ intros Hen. apply Hiff in Hen.
              now replace (si + S k) with (S si + k) by lia.
Qed.

(** X6.  When [are_spots_valid] returns: every spot has been given its
    [SNR], its [framecountSNR] (the number of frames above the threshold)
    and its [meanSNR], and is otherwise what it was; [validspotindices] is
    strictly increasing and holds exactly the indices of the spots whose
    frame count reaches [validframesratio] times the number of frames; and
    [validspots] holds these spots in the same order:
    [validspots[j]] is [spots[validspotindices[j]]]. *)
Theorem are_spots_valid_keeps_the_order
    (bg_spot_sample_std : option npval) (all_spots : list Spot)
    (threshold validframesratio : float) (r : outcome) :
  are_spots_valid bg_spot_sample_std all_spots threshold validframesratio
  = Ok r ->
  length (spots r) = length all_spots
  /\ length (validspots r) = length (validspotindices r)
  /\ (forall j si, nth_error (validspotindices r) j = Some si ->
      si < length all_spots
      /\ nth_error (validspots r) j = nth_error (spots r) si)
  /\ (forall j j' si si', j < j' ->
      nth_error (validspotindices r) j = Some si ->
      nth_error (validspotindices r) j' = Some si' -> si < si')
  /\ (forall si s', nth_error (spots r) si = Some s' ->
      exists s snr m,
        nth_error all_spots si = Some s
        /\ Np.mean snr = Ok m
        /\ s' = set_meanSNR
                  (set_framecountSNR (set_SNR s snr)
                     (count_above snr threshold)) m
        /\ (In si (validspotindices r)
            <-> enough_frames (count_above snr threshold) validframesratio
                  snr = true)).
Proof.
  unfold are_spots_valid. intros H.
  destruct (loop_spec _ _ _ _ _ _ H) as (L & LV & HI & HS & HK).
  split; [assumption|]. split; [assumption|]. split; [|split].
  - intros j si Hj. destruct (HI _ _ Hj) as [Hr Hn].
    rewrite Nat.sub_0_r in Hn. split; [lia | assumption].
  - exact HS.
  - intros si s' Hs. exact (HK si s' Hs).
Qed.

Lemma are_spots_valid_keeps_the_order_witness :
  let all_spots :=
    [ValiditySamples.bright_own_bg; ValiditySamples.dim_no_bg] in
  exists r,
    are_spots_valid None all_spots default_SNR default_validframesratio = Ok r
    /\ length (spots r) = length all_spots
    /\ length (validspots r) = length (validspotindices r)
    /\ (forall j si, nth_error (validspotindices r) j = Some si ->
        si < length all_spots
        /\ nth_error (validspots r) j = nth_error (spots r) si)
    /\ (forall j j' si si', j < j' ->
        nth_error (validspotindices r) j = Some si ->
        nth_error (validspotindices r) j' = Some si' -> si < si')
    /\ (forall si s', nth_error (spots r) si = Some s' ->
        exists s snr m,
          nth_error all_spots si = Some s
          /\ Np.mean snr = Ok m
          /\ s' = set_meanSNR
                    (set_framecountSNR (set_SNR s snr)
                       (count_above snr default_SNR)) m
          /\ (In si (validspotindices r)
              <-> enough_frames (count_above snr default_SNR)
                    default_validframesratio snr = true)).
Proof.
  intros all_spots. eexists. split; [vm_compute; reflexivity|].
  apply (are_spots_valid_keeps_the_order None all_spots default_SNR
           default_validframesratio).
  vm_compute. reflexivity.
Defined.

(** ** The portraits found with a frame offset *)

Local Open Scope Z_scope.

(** The loop of [find_portraits] keeps the first multiples only: those up
    to the frame count. *)
Lemma collect_indices_seq (fpp frameoffset Nframes : Z) :
  0 < fpp ->
  forall (n a : nat),
    collect_indices (map Z.of_nat (seq a n)) fpp frameoffset Nframes
    = map (fun i => i * fpp + frameoffset)
        (map Z.of_nat
           (seq a (Nat.min n
                     (Z.to_nat ((Nframes - frameoffset) / fpp + 1
                                - Z.of_nat a))))).
Proof.
  intros Hfpp. set (q := (Nframes - frameoffset) / fpp).
  assert (Hq : forall i, i * fpp + frameoffset <= Nframes <-> i <= q).
  { intros i. unfold q.
    pose proof (Z.div_mod (Nframes - frameoffset) fpp ltac:(lia)) as E.
    pose proof (Z.mod_pos_bound (Nframes - frameoffset) fpp Hfpp) as B.
    split; intros H; nia. }
  induction n as [|n IH]; intros a; [reflexivity|].
  cbn [seq map collect_indices].
  destruct (Z.gtb_spec (Z.of_nat a * fpp + frameoffset) Nframes) as [Hgt|Hle];
    cbn [negb].
  - assert (~ Z.of_nat a <= q) by (rewrite <- Hq; lia).
    replace (Z.to_nat (q + 1 - Z.of_nat a)) with O by lia.
    rewrite Nat.min_0_r. reflexivity.
  - apply Hq in Hle. rewrite IH.
    replace (Z.to_nat (q + 1 - Z.of_nat a))
      with (S (Z.to_nat (q + 1 - Z.of_nat (S a)))) by lia.
    reflexivity.
Qed.

(** What [find_portraits] returns, with the number of indices that the loop
    collects before its [break]. *)
Lemma find_portraits_indices
    (exangles emangles : list float) (frameoffset : Z) (p : portraits) :
  find_portraits exangles emangles frameoffset = Ok p ->
  let Nframes := Z.of_nat (length exangles) in
  exists fpp,
    frames_per_portrait exangles emangles = Ok fpp
    /\ 0 < fpp
    /\ Nframes mod fpp = 0
    /\ 0 < Nportraits p
    /\ Nportraits p
       = Z.of_nat (Nat.min (Z.to_nat (Nframes / fpp + 1))
                     (Z.to_nat ((Nframes - frameoffset) / fpp + 1))) - 1
    /\ portrait_indices p
       = map (fun i => i * fpp + frameoffset) (range (Nportraits p + 1)).
Proof.
  intros H Nframes. unfold find_portraits in H.
  apply bind_ok in H. destruct H as (fpp & Hf & H).
  apply bind_ok in H. destruct H as (K & HK & H).
  apply bind_ok in H. destruct H as (u & Hmod & H).
  apply bind_ok in H. destruct H as (u' & Hpos & H).
  injection H as <-. cbn [Nportraits portrait_indices].
  fold Nframes in HK, Hmod, Hpos |- *.
  pose proof (frames_per_portrait_nonneg _ _ _ Hf) as Hnn.
  unfold int_div in HK. destruct (Z.eqb_spec fpp 0) as [|Hne]; [discriminate|].
  injection HK as <-.
  assert (Hfpp : 0 < fpp) by lia.
  unfold assert in Hmod.
  destruct (Z.eqb_spec (Nframes mod fpp) 0) as [Hm|]; [|discriminate].
  unfold range in Hpos |- *.
  rewrite (collect_indices_seq fpp frameoffset Nframes Hfpp) in Hpos |- *.
  rewrite !length_map, !length_seq in Hpos |- *.
  change (Z.of_nat 0) with 0 in Hpos |- *.
  rewrite Z.sub_0_r in Hpos |- *.
  set (c := (Nframes - frameoffset) / fpp + 1) in *.
  set (n := Nat.min (Z.to_nat (Nframes / fpp + 1)) (Z.to_nat c)) in *.
  unfold assert in Hpos.
  destruct (Z.gtb_spec (Z.of_nat n - 1) 0) as [Hn|]; [|discriminate].
  exists fpp. split; [exact Hf|]. split; [assumption|].
  split; [assumption|]. split; [lia|]. split; [reflexivity|].
  replace (Z.to_nat (Z.of_nat n - 1 + 1)) with n by lia. reflexivity.
Qed.

(** X7.  When [find_portraits] returns, whatever the frame offset: the
    frames per portrait [fpp] are positive and divide the frame count, there
    is at least one portrait, the portrait indices are the frame offset plus
    the multiples 0, [fpp], ..., [Nportraits*fpp] of [fpp], so that two
    consecutive indices always delimit [fpp] frames, and no index is above
    the frame count.  With a frame offset that is not negative the number of
    portraits is [(Nframes - frameoffset) / fpp]: each started portrait of
    the offset costs one; with one that is not positive it is
    [Nframes / fpp]. *)
Theorem find_portraits_with_offset
    (exangles emangles : list float) (frameoffset : Z) (p : portraits) :
  find_portraits exangles emangles frameoffset = Ok p ->
  let Nframes := Z.of_nat (length exangles) in
  exists fpp,
    frames_per_portrait exangles emangles = Ok fpp
    /\ 0 < fpp
    /\ Nframes mod fpp = 0
    /\ 0 < Nportraits p
    /\ portrait_indices p
       = map (fun i => i * fpp + frameoffset) (range (Nportraits p + 1))
    /\ (forall ind, In ind (portrait_indices p) -> ind <= Nframes)
    /\ (0 <= frameoffset -> Nportraits p = (Nframes - frameoffset) / fpp)
    /\ (frameoffset <= 0 -> Nportraits p = Nframes / fpp).
Proof.
  intros H Nframes.
  destruct (find_portraits_indices _ _ _ _ H)
    as (fpp & Hf & Hfpp & Hm & Hpos & Hn & Hind).
  fold Nframes in Hm, Hn.
  exists fpp. split; [exact Hf|]. split; [assumption|].
  split; [assumption|]. split; [assumption|]. split; [assumption|].
  split; [|split].
  - intros ind Hin. rewrite Hind in Hin.
    apply in_map_iff in Hin. destruct Hin as (i & <- & Hi).
    apply range_in in Hi.
    pose proof (Z.div_mod (Nframes - frameoffset) fpp ltac:(lia)) as E.
    pose proof (Z.mod_pos_bound (Nframes - frameoffset) fpp Hfpp) as B.
    assert (i <= (Nframes - frameoffset) / fpp) by lia.
    nia.
  - intros Hoff.
    assert ((Nframes - frameoffset) / fpp <= Nframes / fpp)
      by (apply Z.div_le_mono; lia).
    lia.
  - intros Hoff.
    assert (Nframes / fpp <= (Nframes - frameoffset) / fpp)
      by (apply Z.div_le_mono; lia).
    assert (0 <= Nframes / fpp) by (apply Z.div_pos; lia).
    lia.
Qed.

Lemma find_portraits_with_offset_witness :
  exists p,
    find_portraits (firstn 8 PortraitSamples.exangles)
      (firstn 8 PortraitSamples.emangles) 4 = Ok p
    /\ exists fpp,
         frames_per_portrait (firstn 8 PortraitSamples.exangles)
           (firstn 8 PortraitSamples.emangles) = Ok fpp
         /\ 0 < fpp
         /\ 8 mod fpp = 0
         /\ 0 < Nportraits p
         /\ portrait_indices p
            = map (fun i => i * fpp + 4) (range (Nportraits p + 1))
         /\ (forall ind, In ind (portrait_indices p) -> ind <= 8)
         /\ (0 <= 4 -> Nportraits p = (8 - 4) / fpp)
         /\ (4 <= 0 -> Nportraits p = 8 / fpp).
Proof.
  eexists. split; [vm_compute; reflexivity|].
  apply (find_portraits_with_offset (firstn 8 PortraitSamples.exangles)
           (firstn 8 PortraitSamples.emangles) 4).
  vm_compute. reflexivity.
Defined.

Local Close Scope Z_scope.

(** ** The rows of [startstop] *)

Local Open Scope Z_scope.

Lemma nonzero_from_bounds (d : list float) :
  forall i x, In x (nonzero_from i d) -> i <= x < i + Z.of_nat (length d).
Proof.
  induction d as [|y d IH]; intros i x Hin; simpl in Hin; [destruct Hin|].
  cbn [length]. destruct (F64.eqb y zero).
  - apply IH in Hin. lia.
  - destruct Hin as [<-|Hin]; [lia|]. apply IH in Hin. lia.
Qed.

Lemma nonzero_from_adjacent (d : list float) :
  forall i j x y,
    nth_error (nonzero_from i d) j = Some x ->
    nth_error (nonzero_from i d) (S j) = Some y -> x < y.
Proof.
  induction d as [|z d IH]; intros i j x y Hx Hy.
  - destruct j; discriminate.
  - cbn [nonzero_from] in Hx, Hy.
    destruct (F64.eqb z zero); [eapply IH; eassumption|].
    destruct j as [|j].
    + injection Hx as <-.
      change (nth_error (nonzero_from (i + 1) d) 0 = Some y) in Hy.
      apply nth_error_In, nonzero_from_bounds in Hy. lia.
    + change (nth_error (nonzero_from (i + 1) d) j = Some x) in Hx.
      change (nth_error (nonzero_from (i + 1) d) (S j) = Some y) in Hy.
      eapply IH; eassumption.
Qed.

(** The edges are strictly increasing: [k] places further the edge is at
    least [k] frames further. *)
Lemma nonzero_from_increasing (d : list float) (i : Z) (k : nat) :
  forall j x y,
    nth_error (nonzero_from i d) j = Some x ->
    nth_error (nonzero_from i d) (j + k) = Some y -> x + Z.of_nat k <= y.
Proof.
  induction k as [|k IH]; intros j x y Hx Hy.
  - rewrite Nat.add_0_r in Hy. assert (x = y) by congruence. lia.
  - replace (j + S k)%nat with (S (j + k)) in Hy by lia.
    destruct (nth_error (nonzero_from i d) (j + k)) as [z|] eqn:Hz.
    + pose proof (IH _ _ _ Hx Hz).
      pose proof (nonzero_from_adjacent _ _ _ _ _ Hz Hy). lia.
    + apply nth_error_None in Hz.
      assert (nth_error (nonzero_from i d) (S (j + k)) = None)
        by (apply nth_error_None; lia).
      congruence.
Qed.

Lemma np_diff_length (l : list float) :
  forall d, np_diff l = Ok d -> length d = (length l - 1)%nat.
Proof.
  induction l as [|x l IH]; intros d H; simpl in H.
  - now injection H as <-.
  - destruct l as [|y l].
    + now injection H as <-.
    + apply bind_ok in H. destruct H as (d0 & _ & H).
      apply bind_ok in H. destruct H as (ds & Hds & H).
      injection H as <-. apply IH in Hds. simpl in *. lia.
Qed.

Lemma range_nth (n : Z) (i : nat) (x : Z) :
  nth_error (range n) i = Some x -> x = Z.of_nat i.
Proof.
  unfold range. intros H. rewrite nth_error_map in H.
  destruct (nth_error (seq 0 (Z.to_nat n)) i) as [j|] eqn:Hj; [|discriminate].
  injection H as <-. f_equal.
  assert (Hi : (i < Z.to_nat n)%nat).
  { rewrite <- (length_seq (Z.to_nat n) 0%nat). apply nth_error_Some. congruence. }
  apply (nth_error_nth _ _ 0%nat) in Hj. rewrite seq_nth in Hj by assumption.
  now rewrite <- Hj.
Qed.

Lemma int_div_ok (a b q : Z) : int_div a b = Ok q -> b <> 0 /\ q = a / b.
Proof.
  unfold int_div. destruct (Z.eqb_spec b 0); [discriminate|].
  intros H. injection H as <-. auto.
Qed.

Lemma portrait_row_ok (edges : list Z) (nl i : Z) (row : Z * Z) :
  portrait_row edges nl i = Ok row ->
  exists ea eb,
    nth_error edges (Z.to_nat (i * nl)) = Some ea
    /\ nth_error edges (Z.to_nat ((i + 1) * nl)) = Some eb
    /\ row = (ea + 1, eb).
Proof.
  unfold portrait_row, edge, of_option. intros H.
  destruct (nth_error edges (Z.to_nat (i * nl))) as [ea|]; [|discriminate].
  destruct (nth_error edges (Z.to_nat ((i + 1) * nl))) as [eb|];
    [|discriminate].
  cbn [bind] in H. injection H as <-. eauto.
Qed.

(** X8.  When [startstop] returns, the rows of [portrait_indices] tile the
    first frames of the movie: the first row starts at frame 0, every other
    row starts at the frame after the stop of the row before it, every row
    stops at or after its start, and every stop is the index of a frame. *)
Theorem startstop_rows_tile (emission_angles : list float)
    (rows : list (Z * Z)) :
  startstop emission_angles = Ok rows ->
  (exists stop rest, rows = (0, stop) :: rest)
  /\ (forall i a b a' b',
        nth_error rows i = Some (a, b) ->
        nth_error rows (S i) = Some (a', b') -> a' = b + 1)
  /\ (forall i a b,
        nth_error rows i = Some (a, b) ->
        0 <= a <= b /\ b < Z.of_nat (length emission_angles)).
Proof.
  unfold startstop. intros H.
  apply bind_ok in H. destruct H as (emr & Hemr & H).
  apply bind_ok in H. destruct H as (d & Hd & H).
  destruct d as [|d0 d']; [discriminate|].
  apply bind_ok in H. destruct H as (Np & HNp & H).
  apply bind_ok in H. destruct H as (raw & Hraw & H).
  destruct raw as [|[a0 stop0] tail]; [discriminate|].
  injection H as <-.
  set (nl := Z.of_nat (length (np_unique emr))) in *.
  set (edges := nonzero_from 0 ((one :: d') ++ [one])) in *.
  apply int_div_ok in HNp. destruct HNp as [Hnl _].
  assert (Hnl1 : 1 <= nl) by (unfold nl in *; lia).
  assert (Hlen : Z.of_nat (length ((one :: d') ++ [one]))
                 = Z.of_nat (length emission_angles)).
  { apply np_diff_length in Hd. apply mapM_length in Hemr.
    rewrite length_app. cbn [length] in *. lia. }
  assert (Hrow : forall i row, nth_error ((a0, stop0) :: tail) i = Some row ->
            exists ea eb,
              nth_error edges (Z.to_nat (Z.of_nat i * nl)) = Some ea
              /\ nth_error edges (Z.to_nat ((Z.of_nat i + 1) * nl)) = Some eb
              /\ row = (ea + 1, eb)).
  { intros i row Hi.
    destruct (mapM_nth _ _ _ Hraw _ _ Hi) as (x & Hx & Hp).
    apply range_nth in Hx. subst x. now apply portrait_row_ok. }
  assert (Hb : forall j x, nth_error edges j = Some x ->
            0 <= x < Z.of_nat (length emission_angles)).
  { intros j x Hj. apply nth_error_In in Hj.
    apply nonzero_from_bounds in Hj. lia. }
  split; [eauto|]. split.
  - intros i a b a' b' Hi Hi'.
    change (nth_error ((a0, stop0) :: tail) (S i) = Some (a', b')) in Hi'.
    destruct (Hrow _ _ Hi') as (ea' & eb' & Ha' & _ & E'). injection E' as -> ->.
    assert (Hraw_i : exists a1, nth_error ((a0, stop0) :: tail) i = Some (a1, b)).
    { destruct i as [|i]; simpl in Hi |- *; [injection Hi as <- <-|]; eauto. }
    destruct Hraw_i as (a1 & Hi1).
    destruct (Hrow _ _ Hi1) as (ea & eb & _ & Hb1 & E). injection E as -> ->.
    replace (Z.of_nat (S i)) with (Z.of_nat i + 1) in Ha' by lia.
    congruence.
  - intros i a b Hi.
    assert (Hraw_i : exists a1, nth_error ((a0, stop0) :: tail) i = Some (a1, b)
                                /\ (a = a1 \/ a = 0)).
    { destruct i as [|i]; simpl in Hi |- *; [injection Hi as <- <-|]; eauto. }
    destruct Hraw_i as (a1 & Hi1 & Ha).
    destruct (Hrow _ _ Hi1) as (ea & eb & Hea & Heb & E). injection E as -> ->.
    pose proof (Hb _ _ Hea). pose proof (Hb _ _ Heb).
    replace (Z.to_nat ((Z.of_nat i + 1) * nl))
      with (Z.to_nat (Z.of_nat i * nl) + Z.to_nat nl)%nat in Heb by lia.
    pose proof (nonzero_from_increasing _ _ _ _ _ _ Hea Heb).
    destruct Ha; lia.
Qed.

Lemma startstop_rows_tile_witness :
  exists rows,
    startstop PortraitSamples.emangles = Ok rows
    /\ (exists stop rest, rows = (0, stop) :: rest)
    /\ (forall i a b a' b',
          nth_error rows i = Some (a, b) ->
          nth_error rows (S i) = Some (a', b') -> a' = b + 1)
    /\ (forall i a b,
          nth_error rows i = Some (a, b) ->
          0 <= a <= b /\ b < Z.of_nat (length PortraitSamples.emangles)).
Proof.
  eexists. split; [vm_compute; reflexivity|].
  apply (startstop_rows_tile PortraitSamples.emangles).
  vm_compute. reflexivity.
Defined.

Local Close Scope Z_scope.

(** ** The grids of a phase offset that is NaN *)

Lemma excitation_entry_nan (x : float) :
  excitation_entry (phase_offset_in_rad nan) x = Ok nan.
Proof. destruct x as [s|s| |s m e]; try destruct s; reflexivity. Qed.

Lemma excitation_grid_nan (n : nat) :
  excitation_grid n nan = Ok (map (fun _ => nan) (linspace_0_pi n)).
Proof.
  unfold excitation_grid. induction (linspace_0_pi n) as [|x l IH].
  - reflexivity.
  - cbn [mapM map]. rewrite excitation_entry_nan, IH. reflexivity.
Qed.

Lemma assert_on_nan_grid (a : float) (l : list float) :
  assert_on_grid (map (fun _ => nan) l) a = Raise AssertionError.
Proof.
  unfold assert_on_grid.
  assert (Hs : mapM (Np.sub a) (map (fun _ : float => nan) l)
               = Ok (map (fun _ => nan) l)).
  { induction l as [|x l IH]; [reflexivity|]. cbn [mapM map].
    rewrite IH. destruct a as [s|s| |s m e]; reflexivity. }
  rewrite Hs. cbn [bind]. clear Hs.
  assert (He : existsb (within_ten_eps a) (map (fun _ : float => nan) l)
               = false).
  { induction l as [|x l IH]; [reflexivity|]. cbn [existsb map].
    rewrite IH. destruct a as [s|s| |s m e]; reflexivity. }
  rewrite He. reflexivity.
Qed.

(** X9.  When the phase offset of the motors is NaN, every entry of the
    excitation grid is NaN, and the constructor fails its first assertion as
    soon as one excitation angle was measured, whatever the angles are. *)
Theorem init_rejects_nan_offset (unique_exangles unique_emangles : list float) :
  unique_exangles <> [] ->
  excitation_grid (length unique_exangles) nan
  = Ok (map (fun _ => nan) unique_exangles)
  /\ init unique_exangles unique_emangles nan = Raise AssertionError.
Proof.
  intros Hne.
  assert (Hg : excitation_grid (length unique_exangles) nan
               = Ok (map (fun _ => nan) unique_exangles)).
  { rewrite excitation_grid_nan. f_equal.
    pose proof (linspace_length (length unique_exangles)) as Hl.
    revert Hl. generalize (linspace_0_pi (length unique_exangles)) as l.
    generalize unique_exangles as u.
    induction u as [|a u IH]; intros [|x l] Hl; try discriminate.
    - reflexivity.
    - cbn [map]. f_equal. apply IH. now injection Hl. }
  split; [exact Hg|].
  unfold init. rewrite Hg. cbn [bind].
  destruct unique_exangles as [|a u]; [congruence|].
  cbn [forM_]. rewrite (assert_on_nan_grid a (a :: u)). reflexivity.
Qed.

Lemma init_rejects_nan_offset_witness :
  excitation_grid (length [zero; half_pi]) nan
  = Ok (map (fun _ => nan) [zero; half_pi])
  /\ init [zero; half_pi] [zero] nan = Raise AssertionError.
Proof.
  apply (init_rejects_nan_offset [zero; half_pi] [zero]). discriminate.
Defined.

(** ** Squares on a section of the image *)

Import GridSpots.

Local Open Scope Z_scope.

Lemma py_getitem_last {A : Type} (l : list A) (x : A) :
  py_getitem (l ++ [x]) (-1) = Ok x.
Proof.
  unfold py_getitem, py_index. rewrite length_app. cbn [length].
  replace (Z.of_nat (length l + 1)) with (Z.of_nat (length l) + 1) by lia.
  destruct (Z.leb_spec 0 (-1)); [lia|]. cbn [andb].
  destruct (Z.leb_spec (- (Z.of_nat (length l) + 1)) (-1)); [|lia].
  destruct (Z.ltb_spec (-1) 0); [|lia]. cbn [andb bind].
  replace (Z.to_nat (-1 + (Z.of_nat (length l) + 1))) with (length l) by lia.
  rewrite nth_error_app2 by lia. rewrite Nat.sub_diag. reflexivity.
Qed.

Lemma py_getitem_nil {A : Type} (i : Z) :
  py_getitem (@nil A) i = Raise IndexError.
Proof.
  unfold py_getitem, py_index. cbn [length].
  destruct (Z.leb_spec 0 i), (Z.ltb_spec i (Z.of_nat 0)); cbn [andb]; try lia;
    try reflexivity;
    destruct (Z.leb_spec (- Z.of_nat 0) i), (Z.ltb_spec i 0); cbn [andb];
    try lia; reflexivity.
Qed.

(** The edges of the squares along one axis, for a positive resolution:
    the multiples of [res] from [lo] on that leave room for a whole square
    before [hi]; there must be room for an edge at least. *)
Lemma edges_spec (lo hi res : Z) :
  0 < res ->
  (hi <= lo -> edges lo hi res = Raise IndexError)
  /\ (lo < hi ->
      edges lo hi res
      = Ok (map (fun i => lo + Z.of_nat i * res)
              (seq 0 (Z.to_nat ((hi - lo) / res))))).
Proof.
  intros Hres. unfold edges, py_range, last_item.
  destruct (Z.eqb_spec res 0); [lia|].
  destruct (Z.ltb_spec 0 res); [|lia]. split; intros Hlo.
  - destruct (Z.ltb_spec lo hi); [lia|]. cbn [Z.to_nat seq map bind].
    now rewrite py_getitem_nil.
  - destruct (Z.ltb_spec lo hi); [|lia].
    set (q := (hi - lo) / res).
    pose proof (Z.div_mod (hi - lo) res ltac:(lia)) as E.
    pose proof (Z.mod_pos_bound (hi - lo) res Hres) as B. fold q in E.
    assert (Hq : 0 <= q) by (apply Z.div_pos; lia).
    set (f := fun i : nat => lo + Z.of_nat i * res).
    destruct (Z.eq_dec ((hi - lo) mod res) 0) as [Hr|Hr].
    + assert (Hn : (hi - lo - 1) / res + 1 = q).
      { assert ((hi - lo - 1) / res = q - 1); [|lia].
        symmetry. apply (Z.div_unique _ _ _ (res - 1)); [lia|nia]. }
      rewrite Hn.
      assert (1 <= q) by nia.
      replace (Z.to_nat q) with (S (Z.to_nat (q - 1))) by lia.
      rewrite seq_S, map_app. cbn [map bind].
      rewrite py_getitem_last. cbn [bind].
      cbn [Nat.add].
      destruct (Z.gtb_spec (f (Z.to_nat (q - 1)) + res) hi) as [Hg|Hg];
        unfold f in Hg; [nia|]. reflexivity.
    + assert (Hn : (hi - lo - 1) / res + 1 = q + 1).
      { f_equal. symmetry.
        apply (Z.div_unique _ _ _ ((hi - lo) mod res - 1)); [lia|nia]. }
      rewrite Hn.
      replace (Z.to_nat (q + 1)) with (S (Z.to_nat q)) by lia.
      rewrite seq_S, map_app. cbn [map bind].
      rewrite py_getitem_last. cbn [bind].
      cbn [Nat.add].
      destruct (Z.gtb_spec (f (Z.to_nat q) + res) hi) as [Hg|Hg];
        unfold f in Hg; [|nia]. now rewrite removelast_last.
Qed.

Lemma in_edges (lo res x : Z) (q : nat) :
  In x (map (fun i => lo + Z.of_nat i * res) (seq 0 q)) <->
  exists a, (a < q)%nat /\ x = lo + Z.of_nat a * res.
Proof.
  rewrite in_map_iff. split.
  - intros (a & <- & Ha). apply in_seq in Ha. exists a. split; [lia|reflexivity].
  - intros (a & Ha & ->). exists a. split; [reflexivity|]. apply in_seq. lia.
Qed.

Lemma NoDup_edges (lo res : Z) (q : nat) :
  0 < res -> NoDup (map (fun i => lo + Z.of_nat i * res) (seq 0 q)).
Proof.
  intros Hres. apply NoDup_map_NoDup_ForallPairs; [|apply seq_NoDup].
  intros a b _ _ E. nia.
Qed.

Lemma NoDup_squares (res : Z) (xs ys : list Z) :
  NoDup xs -> NoDup ys ->
  NoDup (flat_map
           (fun xi =>
              map (fun yi => [yi; xi; yi - 1 + res; xi - 1 + res]) ys) xs).
Proof.
  intros Hx Hy. induction Hx as [|x xs Hnin Hx IH]; cbn [flat_map].
  - constructor.
  - apply NoDup_app; [| exact IH |].
    + apply NoDup_map_NoDup_ForallPairs; [|exact Hy].
      intros a b _ _ E. now injection E.
    + intros c Hc Hc'. apply in_map_iff in Hc. destruct Hc as (y & <- & _).
      apply in_flat_map in Hc'. destruct Hc' as (x' & Hx' & Hc').
      apply in_map_iff in Hc'. destruct Hc' as (y' & E & _).
      injection E as _ ->. contradiction.
Qed.

Lemma grid_on_four_bounds (res rb0 rb1 rb2 rb3 : Z) :
  grid_image_section_into_squares_and_define_spots res [rb0; rb1; rb2; rb3]
  = (leftedges <- edges rb1 rb3 res ;;
     topedges <- edges rb0 rb2 res ;;
     Ok (flat_map
           (fun xi =>
              map (fun yi => [yi; xi; yi - 1 + res; xi - 1 + res]) topedges)
           leftedges)).
Proof. reflexivity. Qed.

(** X10.  For a positive resolution [res] and the bounds
    [[rb0, rb1, rb2, rb3]], when the function returns it has called
    [define_spot] once for each square of a regular grid:
    [((rb3-rb1)/res) * ((rb2-rb0)/res)] calls, no two of them with the same
    argument; each argument is [[yi, xi, yi-1+res, xi-1+res]], a square of
    [res] by [res] pixels that lies inside the bounds; and two different
    squares have no pixel in common. *)
Theorem grid_squares_tile_the_section (res rb0 rb1 rb2 rb3 : Z)
    (calls : list (list Z)) :
  0 < res ->
  grid_image_section_into_squares_and_define_spots res [rb0; rb1; rb2; rb3]
  = Ok calls ->
  length calls
  = (Z.to_nat ((rb3 - rb1) / res) * Z.to_nat ((rb2 - rb0) / res))%nat
  /\ NoDup calls
  /\ (forall c, In c calls ->
      exists yi xi,
        c = [yi; xi; yi - 1 + res; xi - 1 + res]
        /\ rb0 <= yi /\ yi - 1 + res < rb2
        /\ rb1 <= xi /\ xi - 1 + res < rb3)
  /\ (forall yi xi a b yj xj a' b',
        In [yi; xi; a; b] calls -> In [yj; xj; a'; b'] calls ->
        (yi, xi) <> (yj, xj) ->
        yi + res <= yj \/ yj + res <= yi \/ xi + res <= xj \/ xj + res <= xi).
Proof.
  intros Hres H. rewrite grid_on_four_bounds in H.
  apply bind_ok in H. destruct H as (leftedges & Hl & H).
  apply bind_ok in H. destruct H as (topedges & Ht & H).
  injection H as <-.
  destruct (edges_spec rb1 rb3 res Hres) as [Hl0 Hl1].
  destruct (edges_spec rb0 rb2 res Hres) as [Ht0 Ht1].
  destruct (Z.le_gt_cases rb3 rb1) as [Hle|Hlt];
    [rewrite (Hl0 Hle) in Hl; discriminate|].
  destruct (Z.le_gt_cases rb2 rb0) as [Hle'|Hlt'];
    [rewrite (Ht0 Hle') in Ht; discriminate|].
  rewrite (Hl1 Hlt) in Hl. injection Hl as <-.
  rewrite (Ht1 Hlt') in Ht. injection Ht as <-.
  set (qx := Z.to_nat ((rb3 - rb1) / res)).
  set (qy := Z.to_nat ((rb2 - rb0) / res)).
  assert (Bx : forall a, (a < qx)%nat -> rb1 + Z.of_nat a * res + res <= rb3).
  { intros a Ha. unfold qx in Ha.
    pose proof (Z.div_mod (rb3 - rb1) res ltac:(lia)) as E.
    pose proof (Z.mod_pos_bound (rb3 - rb1) res Hres) as B.
    assert (Z.of_nat a + 1 <= (rb3 - rb1) / res) by lia. nia. }
  assert (By : forall a, (a < qy)%nat -> rb0 + Z.of_nat a * res + res <= rb2).
  { intros a Ha. unfold qy in Ha.
    pose proof (Z.div_mod (rb2 - rb0) res ltac:(lia)) as E.
    pose proof (Z.mod_pos_bound (rb2 - rb0) res Hres) as B.
    assert (Z.of_nat a + 1 <= (rb2 - rb0) / res) by lia. nia. }
  assert (Hin : forall yi xi a b,
            In [yi; xi; a; b]
              (flat_map
                 (fun xi =>
                    map (fun yi => [yi; xi; yi - 1 + res; xi - 1 + res])
                      (map (fun i => rb0 + Z.of_nat i * res) (seq 0 qy)))
                 (map (fun i => rb1 + Z.of_nat i * res) (seq 0 qx))) ->
            exists i j, (i < qx)%nat /\ (j < qy)%nat
                        /\ xi = rb1 + Z.of_nat i * res
                        /\ yi = rb0 + Z.of_nat j * res
                        /\ a = yi - 1 + res /\ b = xi - 1 + res).
  { intros yi xi a b Hc. apply in_flat_map in Hc.
    destruct Hc as (x & Hx & Hc). apply in_map_iff in Hc.
    destruct Hc as (y & E & Hy). injection E as <- <- <- <-.
    apply in_edges in Hx. destruct Hx as (i & Hi & ->).
    apply in_edges in Hy. destruct Hy as (j & Hj & ->).
    exists i, j. repeat split; assumption || reflexivity. }
  split; [|split; [|split]].
  - rewrite (flat_map_constant_length (c := qy)).
    + now rewrite length_map, length_seq.
    + intros x _. now rewrite !length_map, length_seq.
  - apply NoDup_squares; now apply NoDup_edges.
  - intros c Hc. pose proof Hc as Hc'. apply in_flat_map in Hc'.
    destruct Hc' as (x & _ & Hc'). apply in_map_iff in Hc'.
    destruct Hc' as (y & <- & _).
    destruct (Hin _ _ _ _ Hc) as (i & j & Hi & Hj & -> & -> & _).
    exists (rb0 + Z.of_nat j * res), (rb1 + Z.of_nat i * res).
    split; [reflexivity|].
    pose proof (Bx i Hi). pose proof (By j Hj). lia.
  - intros yi xi a b yj xj a' b' Hc Hc' Hne.
    destruct (Hin _ _ _ _ Hc) as (i & j & _ & _ & -> & -> & _).
    destruct (Hin _ _ _ _ Hc') as (i' & j' & _ & _ & -> & -> & _).
    assert (i <> i' \/ j <> j') by (destruct (Nat.eq_dec i i'), (Nat.eq_dec j j'); subst; auto; congruence).
    nia.
Qed.

Lemma grid_squares_tile_the_section_witness :
  exists calls,
    grid_image_section_into_squares_and_define_spots 2 [10; 20; 15; 24]
    = Ok calls
    /\ length calls = (Z.to_nat ((24 - 20) / 2) * Z.to_nat ((15 - 10) / 2))%nat
    /\ NoDup calls
    /\ (forall c, In c calls ->
        exists yi xi,
          c = [yi; xi; yi - 1 + 2; xi - 1 + 2]
          /\ 10 <= yi /\ yi - 1 + 2 < 15 /\ 20 <= xi /\ xi - 1 + 2 < 24)
    /\ (forall yi xi a b yj xj a' b',
          In [yi; xi; a; b] calls -> In [yj; xj; a'; b'] calls ->
          (yi, xi) <> (yj, xj) ->
          yi + 2 <= yj \/ yj + 2 <= yi \/ xi + 2 <= xj \/ xj + 2 <= xi).
Proof.
  eexists. split; [vm_compute; reflexivity|].
  apply (grid_squares_tile_the_section 2 10 20 15 24); reflexivity.
Defined.


Local Close Scope Z_scope.

(** ** Two-dimensional arrays *)

Lemma set_nth_length {A : Type} (k : nat) (v : A) (l : list A) :
  length (set_nth k v l) = length l.
Proof.
  revert k; induction l as [|x l IH]; intros [|k]; simpl; auto.
Qed.

Lemma nth_error_set_nth_same {A : Type} (k : nat) (v : A) (l : list A) :
  k < length l -> nth_error (set_nth k v l) k = Some v.
Proof.
  revert k; induction l as [|x l IH]; intros [|k]; simpl; intros H;
    try lia; auto. apply IH. lia.
Qed.

Lemma nth_error_set_nth_other {A : Type} (k j : nat) (v : A) (l : list A) :
  k <> j -> nth_error (set_nth k v l) j = nth_error l j.
Proof.
  revert k j; induction l as [|x l IH]; intros [|k] [|j] H; simpl; auto.
  congruence.
Qed.

Lemma py_index_ok (n : nat) (i : Z) (k : nat) :
  py_index n i = Ok k -> k < n.
Proof.
  unfold py_index.
  destruct (Z.leb_spec 0 i) as [H0|H0],
    (Z.ltb_spec i (Z.of_nat n)) as [H1|H1]; cbn [andb];
    try (intros E; injection E as <-; lia);
    destruct (Z.leb_spec (- Z.of_nat n) i) as [H2|H2],
      (Z.ltb_spec i 0) as [H3|H3]; cbn [andb];
    try discriminate; intros E; injection E as <-; lia.
Qed.

Lemma py_index_raises (n : nat) (i : Z) (e : exn) :
  py_index n i = Raise e -> e = IndexError.
Proof.
  unfold py_index.
  destruct ((0 <=? i)%Z && (i <? Z.of_nat n)%Z); [discriminate|].
  destruct ((- Z.of_nat n <=? i)%Z && (i <? 0)%Z); [discriminate|].
  congruence.
Qed.

Lemma place_raises {A : Type} (a : list (list A)) (p : Z * Z) (e : exn) :
  Array2.place a p = Raise e -> e = IndexError.
Proof.
  unfold Array2.place. intros H.
  destruct (py_index (length a) (fst p)) as [r|e'] eqn:Hr; cbn [bind] in H;
    [|injection H as <-; eapply py_index_raises; eassumption].
  destruct (nth_error a r) as [row|]; cbn [of_option bind] in H; [|congruence].
  destruct (py_index (length row) (snd p)) as [c|e'] eqn:Hc; cbn [bind] in H;
    [discriminate|].
  injection H as <-. eapply py_index_raises; eassumption.
Qed.

Lemma place_ok {A : Type} (a : list (list A)) (p : Z * Z) (rc : nat * nat) :
  Array2.place a p = Ok rc ->
  exists row, nth_error a (fst rc) = Some row /\ snd rc < length row.
Proof.
  unfold Array2.place. intros H.
  apply bind_ok in H. destruct H as (r & Hr & H).
  destruct (nth_error a r) as [row|] eqn:Hrow; cbn [of_option bind] in H;
    [|discriminate].
  apply bind_ok in H. destruct H as (c & Hc & H). injection H as <-.
  exists row. split; [assumption|]. eapply py_index_ok; eassumption.
Qed.

(** An assignment keeps the shape of the array: every index stands for the
    place it stood for. *)
Lemma place_same_shape {A B : Type} (a : list (list A)) (a' : list (list B)) :
  length a' = length a ->
  (forall r, option_map (@length B) (nth_error a' r)
             = option_map (@length A) (nth_error a r)) ->
  forall p, Array2.place a' p = Array2.place a p.
Proof.
  intros Hl Hrows p. unfold Array2.place. rewrite Hl.
  destruct (py_index (length a) (fst p)) as [r|e]; cbn [bind]; [|reflexivity].
  specialize (Hrows r).
  destruct (nth_error a' r) as [row'|], (nth_error a r) as [row|];
    cbn [option_map] in Hrows; try discriminate; cbn [of_option bind];
    [|reflexivity].
  injection Hrows as ->. reflexivity.
Qed.

Lemma setitem_ok {A : Type} (a a' : list (list A)) (p : Z * Z) (v : A) :
  Array2.setitem a p v = Ok a' ->
  exists rc,
    Array2.place a p = Ok rc
    /\ (forall q, Array2.place a' q = Array2.place a q)
    /\ Array2.at_place a' rc = Some v
    /\ (forall rc', rc' <> rc ->
        Array2.at_place a' rc' = Array2.at_place a rc').
Proof.
  unfold Array2.setitem. intros H.
  apply bind_ok in H. destruct H as ([r c] & Hp & H). cbn [fst snd] in H.
  destruct (place_ok _ _ _ Hp) as (row & Hrow & Hc). cbn [fst snd] in Hrow, Hc.
  rewrite Hrow in H. cbn [of_option bind] in H. injection H as <-.
  assert (Hr : r < length a) by (apply nth_error_Some; congruence).
  exists (r, c). split; [assumption|]. split; [|split].
  - apply place_same_shape; [apply set_nth_length|].
    intros r'. destruct (Nat.eq_dec r r') as [<-|Hne].
    + rewrite nth_error_set_nth_same, Hrow by assumption.
      cbn [option_map]. now rewrite set_nth_length.
    + now rewrite nth_error_set_nth_other.
  - unfold Array2.at_place. cbn [fst snd].
    rewrite nth_error_set_nth_same by assumption.
    now apply nth_error_set_nth_same.
  - intros [r' c'] Hne. unfold Array2.at_place. cbn [fst snd].
    destruct (Nat.eq_dec r r') as [<-|Hr'].
    + rewrite nth_error_set_nth_same, Hrow by assumption.
      apply nth_error_set_nth_other. congruence.
    + now rewrite nth_error_set_nth_other.
Qed.

Lemma setitem_raises {A : Type} (a : list (list A)) (p : Z * Z) (v : A)
    (e : exn) :
  Array2.setitem a p v = Raise e ->
  e = IndexError /\ Array2.place a p = Raise IndexError.
Proof.
  unfold Array2.setitem. intros H.
  destruct (Array2.place a p) as [rc|e'] eqn:Hp; cbn [bind] in H.
  - destruct (place_ok _ _ _ Hp) as (row & Hrow & _). rewrite Hrow in H.
    discriminate.
  - injection H as <-. pose proof (place_raises _ _ _ Hp). subst. auto.
Qed.

Lemma covers_cons {A : Type} (a : list (list A)) (p : Z * Z)
    (ps : list (Z * Z)) (rc rc0 : nat * nat) :
  Array2.place a p = Ok rc0 ->
  Array2.covers a (p :: ps) rc
  = (if Nat.eq_dec (fst rc0) (fst rc) then
       if Nat.eq_dec (snd rc0) (snd rc) then true else Array2.covers a ps rc
     else Array2.covers a ps rc).
Proof.
  intros Hp. unfold Array2.covers. cbn [existsb]. rewrite Hp.
  destruct rc0 as [r0 c0]. cbn [fst snd].
  destruct (Nat.eq_dec r0 (fst rc)) as [->|Hr].
  - rewrite Nat.eqb_refl. cbn [andb].
    destruct (Nat.eq_dec c0 (snd rc)) as [->|Hc].
    + now rewrite Nat.eqb_refl.
    + apply Nat.eqb_neq in Hc. now rewrite Hc.
  - apply Nat.eqb_neq in Hr. now rewrite Hr.
Qed.

Lemma covers_same_shape {A B : Type} (a : list (list A)) (a1 : list (list B))
    (ps : list (Z * Z)) (rc : nat * nat) :
  (forall q, Array2.place a1 q = Array2.place a q) ->
  Array2.covers a1 ps rc = Array2.covers a ps rc.
Proof.
  intros Hshape. unfold Array2.covers.
  induction ps as [|p ps IH]; [reflexivity|]. cbn [existsb].
  now rewrite Hshape, IH.
Qed.

(** Writing the same value at a list of indices: the shape is kept, the
    places the indices stand for hold the value, and the others hold what
    they held. *)
Lemma write_all_ok {A : Type} (v : A) (ps : list (Z * Z)) :
  forall a a' : list (list A),
    foldM (fun a p => Array2.setitem a p v) ps a = Ok a' ->
    (forall q, Array2.place a' q = Array2.place a q)
    /\ (forall p, In p ps -> exists rc, Array2.place a p = Ok rc)
    /\ (forall rc, Array2.at_place a' rc
                   = if Array2.covers a ps rc then Some v
                     else Array2.at_place a rc).
Proof.
  induction ps as [|p ps IH]; intros a a' H; cbn [foldM] in H.
  - injection H as <-. split; [reflexivity|]. split; [intros p []|reflexivity].
  - apply bind_ok in H. destruct H as (a1 & H1 & H).
    destruct (setitem_ok _ _ _ _ H1) as (rc0 & Hp & Hshape & Hsame & Hother).
    destruct (IH _ _ H) as (Hshape' & Hin & Hat). clear IH.
    split; [|split].
    + intros q. now rewrite Hshape', Hshape.
    + intros p' [<-|Hp']; [eauto|].
      destruct (Hin _ Hp') as (rc & Hrc). rewrite Hshape in Hrc. eauto.
    + intros rc. rewrite Hat, (covers_cons _ _ _ _ _ Hp).
      rewrite (covers_same_shape a a1 ps rc Hshape). destruct (Array2.covers a ps rc); [now repeat destruct (Nat.eq_dec _ _)|].
      destruct (Nat.eq_dec (fst rc0) (fst rc)) as [E1|N1];
        [destruct (Nat.eq_dec (snd rc0) (snd rc)) as [E2|N2]|].
      * destruct rc0, rc; cbn [fst snd] in *; subst. assumption.
      * apply Hother. destruct rc0, rc; cbn [fst snd] in *; congruence.
      * apply Hother. destruct rc0, rc; cbn [fst snd] in *; congruence.
Qed.

(** ** The contrast images *)

Import ContrastImages.

Lemma store_with_value (s : located) (prop : Spot -> option float) (v : float)
    (image : list (list float)) :
  prop (spot s) = Some v ->
  store_property_in_image s image prop
  = foldM (fun a p => Array2.setitem a p v) (pixel s) image.
Proof.
  intros Hv. unfold store_property_in_image, attr. rewrite Hv.
  cbn [of_option]. generalize image. induction (pixel s) as [|p ps IH];
    intros a; cbn [foldM bind]; [reflexivity|].
  destruct (Array2.setitem a p v); cbn [bind]; [apply IH | reflexivity].
Qed.

Lemma getitem_by_place {A : Type} (a : list (list A)) (q : Z * Z)
    (rc : nat * nat) :
  Array2.place a q = Ok rc ->
  Array2.getitem a q = of_option IndexError (Array2.at_place a rc).
Proof. intros H. unfold Array2.getitem. now rewrite H. Qed.

Lemma covers_in {A : Type} (a : list (list A)) (ps : list (Z * Z))
    (p : Z * Z) (rc : nat * nat) :
  In p ps -> Array2.place a p = Ok rc -> Array2.covers a ps rc = true.
Proof.
  intros Hin Hp. unfold Array2.covers. apply existsb_exists.
  exists p. split; [assumption|]. rewrite Hp. destruct rc as [r c].
  cbn [fst snd]. now rewrite !Nat.eqb_refl.
Qed.

(** X12.  When [store_property_in_image] returns for a spot that has at
    least one pixel, the property was assigned on the spot; the image has
    the shape it had; every pixel of the spot holds the value of the
    property; and every other pixel of the image holds what it held. *)
Theorem store_property_in_image_writes (s : located)
    (image image' : list (list float)) (prop : Spot -> option float) :
  store_property_in_image s image prop = Ok image' ->
  pixel s <> [] ->
  exists v,
    prop (spot s) = Some v
    /\ (forall q, Array2.place image' q = Array2.place image q)
    /\ (forall p, In p (pixel s) -> Array2.getitem image' p = Ok v)
    /\ (forall q rc, Array2.place image q = Ok rc ->
        Array2.getitem image' q
        = if Array2.covers image (pixel s) rc then Ok v
          else Array2.getitem image q).
Proof.
  intros H Hne.
  destruct (prop (spot s)) as [v|] eqn:Hv.
  - rewrite (store_with_value _ _ _ _ Hv) in H.
    destruct (write_all_ok _ _ _ _ H) as (Hshape & Hin & Hat).
    exists v. split; [reflexivity|]. split; [exact Hshape|]. split.
    + intros p Hp. destruct (Hin _ Hp) as (rc & Hrc).
      rewrite (getitem_by_place image' p rc) by (now rewrite Hshape).
      rewrite Hat, (covers_in _ _ _ _ Hp Hrc). reflexivity.
    + intros q rc Hq.
      rewrite (getitem_by_place image' q rc) by (now rewrite Hshape).
      rewrite Hat, (getitem_by_place image q rc Hq).
      now destruct (Array2.covers image (pixel s) rc).
  - unfold store_property_in_image, attr in H. rewrite Hv in H.
    destruct (pixel s); [congruence | discriminate].
Qed.

Lemma store_property_in_image_writes_witness :
  let s := mkLocated (Samples.spot_with_M_ex one) [(0, 1); (-1, 0)]%Z in
  let image := [[nan; nan]; [nan; nan]] in
  exists image',
    store_property_in_image s image M_ex = Ok image'
    /\ exists v,
         M_ex (spot s) = Some v
         /\ (forall q, Array2.place image' q = Array2.place image q)
         /\ (forall p, In p (pixel s) -> Array2.getitem image' p = Ok v)
         /\ (forall q rc, Array2.place image q = Ok rc ->
             Array2.getitem image' q
             = if Array2.covers image (pixel s) rc then Ok v
               else Array2.getitem image q).
Proof.
  intros s image. eexists. split; [vm_compute; reflexivity|].
  apply (store_property_in_image_writes s image _ M_ex).
  - vm_compute. reflexivity.
  - discriminate.
Defined.

Lemma write_all_succeeds {A : Type} (v : A) (ps : list (Z * Z)) :
  forall a : list (list A),
    (forall p, In p ps -> exists rc, Array2.place a p = Ok rc) ->
    exists a', foldM (fun a p => Array2.setitem a p v) ps a = Ok a'.
Proof.
  induction ps as [|p ps IH]; intros a Hin; cbn [foldM]; [eauto|].
  destruct (Array2.setitem a p v) as [a1|e] eqn:H1; cbn [bind].
  - destruct (setitem_ok _ _ _ _ H1) as (_ & _ & Hshape & _).
    apply IH. intros p' Hp'. rewrite Hshape. apply Hin. now right.
  - apply setitem_raises in H1. destruct H1 as [_ H1].
    destruct (Hin p (or_introl eq_refl)) as (rc & Hrc). congruence.
Qed.

Lemma write_all_fails {A : Type} (v : A) (ps : list (Z * Z)) :
  forall a : list (list A),
    (exists p, In p ps /\ Array2.place a p = Raise IndexError) ->
    foldM (fun a p => Array2.setitem a p v) ps a = Raise IndexError.
Proof.
  induction ps as [|p ps IH]; intros a (p0 & Hin & Hp0); [destruct Hin|].
  cbn [foldM].
  destruct (Array2.setitem a p v) as [a1|e] eqn:H1; cbn [bind].
  - destruct (setitem_ok _ _ _ _ H1) as (rc & Hrc & Hshape & _).
    apply IH. exists p0. destruct Hin as [<-|Hin]; [congruence|].
    split; [assumption|]. now rewrite Hshape.
  - apply setitem_raises in H1. destruct H1 as [-> _]. reflexivity.
Qed.

(** X13.  What [store_property_in_image] does in each case: for a spot
    without pixel it returns without a look at the property, assigned or
    not; for a spot with a pixel whose property was never assigned it raises
    [AttributeError]; with the property assigned it returns when every
    pixel of the spot is an index of the image, and raises [IndexError]
    when one is not. *)
Theorem store_property_in_image_outcome (s : located)
    (image : list (list float)) (prop : Spot -> option float) :
  (pixel s = [] -> store_property_in_image s image prop = Ok image)
  /\ (pixel s <> [] -> prop (spot s) = None ->
      store_property_in_image s image prop = Raise AttributeError)
  /\ (forall v, prop (spot s) = Some v ->
      (forall p, In p (pixel s) -> exists rc, Array2.place image p = Ok rc) ->
      exists image', store_property_in_image s image prop = Ok image')
  /\ (forall v, prop (spot s) = Some v ->
      (exists p, In p (pixel s) /\ Array2.place image p = Raise IndexError) ->
      store_property_in_image s image prop = Raise IndexError).
Proof.
  split; [|split; [|split]].
  - intros Hp. unfold store_property_in_image. now rewrite Hp.
  - intros Hne Hv. unfold store_property_in_image, attr. rewrite Hv.
    destruct (pixel s); [congruence | reflexivity].
  - intros v Hv Hin. rewrite (store_with_value _ _ _ _ Hv).
    now apply write_all_succeeds.
  - intros v Hv Hex. rewrite (store_with_value _ _ _ _ Hv).
    now apply write_all_fails.
Qed.

Lemma contrast_eqb_eq (a b : contrast) : contrast_eqb a b = true <-> a = b.
Proof. destruct a, b; cbn; split; congruence. Qed.

Lemma set_image_same (imgs : images) (prop : contrast)
    (image : list (list float)) :
  set_image imgs prop image prop = image.
Proof.
  unfold set_image. destruct (contrast_eqb prop prop) eqn:E; [reflexivity|].
  assert (contrast_eqb prop prop = true) by now apply contrast_eqb_eq.
  congruence.
Qed.

Lemma set_image_other (imgs : images) (prop prop' : contrast)
    (image : list (list float)) :
  prop' <> prop -> set_image imgs prop image prop' = imgs prop'.
Proof.
  intros Hne. unfold set_image.
  destruct (contrast_eqb prop' prop) eqn:E; [|reflexivity].
  apply contrast_eqb_eq in E. contradiction.
Qed.

Lemma allprops_complete (prop : contrast) : In prop allprops.
Proof. destruct prop; cbn; tauto. Qed.

Lemma allprops_NoDup : NoDup allprops.
Proof.
  unfold allprops.
  repeat (constructor; [cbn; intuition discriminate|]). constructor.
Qed.

Lemma write_all_raises {A : Type} (v : A) (ps : list (Z * Z)) :
  forall (a : list (list A)) (e : exn),
    foldM (fun a p => Array2.setitem a p v) ps a = Raise e -> e = IndexError.
Proof.
  induction ps as [|p ps IH]; intros a e H; cbn [foldM] in H; [discriminate|].
  destruct (Array2.setitem a p v) as [a1|e1] eqn:H1; cbn [bind] in H.
  - eapply IH; eassumption.
  - injection H as <-. now apply setitem_raises in H1.
Qed.

Lemma one_update_raises (s : located) (prop : contrast)
    (image : list (list float)) (e : exn) :
  one_update s prop image = Raise e -> e = IndexError.
Proof.
  unfold one_update. destruct (value_of prop (spot s)) as [v|] eqn:Hv;
    [|discriminate].
  rewrite (store_with_value _ _ _ _ Hv). apply write_all_raises.
Qed.

(** The loop over [allprops] for one spot: each image is updated on its
    own, and the loop raises when the update of one image does. *)
Lemma props_loop (s : located) (props : list contrast) :
  NoDup props ->
  forall imgs : images,
    match
      foldM
        (fun imgs prop =>
           match value_of prop (spot s) with
           | Some _ =>
               image <- store_property_in_image s (imgs prop)
                          (value_of prop) ;;
               Ok (set_image imgs prop image)
           | None => Ok imgs
           end)
        props imgs
    with
    | Ok imgs' =>
        (forall prop, In prop props ->
           one_update s prop (imgs prop) = Ok (imgs' prop))
        /\ (forall prop, ~ In prop props -> imgs' prop = imgs prop)
    | Raise e =>
        e = IndexError
        /\ exists prop,
             In prop props /\ one_update s prop (imgs prop) = Raise IndexError
    end.
Proof.
  unfold images.
  induction 1 as [|prop props Hnin Hnd IH]; intros imgs; cbn [foldM].
  - split; [intros prop []|reflexivity].
  - assert (Htail : forall imgs1 : contrast -> list (list float),
              one_update s prop (imgs prop) = Ok (imgs1 prop) ->
              (forall prop', prop' <> prop -> imgs1 prop' = imgs prop') ->
              forall R : result (contrast -> list (list float)),
              match R with
              | Ok imgs' =>
                  (forall prop, In prop props ->
                     one_update s prop (imgs1 prop) = Ok (imgs' prop))
                  /\ (forall prop, ~ In prop props -> imgs' prop = imgs1 prop)
              | Raise e =>
                  e = IndexError
                  /\ exists prop,
                       In prop props
                       /\ one_update s prop (imgs1 prop) = Raise IndexError
              end ->
              match R with
              | Ok imgs' =>
                  (forall prop0, In prop0 (prop :: props) ->
                     one_update s prop0 (imgs prop0) = Ok (imgs' prop0))
                  /\ (forall prop0, ~ In prop0 (prop :: props) ->
                      imgs' prop0 = imgs prop0)
              | Raise e =>
                  e = IndexError
                  /\ exists prop0,
                       In prop0 (prop :: props)
                       /\ one_update s prop0 (imgs prop0) = Raise IndexError
              end).
    { intros imgs1 H1 Hother [imgs'|e] HR.
      - destruct HR as [Hin Hout]. split.
        + intros prop' [<-|Hp'].
          * rewrite (Hout _ Hnin). exact H1.
          * rewrite <- (Hother prop') by (intros ->; contradiction).
            now apply Hin.
        + intros prop' Hn. rewrite Hout by (intro; apply Hn; now right).
          apply Hother. intros ->. apply Hn. now left.
      - destruct HR as [-> (prop' & Hp' & Hr)]. split; [reflexivity|].
        exists prop'. split; [now right|].
        rewrite <- (Hother prop') by (intros ->; contradiction). exact Hr. }
    destruct (value_of prop (spot s)) as [v|] eqn:Hv.
    + destruct (store_property_in_image s (imgs prop) (value_of prop))
        as [image|e] eqn:H1; cbn [bind].
      * apply (Htail (set_image imgs prop image)).
        -- unfold one_update. rewrite Hv, set_image_same. exact H1.
        -- intros prop' Hne. now apply set_image_other.
        -- apply IH.
      * assert (e = IndexError).
        { rewrite (store_with_value _ _ _ _ Hv) in H1.
          eapply write_all_raises; eassumption. }
        subst e. split; [reflexivity|]. exists prop. split; [now left|].
        unfold one_update. now rewrite Hv.
    + cbn [bind]. apply (Htail imgs).
      * unfold one_update. now rewrite Hv.
      * reflexivity.
      * apply IH.
Qed.

Lemma update_images_spec (validspots : list located) :
  forall imgs : images,
    match update_images validspots imgs with
    | Ok imgs' =>
        forall prop, update_image prop validspots (imgs prop) = Ok (imgs' prop)
    | Raise e =>
        e = IndexError
        /\ exists prop,
             update_image prop validspots (imgs prop) = Raise IndexError
    end.
Proof.
  unfold images.
  induction validspots as [|s vs IH]; intros imgs.
  - cbn. reflexivity.
  - unfold update_images, update_image. cbn [foldM].
    pose proof (props_loop s allprops allprops_NoDup imgs) as Hs.
    unfold images in Hs.
    destruct (foldM _ allprops imgs) as [imgs1|e]; cbn [bind].
    + destruct Hs as [Hin _].
      specialize (IH imgs1). unfold update_images, update_image in IH.
      destruct (foldM _ vs imgs1) as [imgs'|e].
      * intros prop. rewrite (Hin prop (allprops_complete prop)). cbn [bind].
        apply IH.
      * destruct IH as [-> (prop & Hr)]. split; [reflexivity|].
        exists prop. rewrite (Hin prop (allprops_complete prop)). cbn [bind].
        exact Hr.
    + destruct Hs as [-> (prop & _ & Hr)]. split; [reflexivity|].
      exists prop. now rewrite Hr.
Qed.

(** X14.  [update_images] never raises [AttributeError]: a property that
    was not assigned on a spot is passed over.  It updates the images
    independently of each other: when it returns, the image of each
    property is what the loop over the valid spots makes of it on its own;
    and it raises, an [IndexError], exactly when this loop raises for the
    image of some property. *)
Theorem update_images_image_by_image (validspots : list located)
    (imgs : images) :
  (exists imgs',
     update_images validspots imgs = Ok imgs'
     /\ forall prop,
          update_image prop validspots (imgs prop) = Ok (imgs' prop))
  \/ (update_images validspots imgs = Raise IndexError
      /\ exists prop,
           update_image prop validspots (imgs prop) = Raise IndexError).
Proof.
  pose proof (update_images_spec validspots imgs) as H.
  destruct (update_images validspots imgs) as [imgs'|e].
  - left. eauto.
  - right. destruct H as [-> H]. auto.
Qed.

Lemma covers_true {A : Type} (a : list (list A)) (ps : list (Z * Z))
    (rc : nat * nat) :
  Array2.covers a ps rc = true ->
  exists p, In p ps /\ Array2.place a p = Ok rc.
Proof.
  unfold Array2.covers. intros H. apply existsb_exists in H.
  destruct H as (p & Hp & H). exists p. split; [assumption|].
  destruct (Array2.place a p) as [[r c]|e]; [|discriminate].
  apply andb_prop in H. destruct H as [Hr Hc].
  apply Nat.eqb_eq in Hr, Hc. destruct rc; cbn [fst snd] in *. congruence.
Qed.

(** Where what an image holds after the loop over the valid spots comes
    from: it was there before, or it is the value of the property on a spot
    that has the place among its pixels. *)
Lemma update_image_origin (prop : contrast) (validspots : list located) :
  forall image image' : list (list float),
    update_image prop validspots image = Ok image' ->
    (forall q, Array2.place image' q = Array2.place image q)
    /\ (forall rc v, Array2.at_place image' rc = Some v ->
        Array2.at_place image rc = Some v
        \/ exists s p,
             In s validspots /\ In p (pixel s)
             /\ value_of prop (spot s) = Some v
             /\ Array2.place image p = Ok rc).
Proof.
  induction validspots as [|s vs IH]; intros image image' H;
    unfold update_image in H; cbn [foldM] in H.
  - injection H as <-. split; [reflexivity | auto].
  - apply bind_ok in H. destruct H as (image1 & H1 & H).
    destruct (IH _ _ H) as (Hshape' & Hfrom). clear IH.
    assert (Hone : (forall q, Array2.place image1 q = Array2.place image q)
                   /\ (forall rc v, Array2.at_place image1 rc = Some v ->
                       Array2.at_place image rc = Some v
                       \/ exists p, In p (pixel s)
                                    /\ value_of prop (spot s) = Some v
                                    /\ Array2.place image p = Ok rc)).
    { unfold one_update in H1.
      destruct (value_of prop (spot s)) as [v0|] eqn:Hv.
      - rewrite (store_with_value _ _ _ _ Hv) in H1.
        destruct (write_all_ok _ _ _ _ H1) as (Hshape & _ & Hat).
        split; [exact Hshape|]. intros rc v Hrc. rewrite Hat in Hrc.
        destruct (Array2.covers image (pixel s) rc) eqn:Hc; [|now left].
        right. injection Hrc as <-.
        destruct (covers_true _ _ _ Hc) as (p & Hp & Hpl). eauto.
      - injection H1 as <-. split; [reflexivity | auto]. }
    destruct Hone as (Hshape & Hone). split.
    + intros q. now rewrite Hshape', Hshape.
    + intros rc v Hrc. destruct (Hfrom _ _ Hrc) as [H1'|(s' & p & Hs' & Hp & Hv & Hpl)].
      * destruct (Hone _ _ H1') as [?|(p & Hp & Hv & Hpl)]; [now left|].
        right. exists s, p. repeat split; auto. now left.
      * right. exists s', p. repeat split; auto; [now right|].
        now rewrite <- Hshape.
Qed.

Lemma at_place_init (datasize1 datasize2 : nat) (prop : contrast)
    (rc : nat * nat) (v : float) :
  Array2.at_place (initContrastImages datasize1 datasize2 prop) rc = Some v ->
  v = nan.
Proof.
  unfold Array2.at_place, initContrastImages. intros H.
  destruct (nth_error (repeat (repeat nan datasize2) datasize1) (fst rc))
    as [row|] eqn:Hrow; [|discriminate].
  apply nth_error_In, repeat_spec in Hrow. subst row.
  apply nth_error_In, repeat_spec in H. assumption.
Qed.

(** X15.  After [initContrastImages] and [update_images], an image holds a
    number only where a spot put it: when a pixel of the image of a property
    is not NaN, it is a pixel of a valid spot that has the property, and it
    holds the value of the property on this spot.  The images keep the
    shape they were given. *)
Theorem pixels_off_the_spots_stay_nan (datasize1 datasize2 : nat)
    (validspots : list located) (imgs' : images) :
  update_images validspots (initContrastImages datasize1 datasize2)
  = Ok imgs' ->
  forall prop,
    (forall q, Array2.place (imgs' prop) q
               = Array2.place (initContrastImages datasize1 datasize2 prop) q)
    /\ (forall q v, Array2.getitem (imgs' prop) q = Ok v -> isnan v = false ->
        exists s p rc,
          In s validspots /\ In p (pixel s)
          /\ value_of prop (spot s) = Some v
          /\ Array2.place (imgs' prop) p = Ok rc
          /\ Array2.place (imgs' prop) q = Ok rc).
Proof.
  intros H prop.
  pose proof (update_images_spec validspots
                (initContrastImages datasize1 datasize2)) as Hs.
  rewrite H in Hs. specialize (Hs prop).
  destruct (update_image_origin _ _ _ _ Hs) as (Hshape & Hfrom).
  split; [exact Hshape|]. intros q v Hq Hn.
  unfold Array2.getitem in Hq.
  destruct (Array2.place (imgs' prop) q) as [rc|e] eqn:Hrc; cbn [bind] in Hq;
    [|discriminate].
  destruct (Array2.at_place (imgs' prop) rc) as [v'|] eqn:Hat;
    cbn [of_option] in Hq; [|discriminate].
  injection Hq as ->.
  destruct (Hfrom _ _ Hat) as [Hinit|(s & p & Hs' & Hp & Hv & Hpl)].
  - apply at_place_init in Hinit. subst v. discriminate.
  - exists s, p, rc. repeat split; auto. now rewrite Hshape.
Qed.

Lemma pixels_off_the_spots_stay_nan_witness :
  let validspots :=
    [mkLocated (Samples.spot_with_M_ex one) [(0, 1); (-1, 0)]%Z] in
  exists imgs',
    update_images validspots (initContrastImages 2 2) = Ok imgs'
    /\ forall prop,
         (forall q, Array2.place (imgs' prop) q
                    = Array2.place (initContrastImages 2 2 prop) q)
         /\ (forall q v, Array2.getitem (imgs' prop) q = Ok v ->
             isnan v = false ->
             exists s p rc,
               In s validspots /\ In p (pixel s)
               /\ value_of prop (spot s) = Some v
               /\ Array2.place (imgs' prop) p = Ok rc
               /\ Array2.place (imgs' prop) q = Ok rc).
Proof.
  intros validspots. eexists. split; [vm_compute; reflexivity|].
  apply (pixels_off_the_spots_stay_nan 2 2 validspots).
  vm_compute. reflexivity.
Defined.

(** ** The region of the blank fit *)

Import PixelList.

Local Open Scope string_scope.

Lemma foldM_app {A S : Type} (f : S -> A -> result S) (l1 l2 : list A) :
  forall s, foldM f (l1 ++ l2) s = (s' <- foldM f l1 s ;; foldM f l2 s').
Proof.
  induction l1 as [|x l1 IH]; intros s; cbn [app foldM bind]; [reflexivity|].
  destruct (f s x); cbn [bind]; [apply IH | reflexivity].
Qed.

Lemma foldM_map {A B S : Type} (f : S -> B -> result S) (g : A -> B)
    (l : list A) :
  forall s, foldM f (map g l) s = foldM (fun s x => f s (g x)) l s.
Proof.
  induction l as [|x l IH]; intros s; cbn [map foldM]; [reflexivity|].
  destruct (f s (g x)); cbn [bind]; [apply IH | reflexivity].
Qed.

(** The two nested loops over the columns and the rows are one loop over
    the pixels of the rectangle. *)
Lemma nested_loops {S : Type} (g : S -> Z * Z -> result S) (rows cols : list Z) :
  forall s,
    foldM (fun s col => foldM (fun s row => g s (row, col)) rows s) cols s
    = foldM g (flat_map (fun col => map (fun row => (row, col)) rows) cols) s.
Proof.
  induction cols as [|col cols IH]; intros s; cbn [foldM flat_map];
    [reflexivity|].
  rewrite foldM_app, foldM_map.
  destruct (foldM (fun s row => g s (row, col)) rows s); cbn [bind];
    [apply IH | reflexivity].
Qed.

Lemma in_py_range2 (a b x : Z) : In x (py_range2 a b) <-> (a <= x < b)%Z.
Proof.
  unfold py_range2. rewrite in_map_iff. split.
  - intros (i & <- & Hi). apply in_seq in Hi. lia.
  - intros H. exists (Z.to_nat (x - a)). split; [lia|]. apply in_seq. lia.
Qed.

Lemma in_rectangle_pixels (shape : rectangle) (row col : Z) :
  In (row, col) (rectangle_pixels shape) <-> inside shape row col = true.
Proof.
  unfold rectangle_pixels, inside. rewrite in_flat_map. split.
  - intros (c & Hc & Hin). apply in_map_iff in Hin.
    destruct Hin as (r & E & Hr). injection E as -> ->.
    apply in_py_range2 in Hc, Hr.
    rewrite !andb_true_iff, !Z.leb_le. lia.
  - rewrite !andb_true_iff, !Z.leb_le. intros H. exists col. split.
    + apply in_py_range2. lia.
    + apply in_map_iff. exists row. split; [reflexivity|].
      apply in_py_range2. lia.
Qed.

Lemma asserted_ok (datasize : Z * Z * Z) (shape : rectangle)
    (boolimage : list (list bool)) :
  asserted datasize shape = true ->
  pixel_list datasize shape boolimage
  = foldM
      (fun boolimage p =>
         if String.eqb (op shape) "include" then
           Array2.setitem boolimage p true
         else if String.eqb (op shape) "exclude" then
           Array2.setitem boolimage p false
         else Raise ValueError)
      (rectangle_pixels shape) boolimage.
Proof.
  unfold asserted, pixel_list. destruct datasize as [[n d1] d2].
  intros H. apply andb_prop in H. destruct H as [H H3].
  apply andb_prop in H. destruct H as [H1 H2].
  rewrite H1, H2, H3. cbn [assert bind].
  apply (nested_loops
           (fun boolimage p =>
              if String.eqb (op shape) "include" then
                Array2.setitem boolimage p true
              else if String.eqb (op shape) "exclude" then
                Array2.setitem boolimage p false
              else Raise ValueError)).
Qed.

Lemma asserted_fails (datasize : Z * Z * Z) (shape : rectangle)
    (boolimage : list (list bool)) :
  asserted datasize shape = false ->
  pixel_list datasize shape boolimage = Raise AssertionError.
Proof.
  unfold asserted, pixel_list. destruct datasize as [[n d1] d2].
  destruct (lower shape >=? upper shape)%Z; [|reflexivity].
  destruct ((left shape >=? 0)%Z && (upper shape >=? 0)%Z); [|reflexivity].
  destruct ((right shape <? d2)%Z && (lower shape <? d1)%Z); [|reflexivity].
  discriminate.
Qed.

Lemma py_index_nonneg (n : nat) (i : Z) (k : nat) :
  (0 <= i)%Z -> py_index n i = Ok k -> k = Z.to_nat i.
Proof.
  unfold py_index. intros Hi.
  destruct (Z.leb_spec 0 i) as [H0|H0]; [|lia].
  destruct (Z.ltb_spec i (Z.of_nat n)) as [H1|H1]; cbn [andb].
  - congruence.
  - destruct (Z.ltb_spec i 0) as [H3|H3]; [lia|].
    rewrite andb_false_r. discriminate.
Qed.

Lemma place_nonneg {A : Type} (a : list (list A)) (row col : Z)
    (rc : nat * nat) :
  (0 <= row)%Z -> (0 <= col)%Z ->
  Array2.place a (row, col) = Ok rc -> rc = (Z.to_nat row, Z.to_nat col).
Proof.
  unfold Array2.place. cbn [fst snd]. intros Hr Hc H.
  apply bind_ok in H. destruct H as (r & Hr' & H).
  destruct (nth_error a r) as [line|]; cbn [of_option bind] in H;
    [|discriminate].
  apply bind_ok in H. destruct H as (c & Hc' & H). injection H as <-.
  f_equal; eapply py_index_nonneg; eassumption.
Qed.

(** X16.  When [pixel_list] returns, the image has the shape it had, every
    pixel of the rectangle (its four sides included) is [True] for the
    operation ['include'] and [False] for ['exclude'], and every pixel
    outside the rectangle is what it was. *)
Theorem pixel_list_marks_the_rectangle (datasize : Z * Z * Z)
    (shape : rectangle) (boolimage boolimage' : list (list bool)) :
  pixel_list datasize shape boolimage = Ok boolimage' ->
  (forall q, Array2.place boolimage' q = Array2.place boolimage q)
  /\ (forall row col, (0 <= row)%Z -> (0 <= col)%Z ->
      Array2.getitem boolimage' (row, col)
      = if inside shape row col
        then Ok (String.eqb (op shape) "include")
        else Array2.getitem boolimage (row, col)).
Proof.
  intros H.
  destruct (asserted datasize shape) eqn:Ha;
    [|rewrite (asserted_fails _ _ _ Ha) in H; discriminate].
  rewrite (asserted_ok _ _ _ Ha) in H.
  assert (Hpos : forall row col, In (row, col) (rectangle_pixels shape) ->
            (0 <= row)%Z /\ (0 <= col)%Z).
  { intros row col Hin. apply in_rectangle_pixels in Hin.
    unfold inside in Hin. unfold asserted in Ha.
    destruct datasize as [[n d1] d2].
    rewrite !andb_true_iff in Hin, Ha. rewrite !Z.leb_le in Hin.
    rewrite !Z.geb_le in Ha. lia. }
  destruct (rectangle_pixels shape) as [|p0 ps] eqn:Hps.
  - cbn [foldM] in H. injection H as <-. split; [reflexivity|].
    intros row col _ _.
    destruct (inside shape row col) eqn:Hin; [|reflexivity].
    apply in_rectangle_pixels in Hin. rewrite Hps in Hin. destruct Hin.
  - rewrite <- Hps in *. clear Hps p0 ps.
    set (v := String.eqb (op shape) "include").
    assert (Hw : foldM (fun a p => Array2.setitem a p v)
                   (rectangle_pixels shape) boolimage = Ok boolimage').
    { unfold v. destruct (String.eqb (op shape) "include"); [exact H|].
      destruct (String.eqb (op shape) "exclude"); [exact H|].
      destruct (rectangle_pixels shape); [|discriminate].
      exact H. }
    destruct (write_all_ok _ _ _ _ Hw) as (Hshape & Hin & Hat).
    split; [exact Hshape|]. intros row col Hrow Hcol.
    destruct (inside shape row col) eqn:Hi.
    + apply in_rectangle_pixels in Hi.
      destruct (Hin _ Hi) as (rc & Hrc).
      rewrite (getitem_by_place boolimage' _ rc) by (now rewrite Hshape).
      rewrite Hat, (covers_in _ _ _ _ Hi Hrc). reflexivity.
    + unfold Array2.getitem. rewrite Hshape.
      destruct (Array2.place boolimage (row, col)) as [rc|e] eqn:Hrc;
        cbn [bind]; [|reflexivity].
      rewrite Hat.
      destruct (Array2.covers boolimage (rectangle_pixels shape) rc) eqn:Hc;
        [|reflexivity].
      destruct (covers_true _ _ _ Hc) as ([row' col'] & Hp & Hpl).
      destruct (Hpos _ _ Hp) as [Hr' Hc'].
      apply place_nonneg in Hpl; [|assumption..].
      apply place_nonneg in Hrc; [|assumption..].
      assert (row' = row /\ col' = col) as [-> ->].
      { rewrite Hrc in Hpl. injection Hpl as E1 E2. lia. }
      apply in_rectangle_pixels in Hp. congruence.
Qed.

Lemma pixel_list_marks_the_rectangle_witness :
  let shape := mkRectangle 1 2 1 0 "include" in
  let boolimage := [[false; false; false]; [false; false; false]] in
  exists boolimage',
    pixel_list (5, 2, 3)%Z shape boolimage = Ok boolimage'
    /\ (forall q, Array2.place boolimage' q = Array2.place boolimage q)
    /\ (forall row col, (0 <= row)%Z -> (0 <= col)%Z ->
        Array2.getitem boolimage' (row, col)
        = if inside shape row col
          then Ok (String.eqb (op shape) "include")
          else Array2.getitem boolimage (row, col)).
Proof.
  intros shape boolimage. eexists. split; [vm_compute; reflexivity|].
  apply (pixel_list_marks_the_rectangle (5, 2, 3)%Z shape boolimage).
  vm_compute. reflexivity.
Defined.

Lemma place_in_shape {A : Type} (nrows ncols : nat) (a : list (list A))
    (row col : Z) :
  Array2.has_shape nrows ncols a ->
  (0 <= row < Z.of_nat nrows)%Z -> (0 <= col < Z.of_nat ncols)%Z ->
  Array2.place a (row, col) = Ok (Z.to_nat row, Z.to_nat col).
Proof.
  intros [Hl Hrows] Hr Hc. unfold Array2.place, py_index. cbn [fst snd].
  rewrite Hl.
  destruct (Z.leb_spec 0 row); [|lia].
  destruct (Z.ltb_spec row (Z.of_nat nrows)); [|lia]. cbn [andb bind].
  destruct (nth_error a (Z.to_nat row)) as [line|] eqn:Hline.
  - cbn [of_option bind]. rewrite (Hrows line) by (eapply nth_error_In; eassumption).
    destruct (Z.leb_spec 0 col); [|lia].
    destruct (Z.ltb_spec col (Z.of_nat ncols)); [|lia]. reflexivity.
  - apply nth_error_None in Hline. lia.
Qed.

(** X17.  What [pixel_list] does in each case.  A rectangle that fails one
    of the three assertions (its lower side above its upper side, a negative
    left or upper side, a right or lower side off the data) is an
    [AssertionError].  Otherwise, a rectangle whose right side is before its
    left side has no pixel: the image is returned as it is, whatever the
    operation; a rectangle with a pixel and an operation that is neither
    ['include'] nor ['exclude'] is a [ValueError]; and with one of these two
    operations the function returns, on an image that has the rows and the
    columns of the data. *)
Theorem pixel_list_outcome (datasize0 datasize1 datasize2 : Z)
    (shape : rectangle) (boolimage : list (list bool)) :
  let datasize := (datasize0, datasize1, datasize2) in
  (asserted datasize shape = false ->
   pixel_list datasize shape boolimage = Raise AssertionError)
  /\ (asserted datasize shape = true -> (right shape < left shape)%Z ->
      pixel_list datasize shape boolimage = Ok boolimage)
  /\ (asserted datasize shape = true -> (left shape <= right shape)%Z ->
      op shape <> "include" -> op shape <> "exclude" ->
      pixel_list datasize shape boolimage = Raise ValueError)
  /\ (asserted datasize shape = true ->
      op shape = "include" \/ op shape = "exclude" ->
      Array2.has_shape (Z.to_nat datasize1) (Z.to_nat datasize2) boolimage ->
      exists boolimage', pixel_list datasize shape boolimage = Ok boolimage').
Proof.
  intros datasize. subst datasize. split; [|split; [|split]].
  - apply asserted_fails.
  - intros Ha Hlt. rewrite (asserted_ok _ _ _ Ha).
    unfold rectangle_pixels, py_range2.
    replace (Z.to_nat (right shape + 1 - left shape)) with O by lia.
    reflexivity.
  - intros Ha Hle Hi He. rewrite (asserted_ok _ _ _ Ha).
    assert (Hin : In (upper shape, left shape) (rectangle_pixels shape)).
    { apply in_rectangle_pixels. unfold inside. cbv beta iota delta [asserted] in Ha.
      rewrite !andb_true_iff in Ha |- *.
      rewrite !Z.leb_le. rewrite !Z.geb_le in Ha. lia. }
    destruct (rectangle_pixels shape) as [|p ps]; [destruct Hin|].
    cbn [foldM].
    destruct (String.eqb_spec (op shape) "include"); [contradiction|].
    destruct (String.eqb_spec (op shape) "exclude"); [contradiction|].
    reflexivity.
  - intros Ha Hop Hshape. rewrite (asserted_ok _ _ _ Ha).
    assert (Hpl : forall p, In p (rectangle_pixels shape) ->
              exists rc, Array2.place boolimage p = Ok rc).
    { intros [row col] Hp. apply in_rectangle_pixels in Hp.
      unfold inside in Hp. cbv beta iota delta [asserted] in Ha.
      repeat match goal with
             | H : _ && _ = true |- _ => apply andb_prop in H; destruct H
             end.
      repeat match goal with
             | H : (_ <=? _)%Z = true |- _ => apply Z.leb_le in H
             | H : (_ >=? _)%Z = true |- _ => apply Z.geb_le in H
             | H : (_ <? _)%Z = true |- _ => apply Z.ltb_lt in H
             end.
      eexists. eapply place_in_shape; [eassumption | lia | lia]. }
    destruct Hop as [Hop|Hop]; rewrite Hop; cbn [String.eqb];
      now apply write_all_succeeds.
Qed.

(** ** The images of the output files *)

Import OutputFiles.

Lemma update_row_spec (sc : list float) :
  forall new r,
    update_row sc new = Ok r ->
    length r = length sc /\ length new = length sc
    /\ forall c,
         nth_error r c
         = match nth_error new c with
           | Some y => if isnan y then nth_error sc c else Some y
           | None => None
           end.
Proof.
  induction sc as [|x sc IH]; intros [|y new] r H; cbn [update_row] in H;
    try discriminate.
  - injection H as <-. repeat split. intros [|c]; reflexivity.
  - apply bind_ok in H. destruct H as (r0 & H0 & H). injection H as <-.
    destruct (IH _ _ H0) as (L1 & L2 & Hn). cbn [length].
    repeat split; try congruence.
    intros [|c]; cbn [nth_error]; [now destruct (isnan y) | apply Hn].
Qed.

Lemma update_row_same_length (sc : list float) :
  forall new, length new = length sc -> exists r, update_row sc new = Ok r.
Proof.
  induction sc as [|x sc IH]; intros [|y new] H; try discriminate;
    cbn [update_row]; [eauto|].
  destruct (IH new) as (r & ->); [now injection H|]. cbn [bind]. eauto.
Qed.

Lemma update_where_not_nan_spec (sc : list (list float)) :
  forall new r,
    update_where_not_nan sc new = Ok r ->
    map (@length float) r = map (@length float) sc
    /\ map (@length float) new = map (@length float) sc
    /\ forall rc,
         Array2.at_place r rc
         = match Array2.at_place new rc with
           | Some y => if isnan y then Array2.at_place sc rc else Some y
           | None => None
           end.
Proof.
  induction sc as [|x sc IH]; intros [|y new] r H;
    cbn [update_where_not_nan] in H; try discriminate.
  - injection H as <-. repeat split. intros [[|i] c]; reflexivity.
  - apply bind_ok in H. destruct H as (row & Hrow & H).
    apply bind_ok in H. destruct H as (r0 & H0 & H). injection H as <-.
    destruct (IH _ _ H0) as (L1 & L2 & Hn).
    destruct (update_row_spec _ _ _ Hrow) as (R1 & R2 & Hc).
    cbn [map]. repeat split; try congruence.
    intros [[|i] c]; unfold Array2.at_place; cbn [fst snd nth_error].
    + apply Hc.
    + apply (Hn (i, c)).
Qed.

Lemma update_where_not_nan_same_shape (sc : list (list float)) :
  forall new,
    map (@length float) new = map (@length float) sc ->
    exists r, update_where_not_nan sc new = Ok r.
Proof.
  induction sc as [|x sc IH]; intros [|y new] H; try discriminate;
    cbn [update_where_not_nan]; [eauto|].
  cbn [map] in H. injection H as Hl Hm.
  destruct (update_row_same_length x y Hl) as (row & ->).
  destruct (IH new Hm) as (r & ->). cbn [bind]. eauto.
Qed.

(** Whether a place is in an array depends on the shape only. *)
Lemma at_place_shape {A B : Type} (a : list (list A)) :
  forall (b : list (list B)) (rc : nat * nat),
    map (@length A) a = map (@length B) b ->
    Array2.at_place a rc = None <-> Array2.at_place b rc = None.
Proof.
  intros b [r c] H. unfold Array2.at_place. cbn [fst snd].
  assert (Hr : option_map (@length A) (nth_error a r)
               = option_map (@length B) (nth_error b r)).
  { rewrite <- !nth_error_map. now rewrite H. }
  destruct (nth_error a r) as [x|], (nth_error b r) as [y|];
    cbn [option_map] in Hr; try discriminate; [|tauto].
  injection Hr as Hl. rewrite !nth_error_None. lia.
Qed.

(** Two arrays of the same shape that hold the same at every place are
    equal. *)
Lemma array_ext {A : Type} (a : list (list A)) :
  forall b : list (list A),
    map (@length A) a = map (@length A) b ->
    (forall rc, Array2.at_place a rc = Array2.at_place b rc) ->
    a = b.
Proof.
  induction a as [|x a IH]; intros [|y b] Hs Hat; try discriminate;
    [reflexivity|].
  cbn [map] in Hs. injection Hs as Hl Hs. f_equal.
  - apply nth_error_ext. intros c. apply (Hat (O, c)).
  - apply IH; [assumption|]. intros [r c]. apply (Hat (S r, c)).
Qed.

(** The image that [combine_outputs] builds from a first image and the
    others: it has the shape of the first, which the others must have too;
    a number it holds is held by one of the images; and where it holds NaN
    all the images hold NaN. *)
Lemma combine_spec (rest : list (list (list float))) :
  forall first r,
    foldM update_where_not_nan rest first = Ok r ->
    map (@length float) r = map (@length float) first
    /\ (forall f, In f rest ->
        map (@length float) f = map (@length float) first)
    /\ (forall rc v, Array2.at_place r rc = Some v ->
        (isnan v = false ->
         exists f, In f (first :: rest) /\ Array2.at_place f rc = Some v)
        /\ (isnan v = true ->
            forall f w, In f (first :: rest) ->
                        Array2.at_place f rc = Some w -> isnan w = true)).
Proof.
  induction rest as [|new rest IH]; intros first r H; cbn [foldM] in H.
  - injection H as <-. split; [reflexivity|]. split; [intros f []|].
    intros rc v Hv. split.
    + intros _. exists first. split; [now left | assumption].
    + intros Hn f w [<-|[]] Hw. congruence.
  - apply bind_ok in H. destruct H as (a1 & H1 & H).
    destruct (update_where_not_nan_spec _ _ _ H1) as (S1 & S2 & Hat1).
    destruct (IH _ _ H) as (Sr & Srest & Hchar). clear IH.
    split; [congruence|]. split.
    + intros f [<-|Hf]; [assumption|]. rewrite (Srest f Hf). assumption.
    + intros rc v Hv. destruct (Hchar rc v Hv) as [Hdata Hnan]. split.
      * intros Hn. destruct (Hdata Hn) as (f & [<-|Hf] & Hfv).
        -- rewrite Hat1 in Hfv.
           destruct (Array2.at_place new rc) as [y|] eqn:Hy; [|discriminate].
           destruct (isnan y) eqn:Hny.
           ++ exists first. split; [now left | assumption].
           ++ exists new. split; [right; now left | congruence].
        -- exists f. split; [right; now right | assumption].
      * intros Hn f w Hf Hw.
        assert (Ha1 : forall z, Array2.at_place a1 rc = Some z ->
                                isnan z = true).
        { intros z Hz. apply (Hnan Hn a1 z); [now left | assumption]. }
        destruct Hf as [<-|[<-|Hf]].
        -- destruct (Array2.at_place new rc) as [y|] eqn:Hy.
           ++ destruct (isnan y) eqn:Hny.
              ** apply Ha1. rewrite Hat1, Hy, Hny. assumption.
              ** specialize (Ha1 y). rewrite Hat1, Hy, Hny in Ha1.
                 specialize (Ha1 eq_refl). congruence.
           ++ apply (at_place_shape new first rc S2) in Hy. congruence.
        -- destruct (isnan w) eqn:Hnw; [reflexivity|].
           specialize (Ha1 w). rewrite Hat1, Hw, Hnw in Ha1.
           now specialize (Ha1 eq_refl).
        -- apply (Hnan Hn f w); [now right | assumption].
Qed.

Lemma combine_succeeds (rest : list (list (list float))) :
  forall first,
    (forall f, In f rest ->
       map (@length float) f = map (@length float) first) ->
    exists r, foldM update_where_not_nan rest first = Ok r.
Proof.
  induction rest as [|new rest IH]; intros first Hs; cbn [foldM]; [eauto|].
  destruct (update_where_not_nan_same_shape first new) as (a1 & H1);
    [apply Hs; now left|].
  rewrite H1. cbn [bind].
  destruct (update_where_not_nan_spec _ _ _ H1) as (S1 & _ & _).
  apply IH. intros f Hf. rewrite S1. apply Hs. now right.
Qed.

(** X18.  The image that [combine_outputs] writes does not depend on the
    order in which the files are listed, as long as the files do not
    contradict each other: when no two files hold two different numbers at
    the same pixel, as it is for processes that worked on different spots,
    the same files in another order combine into the same image. *)
Theorem combine_outputs_in_any_order (files files' : list (list (list float)))
    (r : list (list float)) :
  Permutation files files' ->
  never_disagree files ->
  combine_outputs files = Ok r ->
  combine_outputs files' = Ok r.
Proof.
  intros Hperm Hagree H.
  destruct files as [|first rest]; [discriminate|].
  destruct files' as [|first' rest'];
    [apply Permutation_sym, Permutation_nil in Hperm; discriminate|].
  cbn [combine_outputs] in H |- *.
  destruct (combine_spec _ _ _ H) as (Sr & Srest & Hchar).
  assert (Hshape : forall f, In f (first :: rest) ->
            map (@length float) f = map (@length float) first).
  { intros f [<-|Hf]; [reflexivity | now apply Srest]. }
  assert (Hin' : forall f, In f (first' :: rest') -> In f (first :: rest)).
  { intros f Hf. eapply Permutation_in; [apply Permutation_sym|]; eassumption. }
  assert (Hin : forall f, In f (first :: rest) -> In f (first' :: rest')).
  { intros f Hf. eapply Permutation_in; eassumption. }
  destruct (combine_succeeds rest' first') as (r' & H').
  { intros f Hf. rewrite (Hshape f) by (apply Hin'; now right).
    symmetry. apply Hshape, Hin'. now left. }
  rewrite H'. f_equal.
  destruct (combine_spec _ _ _ H') as (Sr' & _ & Hchar').
  assert (Sfirst' : map (@length float) first' = map (@length float) first)
    by (apply Hshape, Hin'; now left).
  apply array_ext; [congruence|]. intros rc.
  destruct (Array2.at_place r rc) as [v|] eqn:Hv.
  - destruct (Array2.at_place r' rc) as [v'|] eqn:Hv'.
    + f_equal. destruct (Hchar _ _ Hv) as [Hd Hn].
      destruct (Hchar' _ _ Hv') as [Hd' Hn'].
      destruct (isnan v) eqn:Nv, (isnan v') eqn:Nv'.
      * destruct v, v'; try discriminate. reflexivity.
      * destruct (Hd' eq_refl) as (g & Hg & Hgv).
        pose proof (Hn eq_refl g v' (Hin' _ Hg) Hgv). congruence.
      * destruct (Hd eq_refl) as (f & Hf & Hfv).
        pose proof (Hn' eq_refl f v (Hin _ Hf) Hfv). congruence.
      * destruct (Hd eq_refl) as (f & Hf & Hfv).
        destruct (Hd' eq_refl) as (g & Hg & Hgv).
        symmetry. apply (Hagree f g rc v v'); auto; split; assumption.
    + apply (at_place_shape r' r rc) in Hv'; [congruence|congruence].
  - apply (at_place_shape r r' rc) in Hv; [now rewrite Hv | congruence].
Qed.

Lemma combine_outputs_in_any_order_witness :
  let a := [[one; nan]; [nan; nan]] in
  let b := [[nan; nan]; [nan; of_Z 2]] in
  combine_outputs [a; b] = Ok [[one; nan]; [nan; of_Z 2]]
  /\ combine_outputs [b; a] = Ok [[one; nan]; [nan; of_Z 2]].
Proof.
  intros a b. split; [vm_compute; reflexivity|].
  apply (combine_outputs_in_any_order [a; b] [b; a]).
  - apply perm_swap.
  - intros f g rc v w Hf Hg [Hfv Hnv] [Hgw Hnw].
    unfold Array2.at_place in Hfv, Hgw.
    destruct rc as [[|[|r]] [|[|c]]];
      destruct Hf as [<-|[<-|[]]], Hg as [<-|[<-|[]]];
      cbn [fst snd nth_error a b] in Hfv, Hgw;
      rewrite ?nth_error_nil in Hfv, Hgw; try discriminate;
      injection Hfv as <-; injection Hgw as <-; try reflexivity;
      vm_compute in Hnv, Hnw; discriminate.
  - vm_compute. reflexivity.
Defined.

(** ** The result queue *)

Import ResultQueue.

Section QueueFacts.

Variable V : Type.

Lemma getattr_setattr_same (o : object V) (name : String.string) (v : V) :
  getattr (setattr o name v) name = Ok v.
Proof.
  induction o as [|[k w] o IH]; cbn [setattr getattr].
  - now rewrite String.eqb_refl.
  - destruct (String.eqb k name) eqn:E; cbn [getattr]; rewrite E;
      [reflexivity | exact IH].
Qed.

Lemma getattr_setattr_other (o : object V) (name name' : String.string)
    (v : V) :
  name' <> name -> getattr (setattr o name v) name' = getattr o name'.
Proof.
  intros Hne. induction o as [|[k w] o IH]; cbn [setattr getattr].
  - destruct (String.eqb_spec name name'); [congruence | reflexivity].
  - destruct (String.eqb_spec k name) as [->|Hk]; cbn [getattr].
    + destruct (String.eqb_spec name name'); [congruence | reflexivity].
    + destruct (String.eqb k name'); [reflexivity | exact IH].
Qed.

Lemma set_nth_same_value {A : Type} (k : nat) (x : A) (l : list A) :
  nth_error l k = Some x -> set_nth k x l = l.
Proof.
  revert k; induction l as [|y l IH]; intros [|k] H; simpl in *;
    try discriminate.
  - congruence.
  - f_equal. now apply IH.
Qed.

Lemma set_nth_twice {A : Type} (k : nat) (x y : A) (l : list A) :
  set_nth k y (set_nth k x l) = set_nth k y l.
Proof.
  revert k; induction l as [|z l IH]; intros [|k]; simpl; auto.
  f_equal. apply IH.
Qed.

Lemma merge_one_ok (vs : list (object V)) (a : message V) (s : object V) :
  nth_error vs (spot a) = Some s ->
  merge_one vs a = Ok (set_nth (spot a) (with_attributes s (attributes a)) vs).
Proof.
  unfold merge_one, with_attributes. generalize (attributes a) as l.
  intros l. revert vs s.
  induction l as [|kv l IH]; intros vs s Hs; cbn [foldM fold_left].
  - now rewrite set_nth_same_value.
  - unfold get_object at 1. rewrite Hs. cbn [of_option bind].
    rewrite (IH _ (setattr s (fst kv) (snd kv))).
    + now rewrite set_nth_twice.
    + apply nth_error_set_nth_same. apply nth_error_Some. congruence.
Qed.

Lemma merge_one_no_spot (vs : list (object V)) (a : message V) :
  nth_error vs (spot a) = None -> attributes a <> [] ->
  merge_one vs a = Raise IndexError.
Proof.
  unfold merge_one. intros Hn Hne.
  destruct (attributes a) as [|kv l]; [congruence|].
  cbn [foldM]. unfold get_object. now rewrite Hn.
Qed.

Lemma index_in (myspots : list nat) (si : nat) :
  In si myspots ->
  exists i, index myspots si = Ok i
            /\ Permutation myspots (si :: pop i myspots).
Proof.
  induction myspots as [|x l IH]; intros Hin; [destruct Hin|].
  cbn [index]. destruct (Nat.eqb_spec x si) as [->|Hne].
  - exists O. split; [reflexivity|]. cbn [pop]. apply Permutation_refl.
  - destruct Hin as [?|Hin]; [contradiction|].
    destruct (IH Hin) as (i & -> & Hp). exists (S i). split; [reflexivity|].
    cbn [pop]. eapply perm_trans; [apply perm_skip; exact Hp|].
    apply perm_swap.
Qed.

Lemma index_not_in (myspots : list nat) (si : nat) :
  ~ In si myspots -> index myspots si = Raise ValueError.
Proof.
  induction myspots as [|x l IH]; intros Hn; [reflexivity|].
  cbn [index]. destruct (Nat.eqb_spec x si) as [->|Hne].
  - exfalso. apply Hn. now left.
  - rewrite IH; [reflexivity|]. intros H. apply Hn. now right.
Qed.

(** The loop of [run_mp] on dictionaries that are all awaited, each for
    another spot: they are merged, each into its spot, and the loop goes on
    with the spots that are still awaited. *)
Lemma drain_awaited (l1 l2 : list (message V)) :
  forall (myspots : list nat) (vs : list (object V)),
    NoDup (map (@spot V) l1) -> NoDup myspots ->
    incl (map (@spot V) l1) myspots ->
    (forall si, In si myspots -> si < length vs) ->
    exists vs1 myspots1,
      drain (l1 ++ l2) myspots vs = drain l2 myspots1 vs1
      /\ length vs1 = length vs
      /\ Permutation myspots (map (@spot V) l1 ++ myspots1)
      /\ (forall a s, In a l1 -> nth_error vs (spot a) = Some s ->
          nth_error vs1 (spot a) = Some (with_attributes s (attributes a)))
      /\ (forall si, ~ In si (map (@spot V) l1) ->
          nth_error vs1 si = nth_error vs si).
Proof.
  induction l1 as [|a l1 IH]; intros myspots vs Hnd Hnd' Hincl Hlt.
  - exists vs, myspots. cbn [app map]. repeat split; auto.
    intros a s [].
  - cbn [map] in Hnd, Hincl. inversion Hnd as [|? ? Hnin Hnd1]; subst.
    assert (Ha : In (spot a) myspots) by (apply Hincl; now left).
    destruct myspots as [|x myspots0] eqn:Hm; [destruct Ha|].
    rewrite <- Hm in *. clear Hm x myspots0.
    assert (Hdrain : forall rest,
              drain (a :: rest) myspots vs
              = (vs' <- merge_one vs a ;;
                 i <- index myspots (spot a) ;;
                 drain rest (pop i myspots) vs')).
    { intros rest. destruct myspots; [destruct Ha | reflexivity]. }
    cbn [app]. rewrite Hdrain. clear Hdrain.
    destruct (nth_error vs (spot a)) as [s|] eqn:Hs;
      [|apply nth_error_None in Hs; specialize (Hlt _ Ha); lia].
    rewrite (merge_one_ok _ _ _ Hs). cbn [bind].
    destruct (index_in _ _ Ha) as (i & Hi & Hperm). rewrite Hi. cbn [bind].
    set (vs' := set_nth (spot a) (with_attributes s (attributes a)) vs).
    assert (Hnd2 : NoDup (pop i myspots)).
    { eapply Permutation_NoDup in Hnd'; [|exact Hperm].
      now inversion Hnd'. }
    assert (Hnin2 : ~ In (spot a) (pop i myspots)).
    { eapply Permutation_NoDup in Hnd'; [|exact Hperm].
      now inversion Hnd'. }
    destruct (IH (pop i myspots) vs') as (vs1 & myspots1 & Hd & Hl & Hp & Hin & Hout).
    + assumption.
    + assumption.
    + intros si Hsi.
      assert (In si (spot a :: pop i myspots)).
      { eapply Permutation_in; [exact Hperm|]. apply Hincl. now right. }
      destruct H as [<-|H]; [contradiction | assumption].
    + intros si Hsi. unfold vs'. rewrite set_nth_length. apply Hlt.
      eapply Permutation_in; [apply Permutation_sym; exact Hperm|]. now right.
    + exists vs1, myspots1. split; [exact Hd|]. split.
      { rewrite Hl. unfold vs'. apply set_nth_length. }
      split.
      { cbn [map app]. eapply perm_trans; [exact Hperm|].
        now apply perm_skip. }
      split.
      * intros b t [<-|Hb] Ht.
        -- rewrite Hout by assumption. unfold vs'.
           rewrite nth_error_set_nth_same
             by (apply nth_error_Some; congruence).
           congruence.
        -- apply Hin; [assumption|]. unfold vs'.
           rewrite nth_error_set_nth_other; [assumption|].
           intros E. apply Hnin. rewrite E. now apply in_map.
      * intros si Hsi. rewrite Hout by (intro; apply Hsi; now right).
        unfold vs'. apply nth_error_set_nth_other.
        intros E. apply Hsi. now left.
Qed.

End QueueFacts.

Lemma with_attributes_spec {V : Type} (attrs : list (String.string * V)) :
  forall (s : object V) (key : String.string),
    (NoDup (map fst attrs) ->
     forall v, In (key, v) attrs ->
               getattr (with_attributes s attrs) key = Ok v)
    /\ (~ In key (map fst attrs) ->
        getattr (with_attributes s attrs) key = getattr s key).
Proof.
  unfold with_attributes.
  induction attrs as [|[k w] attrs IH]; intros s key; cbn [fold_left map].
  - split; [intros _ v [] | reflexivity].
  - cbn [fst snd]. destruct (IH (setattr s k w) key) as [IH1 IH2]. split.
    + intros Hnd v [E|Hin]; inversion Hnd as [|? ? Hnin Hnd']; subst.
      * injection E as -> ->. rewrite IH2 by assumption.
        apply getattr_setattr_same.
      * now apply IH1.
    + intros Hn. rewrite IH2 by (intro; apply Hn; now right).
      apply getattr_setattr_other. intros ->. apply Hn. now left.
Qed.

Lemma merge_of_awaited {V : Type} (l1 l2 : list (message V))
    (vs : list (object V)) :
  NoDup (map (@spot V) l1) ->
  (forall si, In si (map (@spot V) l1) -> si < length vs) ->
  exists vs1 myspots1,
    drain (l1 ++ l2) (seq 0 (length vs)) vs = drain l2 myspots1 vs1
    /\ length vs1 = length vs
    /\ length myspots1 = length vs - length l1
    /\ (forall si, In si myspots1 -> ~ In si (map (@spot V) l1))
    /\ (forall a s, In a l1 -> nth_error vs (spot a) = Some s ->
        nth_error vs1 (spot a) = Some (with_attributes s (attributes a)))
    /\ (forall si, ~ In si (map (@spot V) l1) ->
        nth_error vs1 si = nth_error vs si).
Proof.
  intros Hnd Hlt.
  destruct (drain_awaited V l1 l2 (seq 0 (length vs)) vs)
    as (vs1 & myspots1 & Hd & Hl & Hp & Hin & Hout).
  - assumption.
  - apply seq_NoDup.
  - intros si Hsi. apply in_seq. specialize (Hlt _ Hsi). lia.
  - intros si Hsi. apply in_seq in Hsi. lia.
  - exists vs1, myspots1. split; [exact Hd|]. split; [exact Hl|]. split.
    { apply Permutation_length in Hp.
      rewrite length_seq, length_app, length_map in Hp. lia. }
    split; [|split; assumption].
    intros si Hsi Hsi'.
    assert (Hnd' : NoDup (map (@spot V) l1 ++ myspots1)).
    { eapply Permutation_NoDup; [exact Hp | apply seq_NoDup]. }
    clear - Hnd' Hsi Hsi'. induction (map (@spot V) l1) as [|x l IH];
      [destruct Hsi'|].
    cbn [app] in Hnd'. inversion Hnd' as [|? ? Hnin Hnd'']; subst.
    destruct Hsi' as [->|Hsi'].
    + apply Hnin. apply in_or_app. now right.
    + now apply IH.
Qed.

Lemma drain_nothing_awaited {V : Type} (l : list (message V))
    (vs : list (object V)) :
  drain l [] vs = Ok (Some (vs, l)).
Proof. destruct l; reflexivity. Qed.

Lemma merge_results_spec {V : Type} (arrivals : list (message V))
    (validspots : list (object V)) :
  Permutation (map (@spot V) arrivals) (seq 0 (length validspots)) ->
  exists vs',
    merge_results arrivals validspots = Ok (Some vs')
    /\ length vs' = length validspots
    /\ (forall a s, In a arrivals ->
        nth_error validspots (spot a) = Some s ->
        nth_error vs' (spot a) = Some (with_attributes s (attributes a))).
Proof.
  intros Hperm.
  destruct (merge_of_awaited arrivals [] validspots)
    as (vs1 & myspots1 & Hd & Hl & Hlen & _ & Hin & _).
  - eapply Permutation_NoDup; [apply Permutation_sym; exact Hperm|].
    apply seq_NoDup.
  - intros si Hsi. eapply Permutation_in in Hsi; [|exact Hperm].
    apply in_seq in Hsi. lia.
  - apply Permutation_length in Hperm.
    rewrite length_map, length_seq in Hperm. rewrite Hperm, Nat.sub_diag in Hlen.
    destruct myspots1; [|discriminate].
    exists vs1. unfold merge_results. rewrite app_nil_r in Hd. rewrite Hd.
    rewrite drain_nothing_awaited. cbn [bind assert].
    split; [reflexivity|]. split; [exact Hl | exact Hin].
Qed.

(** X19.  When the dictionaries that arrive on the queue are one for each
    valid spot, in any order, the loop of [run_mp] ends, the queue is empty
    as the assertion wants it, and every spot has been given the attributes
    of its dictionary: a key of the dictionary is an attribute of the spot,
    with the value of the dictionary, and the spot keeps the other
    attributes it had. *)
Theorem merge_results_merges_every_dictionary (V : Type)
    (arrivals : list (message V)) (validspots : list (object V)) :
  Permutation (map (@spot V) arrivals) (seq 0 (length validspots)) ->
  exists vs',
    merge_results arrivals validspots = Ok (Some vs')
    /\ length vs' = length validspots
    /\ (forall a s, In a arrivals ->
        nth_error validspots (spot a) = Some s ->
        nth_error vs' (spot a) = Some (with_attributes s (attributes a)))
    /\ (forall (s : object V) attrs key,
        (NoDup (map fst attrs) ->
         forall v, In (key, v) attrs ->
                   getattr (with_attributes s attrs) key = Ok v)
        /\ (~ In key (map fst attrs) ->
            getattr (with_attributes s attrs) key = getattr s key)).
Proof.
  intros Hperm.
  destruct (merge_results_spec arrivals validspots Hperm)
    as (vs' & H & Hl & Hin).
  exists vs'. repeat (split; [assumption|]).
  intros s attrs key. apply with_attributes_spec.
Qed.

Lemma merge_results_merges_every_dictionary_witness :
  let validspots := [[("M_ex", one)]; [("LS", zero)]] in
  let arrivals :=
    [mkMessage 1 [("M_ex", nan)]; mkMessage 0 [("M_ex", zero)]] in
  exists vs',
    merge_results arrivals validspots = Ok (Some vs')
    /\ length vs' = length validspots
    /\ (forall a s, In a arrivals ->
        nth_error validspots (spot a) = Some s ->
        nth_error vs' (spot a) = Some (with_attributes s (attributes a)))
    /\ (forall (s : object float) attrs key,
        (NoDup (map fst attrs) ->
         forall v, In (key, v) attrs ->
                   getattr (with_attributes s attrs) key = Ok v)
        /\ (~ In key (map fst attrs) ->
            getattr (with_attributes s attrs) key = getattr s key)).
Proof.
  intros validspots arrivals.
  apply (merge_results_merges_every_dictionary float arrivals validspots).
  apply perm_swap.
Defined.

(** X20.  What the loop of [run_mp] does when the dictionaries are not one
    for each valid spot.  After dictionaries for different spots, fewer
    than there are valid spots: when nothing more arrives, the loop waits
    for ever; and a further dictionary for a spot that one of them was for
    is a [ValueError] of [myspots.index].  After one dictionary for each
    spot, a further dictionary stays on the queue and the assertion
    fails. *)
Theorem merge_results_failures (V : Type) (l1 l2 : list (message V))
    (a : message V) (validspots : list (object V)) :
  NoDup (map (@spot V) l1) ->
  (forall si, In si (map (@spot V) l1) -> si < length validspots) ->
  (length l1 < length validspots -> merge_results l1 validspots = Ok None)
  /\ (length l1 < length validspots -> In (spot a) (map (@spot V) l1) ->
      merge_results (l1 ++ a :: l2) validspots = Raise ValueError)
  /\ (length l1 = length validspots ->
      merge_results (l1 ++ a :: l2) validspots = Raise AssertionError).
Proof.
  intros Hnd Hlt. split; [|split].
  - intros Hlen.
    destruct (merge_of_awaited l1 [] validspots Hnd Hlt)
      as (vs1 & myspots1 & Hd & _ & Hl1 & _).
    unfold merge_results. rewrite app_nil_r in Hd. rewrite Hd.
    destruct myspots1; [cbn [length] in Hl1; lia | reflexivity].
  - intros Hlen Ha.
    destruct (merge_of_awaited l1 (a :: l2) validspots Hnd Hlt)
      as (vs1 & myspots1 & Hd & Hl & Hl1 & Hnin & _).
    unfold merge_results. rewrite Hd.
    destruct myspots1 as [|x rest]; [cbn [length] in Hl1; lia|].
    cbn [drain].
    destruct (nth_error vs1 (spot a)) as [s|] eqn:Hs.
    + rewrite (merge_one_ok _ _ _ _ Hs). cbn [bind].
      rewrite index_not_in; [reflexivity|].
      intros Hin. exact (Hnin _ Hin Ha).
    + apply nth_error_None in Hs. specialize (Hlt _ Ha). lia.
  - intros Hlen.
    destruct (merge_of_awaited l1 (a :: l2) validspots Hnd Hlt)
      as (vs1 & myspots1 & Hd & _ & Hl1 & _).
    unfold merge_results. rewrite Hd.
    destruct myspots1; [|cbn [length] in Hl1; lia].
    rewrite drain_nothing_awaited. reflexivity.
Qed.

Lemma merge_results_failures_witness :
  let validspots := [[("M_ex", one)]; [("LS", zero)]] in
  let l1 := [mkMessage 1 [("M_ex", nan)]] in
  let a := mkMessage 1 [("M_ex", zero)] in
  (length l1 < length validspots -> merge_results l1 validspots = Ok None)
  /\ (length l1 < length validspots -> In (spot a) (map (@spot float) l1) ->
      merge_results (l1 ++ a :: []) validspots = Raise ValueError)
  /\ (length l1 = length validspots ->
      merge_results (l1 ++ a :: []) validspots = Raise AssertionError).
Proof.
  intros validspots l1 a.
  apply (merge_results_failures float l1 [] a validspots).
  - repeat constructor. intros [].
  - intros si [<-|[]]. cbn. lia.
Defined.

(** ** What a worker puts on the queue *)

Lemma reported_NoDup (fits mods ETruler ETmodel : bool) :
  NoDup (reported fits mods ETruler ETmodel).
Proof.
  destruct fits, mods, ETruler, ETmodel; cbn [reported app];
    repeat (constructor; [cbn [In]; intuition discriminate|]); constructor.
Qed.

Lemma dictionary_ok {V : Type} (vs : list (object V))
    (keys : list String.string) (si : nat) (a : message V) :
  dictionary vs keys si = Ok a ->
  spot a = si
  /\ map fst (attributes a) = keys
  /\ forall key v, In (key, v) (attributes a) ->
       exists s, nth_error vs si = Some s /\ getattr s key = Ok v.
Proof.
  unfold dictionary. intros H.
  apply bind_ok in H. destruct H as (attrs & Hm & H). injection H as <-.
  cbn [spot attributes]. split; [reflexivity|].
  revert attrs Hm. induction keys as [|k keys IH]; intros attrs Hm;
    cbn [mapM] in Hm.
  - injection Hm as <-. split; [reflexivity | intros key v []].
  - apply bind_ok in Hm. destruct Hm as ([k' v'] & Hk & Hm).
    apply bind_ok in Hm. destruct Hm as (attrs' & Hm' & Hm).
    injection Hm as <-.
    apply bind_ok in Hk. destruct Hk as (s & Hs & Hk).
    apply bind_ok in Hk. destruct Hk as (v0 & Hv & Hk).
    injection Hk as <- <-.
    destruct (IH _ Hm') as [Hkeys Hattrs]. split.
    + cbn [map fst]. now rewrite Hkeys.
    + intros key v [E|Hin]; [|now apply Hattrs].
      injection E as <- <-. exists s. split; [|assumption].
      unfold get_object, of_option in Hs.
      destruct (nth_error vs si); congruence.
Qed.

Lemma put_all_spec {V : Type} (vs : list (object V))
    (keys : list String.string) (thesespots : list nat) :
  forall queue r,
    put_all vs keys thesespots = (queue, r) ->
    (forall a, In a queue -> dictionary vs keys (spot a) = Ok a)
    /\ match r with
       | Ok _ => map (@spot V) queue = thesespots
       | Raise e =>
           exists si rest,
             thesespots = map (@spot V) queue ++ si :: rest
             /\ dictionary vs keys si = Raise e
       end.
Proof.
  induction thesespots as [|si rest IH]; intros queue r H; cbn [put_all] in H.
  - injection H as <- <-. split; [intros a [] | reflexivity].
  - destruct (dictionary vs keys si) as [a|e] eqn:Hd.
    + destruct (put_all vs keys rest) as [queue0 r0] eqn:Hp.
      injection H as <- <-.
      destruct (IH _ _ eq_refl) as [Hq Hr].
      destruct (dictionary_ok _ _ _ _ Hd) as (Hsi & _).
      split.
      * intros b [<-|Hb]; [now rewrite Hsi | now apply Hq].
      * destruct r0 as [u|e].
        -- cbn [map]. now rewrite Hsi, Hr.
        -- destruct Hr as (sj & rest' & -> & He).
           exists sj, rest'. cbn [map app]. now rewrite Hsi.
    + injection H as <- <-. split; [intros a []|].
      exists si, rest. split; [reflexivity | assumption].
Qed.

(** X21.  When [mp_worker] returns, the stages that were asked for have
    returned, and the worker has put one dictionary on the queue for each
    spot of its block, in the order of the block.  The keys of each
    dictionary, beside ['spot'], are those of the stages that were asked
    for, all different, in the order of the code; and the value of a key is
    the attribute of this name of the spot, as the stages left it in the
    process of the worker. *)
Theorem mp_worker_reports_its_block (V : Type)
    (fit_all_portraits_spot_parallel_selective
       find_modulation_depths_and_phases_selective :
       list nat -> list (object V) -> result (list (object V)))
    (values_for_ETruler : object V -> result (object V))
    (ETmodel_selective :
       list nat -> list (object V) -> result (list (object V)))
    (validspots : list (object V)) (thesespots : list nat)
    (fits mods ETruler ETmodel : bool) (queue : list (message V)) :
  mp_worker fit_all_portraits_spot_parallel_selective
    find_modulation_depths_and_phases_selective values_for_ETruler
    ETmodel_selective validspots thesespots fits mods ETruler ETmodel
  = (queue, Ok tt) ->
  exists vs,
    run_stages fit_all_portraits_spot_parallel_selective
      find_modulation_depths_and_phases_selective values_for_ETruler
      ETmodel_selective validspots thesespots fits mods ETruler ETmodel
    = Ok vs
    /\ map (@spot V) queue = thesespots
    /\ NoDup (reported fits mods ETruler ETmodel)
    /\ forall a, In a queue ->
         map fst (attributes a) = reported fits mods ETruler ETmodel
         /\ forall key v, In (key, v) (attributes a) ->
              exists s, nth_error vs (spot a) = Some s
                        /\ getattr s key = Ok v.
Proof.
  unfold mp_worker. intros H.
  destruct (run_stages _ _ _ _ validspots thesespots fits mods ETruler ETmodel)
    as [vs|e]; [|discriminate].
  exists vs. split; [reflexivity|].
  destruct (put_all_spec _ _ _ _ _ H) as [Hq Hr].
  split; [exact Hr|]. split; [apply reported_NoDup|].
  intros a Ha. destruct (dictionary_ok _ _ _ _ (Hq a Ha)) as (_ & Hk & Hv).
  split; assumption.
Qed.

Lemma mp_worker_reports_its_block_witness :
  let stage := fun (_ : list nat) (vs : list (object float)) => Ok vs in
  let validspots := [[("ET_ruler", one)]; [("ET_ruler", zero)]] in
  exists queue vs,
    mp_worker stage stage (fun s => Ok s) stage validspots [1] false false
      true false = (queue, Ok tt)
    /\ run_stages stage stage (fun s => Ok s) stage validspots [1] false
         false true false = Ok vs
    /\ map (@spot float) queue = [1]
    /\ NoDup (reported false false true false)
    /\ forall a, In a queue ->
         map fst (attributes a) = reported false false true false
         /\ forall key v, In (key, v) (attributes a) ->
              exists s, nth_error vs (spot a) = Some s
                        /\ getattr s key = Ok v.
Proof.
  intros stage validspots.
  exists [mkMessage 1 [("ET_ruler", zero)]].
  destruct (mp_worker_reports_its_block float stage stage (fun s => Ok s)
              stage validspots [1] false false true false
              [mkMessage 1 [("ET_ruler", zero)]] eq_refl) as (vs & H).
  exists vs. split; [reflexivity | exact H].
Defined.

(** X22.  When [mp_worker] ends in an exception, it has not reported its
    whole block: either one of the stages raised and nothing is on the
    queue, or the stages returned, the dictionaries on the queue are those
    of the first spots of the block, in order, and the dictionary of the
    next spot could not be made, by the exception that ends the worker. *)
Theorem mp_worker_that_raises_reports_less (V : Type)
    (fit_all_portraits_spot_parallel_selective
       find_modulation_depths_and_phases_selective :
       list nat -> list (object V) -> result (list (object V)))
    (values_for_ETruler : object V -> result (object V))
    (ETmodel_selective :
       list nat -> list (object V) -> result (list (object V)))
    (validspots : list (object V)) (thesespots : list nat)
    (fits mods ETruler ETmodel : bool) (queue : list (message V))
    (e : exn) :
  mp_worker fit_all_portraits_spot_parallel_selective
    find_modulation_depths_and_phases_selective values_for_ETruler
    ETmodel_selective validspots thesespots fits mods ETruler ETmodel
  = (queue, Raise e) ->
  (run_stages fit_all_portraits_spot_parallel_selective
     find_modulation_depths_and_phases_selective values_for_ETruler
     ETmodel_selective validspots thesespots fits mods ETruler ETmodel
   = Raise e /\ queue = [])
  \/ (exists vs si rest,
        run_stages fit_all_portraits_spot_parallel_selective
          find_modulation_depths_and_phases_selective values_for_ETruler
          ETmodel_selective validspots thesespots fits mods ETruler ETmodel
        = Ok vs
        /\ thesespots = map (@spot V) queue ++ si :: rest
        /\ dictionary vs (reported fits mods ETruler ETmodel) si = Raise e).
Proof.
  unfold mp_worker. intros H.
  destruct (run_stages _ _ _ _ validspots thesespots fits mods ETruler ETmodel)
    as [vs|e'].
  - right. destruct (put_all_spec _ _ _ _ _ H) as [_ (si & rest & Ht & He)].
    exists vs, si, rest. auto.
  - left. injection H as <- <-. auto.
Qed.

Lemma mp_worker_that_raises_reports_less_witness :
  let stage := fun (_ : list nat) (vs : list (object float)) => Ok vs in
  let validspots := [[("M_ex", one)]; [("ET_ruler", zero)]] in
  (run_stages stage stage (fun s => Ok s) stage validspots [1; 0] false false
     true false = Raise AttributeError /\ [mkMessage 1 [("ET_ruler", zero)]] = [])
  \/ (exists vs si rest,
        run_stages stage stage (fun s => Ok s) stage validspots [1; 0] false
          false true false = Ok vs
        /\ [1; 0] = map (@spot float) [mkMessage 1 [("ET_ruler", zero)]]
                    ++ si :: rest
        /\ dictionary vs (reported false false true false) si
           = Raise AttributeError).
Proof.
  intros stage validspots.
  apply (mp_worker_that_raises_reports_less float stage stage (fun s => Ok s)
           stage validspots [1; 0] false false true false
           [mkMessage 1 [("ET_ruler", zero)]] AttributeError).
  reflexivity.
Defined.

Lemma Forall2_in_left {A B : Type} (R : A -> B -> Prop) (l : list A)
    (l' : list B) (x : A) :
  Forall2 R l l' -> In x l -> exists y, In y l' /\ R x y.
Proof.
  induction 1 as [|a b l l' Hab HF IH]; intros Hin; [destruct Hin|].
  destruct Hin as [<-|Hin].
  - exists b. split; [now left | assumption].
  - destruct (IH Hin) as (y & Hy & Hxy). exists y. split; [now right|assumption].
Qed.

Lemma array_split_ok (n : nat) (Nprocs : Z) (myspots : list (list nat)) :
  array_split n Nprocs = Ok myspots -> concat myspots = seq 0 n.
Proof.
  intros H.
  assert (Hpos : (0 < Nprocs)%Z).
  { unfold array_split in H. destruct (Z.leb_spec Nprocs 0); [discriminate|].
    assumption. }
  destruct (array_split_spec n Nprocs Hpos) as (myspots' & H' & _ & Hc & _).
  congruence.
Qed.

(** X23.  From the start of the workers to the end of the loop of
    [run_mp]: when every worker returns, each on its block of the split of
    the valid spots, then whatever the order in which their dictionaries
    arrive, the loop ends with the queue empty, and every valid spot of the
    main process has, for each key of the stages that were asked for, the
    value that the attribute has on the spot in the process of the worker
    that had its index; its other attributes are those it had in the main
    process. *)
Theorem run_mp_gathers_the_reports (V : Type)
    (fit_all_portraits_spot_parallel_selective
       find_modulation_depths_and_phases_selective :
       list nat -> list (object V) -> result (list (object V)))
    (values_for_ETruler : object V -> result (object V))
    (ETmodel_selective :
       list nat -> list (object V) -> result (list (object V)))
    (validspots : list (object V)) (Nprocs : Z)
    (fits mods ETruler ETmodel : bool)
    (myspots : list (list nat)) (queues : list (list (message V)))
    (arrivals : list (message V)) :
  array_split (length validspots) Nprocs = Ok myspots ->
  Forall2
    (fun thesespots queue =>
       mp_worker fit_all_portraits_spot_parallel_selective
         find_modulation_depths_and_phases_selective values_for_ETruler
         ETmodel_selective validspots thesespots fits mods ETruler ETmodel
       = (queue, Ok tt))
    myspots queues ->
  Permutation arrivals (concat queues) ->
  exists vs',
    merge_results arrivals validspots = Ok (Some vs')
    /\ length vs' = length validspots
    /\ forall si s, nth_error validspots si = Some s ->
         exists thesespots vs s',
           In thesespots myspots /\ In si thesespots
           /\ run_stages fit_all_portraits_spot_parallel_selective
                find_modulation_depths_and_phases_selective
                values_for_ETruler ETmodel_selective validspots thesespots
                fits mods ETruler ETmodel = Ok vs
           /\ nth_error vs' si = Some s'
           /\ (forall key, In key (reported fits mods ETruler ETmodel) ->
               exists t v,
                 nth_error vs si = Some t /\ getattr t key = Ok v
                 /\ getattr s' key = Ok v)
           /\ (forall key, ~ In key (reported fits mods ETruler ETmodel) ->
               getattr s' key = getattr s key).
Proof.
  intros Hsplit Hworkers Hperm.
  apply array_split_ok in Hsplit.
  assert (Hspots : map (@spot V) (concat queues) = concat myspots).
  { clear - Hworkers. induction Hworkers as [|b q l l' Hbq HF IH];
      [reflexivity|].
    cbn [concat]. rewrite map_app, IH. f_equal.
    unfold mp_worker in Hbq.
    destruct (run_stages _ _ _ _ validspots b fits mods ETruler ETmodel)
      as [vs|e]; [|discriminate].
    now destruct (put_all_spec _ _ _ _ _ Hbq) as [_ Hr]. }
  assert (Hp : Permutation (map (@spot V) arrivals)
                 (seq 0 (length validspots))).
  { rewrite <- Hsplit, <- Hspots. now apply Permutation_map. }
  destruct (merge_results_spec arrivals validspots Hp) as (vs' & Hm & Hl & Hin).
  exists vs'. split; [exact Hm|]. split; [exact Hl|].
  intros si s Hs.
  assert (Hsi : In si (concat myspots)).
  { rewrite Hsplit. apply in_seq.
    assert (si < length validspots) by (apply nth_error_Some; congruence).
    lia. }
  apply in_concat in Hsi. destruct Hsi as (thesespots & Hb & Hsi).
  destruct (Forall2_in_left _ _ _ _ Hworkers Hb) as (queue & Hq & Hw).
  unfold mp_worker in Hw.
  destruct (run_stages _ _ _ _ validspots thesespots fits mods ETruler
              ETmodel) as [vs|e] eqn:Hstages; [|discriminate].
  destruct (put_all_spec _ _ _ _ _ Hw) as [Hdict Hmap].
  rewrite <- Hmap in Hsi. apply in_map_iff in Hsi.
  destruct Hsi as (a & Hspot & Ha).
  destruct (dictionary_ok _ _ _ _ (Hdict a Ha)) as (_ & Hkeys & Hvals).
  assert (Harr : In a arrivals).
  { eapply Permutation_in; [apply Permutation_sym; exact Hperm|].
    apply in_concat. exists queue. split; assumption. }
  rewrite <- Hspot in Hs. pose proof (Hin a s Harr Hs) as Hs'.
  rewrite Hspot in Hs'.
  exists thesespots, vs, (with_attributes s (attributes a)).
  split; [assumption|]. split; [rewrite <- Hmap, <- Hspot; now apply in_map|].
  split; [exact Hstages|]. split; [exact Hs'|].
  split.
  - intros key Hkey. rewrite <- Hkeys in Hkey. apply in_map_iff in Hkey.
    destruct Hkey as ([k v] & E & Hkv). cbn [fst] in E. subst k.
    destruct (Hvals key v Hkv) as (t & Ht & Hg). rewrite Hspot in Ht.
    exists t, v. split; [assumption|]. split; [assumption|].
    apply with_attributes_spec; [|assumption].
    rewrite Hkeys. apply reported_NoDup.
  - intros key Hkey. apply with_attributes_spec. now rewrite Hkeys.
Qed.

Lemma run_mp_gathers_the_reports_witness :
  let stage := fun (_ : list nat) (vs : list (object float)) => Ok vs in
  let ruler := fun s : object float => Ok (setattr s "ET_ruler" one) in
  let validspots := [[("M_ex", one)]; [("M_ex", zero)]] in
  let arrivals :=
    [mkMessage 1 [("ET_ruler", one)]; mkMessage 0 [("ET_ruler", one)]] in
  exists vs',
    merge_results arrivals validspots = Ok (Some vs')
    /\ length vs' = length validspots
    /\ forall si s, nth_error validspots si = Some s ->
         exists thesespots vs s',
           In thesespots [[0]; [1]] /\ In si thesespots
           /\ run_stages stage stage ruler stage validspots thesespots
                false false true false = Ok vs
           /\ nth_error vs' si = Some s'
           /\ (forall key, In key (reported false false true false) ->
               exists t v,
                 nth_error vs si = Some t /\ getattr t key = Ok v
                 /\ getattr s' key = Ok v)
           /\ (forall key, ~ In key (reported false false true false) ->
               getattr s' key = getattr s key).
Proof.
  intros stage ruler validspots arrivals.
  apply (run_mp_gathers_the_reports float stage stage ruler stage validspots
           2 false false true false [[0]; [1]]
           [[mkMessage 0 [("ET_ruler", one)]];
            [mkMessage 1 [("ET_ruler", one)]]] arrivals).
  - reflexivity.
  - repeat constructor.
  - apply perm_swap.
Defined.

(** ** The lines of a portrait *)

Import LineIndexer.

(** *** The order of the binary64 comparisons *)

Ltac float_cases :=
  repeat match goal with
         | x : float |- _ => destruct x as [[]|[]| |[] ? ?]
         end;
  cbn; try reflexivity; try discriminate.

Ltac compare_cases :=
  change Pos.compare_cont with (fun c x y => Pos.compare_cont c x y);
  cbv beta;
  repeat match goal with
         | |- context [Z.compare ?a ?b] =>
             destruct (Z.compare_spec a b); subst
         | |- context [Pos.compare_cont Eq ?a ?b] =>
             change (Pos.compare_cont Eq a b) with (Pos.compare a b);
             destruct (Pos.compare_spec a b); subst
         end;
  cbn; try reflexivity; try discriminate; try lia.

Lemma eqb_refl (x : float) : isnan x = false -> F64.eqb x x = true.
Proof.
  unfold F64.eqb, SFeqb. float_cases; intros _.
  - now rewrite Z.compare_refl, Pos.compare_cont_refl.
  - now rewrite Z.compare_refl, Pos.compare_cont_refl.
Qed.

Lemma eqb_not_nan (x y : float) :
  F64.eqb x y = true -> isnan x = false /\ isnan y = false.
Proof. unfold F64.eqb, SFeqb. float_cases; intros _; split; reflexivity. Qed.

Lemma eqb_sym (x y : float) : F64.eqb x y = true -> F64.eqb y x = true.
Proof. unfold F64.eqb, SFeqb. float_cases; compare_cases. Qed.

Lemma eqb_trans (x y z : float) :
  F64.eqb x y = true -> F64.eqb y z = true -> F64.eqb x z = true.
Proof. unfold F64.eqb, SFeqb. float_cases; compare_cases. Qed.

Lemma ltb_trans (x y z : float) :
  F64.ltb x y = true -> F64.ltb y z = true -> F64.ltb x z = true.
Proof. unfold F64.ltb, SFltb. float_cases; compare_cases. Qed.

Lemma eqb_ltb (r p x : float) :
  F64.eqb r p = true -> F64.ltb p x = true -> F64.ltb r x = true.
Proof. unfold F64.eqb, F64.ltb, SFeqb, SFltb. float_cases; compare_cases. Qed.

Lemma ltb_not_eqb (x y : float) : F64.ltb x y = true -> F64.eqb x y = false.
Proof. unfold F64.eqb, F64.ltb, SFeqb, SFltb. float_cases; compare_cases. Qed.

Lemma ltb_total (x y : float) :
  isnan x = false -> isnan y = false ->
  F64.ltb x y = false -> F64.eqb x y = false -> F64.ltb y x = true.
Proof. unfold F64.eqb, F64.ltb, SFeqb, SFltb. float_cases; compare_cases. Qed.

(** *** [np.sort] and [np.unique] *)

Lemma sort_ltb_asym (x y : float) :
  sort_ltb x y = true -> sort_ltb y x = false.
Proof.
  unfold sort_ltb. destruct (isnan y) eqn:Hy, (isnan x) eqn:Hx; cbn.
  - discriminate.
  - intros _. destruct y; try discriminate. reflexivity.
  - intros H. apply ltb_not_nan in H. destruct H; congruence.
  - apply ltb_asym.
Qed.

Lemma insert_sorted_perm (x : float) (l : list float) :
  Permutation (x :: l) (insert_sorted x l).
Proof.
  induction l as [|y l IH]; cbn; [reflexivity|].
  destruct (sort_ltb y x); [|reflexivity].
  rewrite perm_swap. now apply perm_skip.
Qed.

Lemma np_sort_perm (l : list float) : Permutation l (np_sort l).
Proof.
  induction l as [|x l IH]; cbn; [reflexivity|].
  rewrite <- insert_sorted_perm. now apply perm_skip.
Qed.

Lemma insert_sorted_Sorted (x : float) (l : list float) :
  Sorted (fun a b => sort_ltb b a = false) l ->
  Sorted (fun a b => sort_ltb b a = false) (insert_sorted x l).
Proof.
  induction 1 as [|y l Hl IH Hhd]; cbn.
  - repeat constructor.
  - destruct (sort_ltb y x) eqn:Hyx.
    + constructor; [assumption|].
      destruct l as [|z l]; cbn.
      * constructor. now apply sort_ltb_asym.
      * destruct (sort_ltb z x); constructor.
        -- now inversion Hhd.
        -- now apply sort_ltb_asym.
    + constructor; [now constructor|]. now constructor.
Qed.

Lemma np_sort_Sorted (l : list float) :
  Sorted (fun a b => sort_ltb b a = false) (np_sort l).
Proof.
  induction l as [|x l IH]; cbn; [constructor|].
  now apply insert_sorted_Sorted.
Qed.

(** After [np.unique] every entry is below the next one, or the next one
    is NaN. *)
Lemma drop_repeats_Sorted (l : list float) :
  forall prev r,
    r = prev \/ F64.eqb r prev = true ->
    Sorted (fun a b => sort_ltb b a = false) (prev :: l) ->
    Sorted (fun a b => isnan b = true \/ F64.ltb a b = true)
      (r :: drop_repeats prev l).
Proof.
  induction l as [|x l IH]; intros prev r Hr Hs; cbn.
  - repeat constructor.
  - inversion Hs as [|? ? Hs' Hhd]; subst. inversion Hhd as [|? ? Hpx]; subst.
    destruct (F64.eqb x prev) eqn:Hx.
    + apply IH; [|assumption]. right.
      destruct Hr as [->|Hr]; [now apply eqb_sym|].
      eapply eqb_trans; [exact Hr|now apply eqb_sym].
    + constructor; [apply IH; [now left|assumption]|].
      constructor. destruct (isnan x) eqn:Hnx; [now left|right].
      unfold sort_ltb in Hpx. rewrite Hnx in Hpx.
      destruct (isnan prev) eqn:Hnp; [discriminate|]. cbn in Hpx.
      assert (Hlt : F64.ltb prev x = true).
      { apply ltb_total; assumption. }
      destruct Hr as [->|Hr]; [assumption|]. now apply eqb_ltb with prev.
Qed.

Lemma np_unique_Sorted (l : list float) :
  StronglySorted (fun a b => isnan b = true \/ F64.ltb a b = true)
    (np_unique l).
Proof.
  apply Sorted_StronglySorted.
  - intros a b c Hab [Hc|Hbc]; [now left|right].
    destruct (ltb_not_nan _ _ Hbc) as [Hb _].
    destruct Hab as [Hab|Hab]; [congruence|]. now apply ltb_trans with b.
  - unfold np_unique. pose proof (np_sort_Sorted l) as Hs.
    destruct (np_sort l) as [|x l']; [constructor|].
    apply drop_repeats_Sorted; [now left|assumption].
Qed.

(** Two different positions of [np.unique] hold values that do not
    compare equal. *)
Lemma np_unique_distinct (l : list float) (i j : nat) (u v : float) :
  nth_error (np_unique l) i = Some u ->
  nth_error (np_unique l) j = Some v ->
  F64.eqb u v = true -> i = j.
Proof.
  pose proof (np_unique_Sorted l) as Hs. revert Hs.
  generalize (np_unique l). clear l. intros l Hs. revert i j.
  assert (Hbelow : forall a b,
             isnan b = true \/ F64.ltb a b = true ->
             F64.eqb a b = false /\ F64.eqb b a = false).
  { intros a b [Hb|Hab].
    - split.
      + destruct (F64.eqb a b) eqn:E; [|reflexivity].
        apply eqb_not_nan in E. destruct E; congruence.
      + destruct (F64.eqb b a) eqn:E; [|reflexivity].
        apply eqb_not_nan in E. destruct E; congruence.
    - pose proof (ltb_not_eqb _ _ Hab) as E. split; [assumption|].
      destruct (F64.eqb b a) eqn:E'; [|reflexivity].
      apply eqb_sym in E'. congruence. }
  induction Hs as [|a l Hs IH Hall]; intros i j Hi Hj E.
  - destruct i; discriminate.
  - rewrite Forall_forall in Hall.
    destruct i as [|i], j as [|j]; cbn in Hi, Hj.
    + reflexivity.
    + injection Hi as <-. apply nth_error_In in Hj.
      destruct (Hbelow _ _ (Hall _ Hj)); congruence.
    + injection Hj as <-. apply nth_error_In in Hi.
      destruct (Hbelow _ _ (Hall _ Hi)); congruence.
    + f_equal. now apply IH.
Qed.

(** Every entry of the array compares equal to an entry of [np.unique],
    unless it is NaN; and [np.unique] holds entries of the array only. *)
Lemma drop_repeats_covers (l : list float) :
  forall prev r x,
    r = prev \/ F64.eqb r prev = true ->
    In x l ->
    exists u, In u (r :: drop_repeats prev l)
              /\ (u = x \/ F64.eqb u x = true).
Proof.
  induction l as [|y l IH]; intros prev r x Hr Hx; [destruct Hx|].
  cbn [drop_repeats]. destruct (F64.eqb y prev) eqn:Hy.
  - assert (Hry : F64.eqb r y = true).
    { destruct Hr as [->|Hr]; [now apply eqb_sym|].
      eapply eqb_trans; [exact Hr|now apply eqb_sym]. }
    destruct Hx as [->|Hx].
    + exists r. split; [now left|now right].
    + apply IH; [now right|assumption].
  - destruct Hx as [->|Hx].
    + exists x. split; [right; now left|now left].
    + destruct (IH y y x (or_introl eq_refl) Hx) as (u & Hu & E).
      exists u. split; [now right|assumption].
Qed.

Lemma np_unique_covers (l : list float) (x : float) :
  In x l -> isnan x = false ->
  exists u, In u (np_unique l) /\ F64.eqb u x = true.
Proof.
  intros Hx Hn.
  assert (Hx' : In x (np_sort l)).
  { eapply Permutation_in; [apply np_sort_perm|assumption]. }
  unfold np_unique. destruct (np_sort l) as [|y l']; [destruct Hx'|].
  assert (H : exists u, In u (y :: drop_repeats y l')
                        /\ (u = x \/ F64.eqb u x = true)).
  { destruct Hx' as [->|Hx'].
    - exists x. split; [now left|now left].
    - apply drop_repeats_covers; [now left|assumption]. }
  destruct H as (u & Hu & [->|E]); exists u || exists x; split;
    try assumption.
  now apply eqb_refl.
Qed.

Lemma drop_repeats_incl (l : list float) :
  forall prev x, In x (drop_repeats prev l) -> In x l.
Proof.
  induction l as [|y l IH]; intros prev x; cbn; [tauto|].
  destruct (F64.eqb y prev); cbn; intros H.
  - right. now apply IH with y.
  - destruct H as [H|H]; [now left|right; now apply IH with y].
Qed.

Lemma np_unique_incl (l : list float) (u : float) :
  In u (np_unique l) -> In u l.
Proof.
  intros Hu. eapply Permutation_in; [apply Permutation_sym, np_sort_perm|].
  unfold np_unique in Hu. destruct (np_sort l) as [|y l']; [destruct Hu|].
  destruct Hu as [->|Hu]; [now left|right].
  now apply drop_repeats_incl with y.
Qed.

(** *** [find_lines] *)

Lemma lines_of_portrait_spec (emangles : list float) (pstart pstop : Z)
    (masks : list (list bool)) :
  lines_of_portrait emangles pstart pstop = Ok masks ->
  exists rounded,
    mapM round2 (py_slice emangles pstart pstop) = Ok rounded
    /\ masks = map (fun u => map (fun x => F64.eqb u x) rounded)
                 (np_unique rounded).
Proof.
  unfold lines_of_portrait. intros H.
  apply bind_ok in H. destruct H as (rounded & Hr & H).
  injection H as <-. now exists rounded.
Qed.

Lemma find_lines_portrait (emangles : list float) (p : portraits) (L : lines)
    (pi : nat) (masks : list (list bool)) :
  find_lines emangles p = Ok L ->
  nth_error (line_indices L) pi = Some masks ->
  exists pstart pstop,
    py_getitem (portrait_indices p) (Z.of_nat pi) = Ok pstart
    /\ py_getitem (portrait_indices p) (Z.of_nat pi + 1) = Ok pstop
    /\ lines_of_portrait emangles pstart pstop = Ok masks.
Proof.
  unfold find_lines. intros H Hpi.
  apply bind_ok in H. destruct H as (all & Hall & H).
  injection H as <-. cbn [line_indices] in Hpi.
  destruct (mapM_nth _ _ _ Hall _ _ Hpi) as (i & Hi & Hf).
  apply range_nth in Hi. subst i.
  apply bind_ok in Hf. destruct Hf as (pstart & Hstart & Hf).
  apply bind_ok in Hf. destruct Hf as (pstop & Hstop & Hf).
  now exists pstart, pstop.
Qed.

Lemma masks_partition (rounded : list float) (j : nat) (x : float) :
  let masks := map (fun u => map (fun x => F64.eqb u x) rounded)
                 (np_unique rounded) in
  nth_error rounded j = Some x ->
  (isnan x = false ->
   exists li m,
     nth_error masks li = Some m /\ nth_error m j = Some true
     /\ forall li' m',
          nth_error masks li' = Some m' -> nth_error m' j = Some true ->
          li' = li)
  /\ (isnan x = true ->
      forall m, In m masks -> nth_error m j = Some false).
Proof.
  intros masks Hj.
  assert (Hmask : forall li m,
             nth_error masks li = Some m ->
             exists u, nth_error (np_unique rounded) li = Some u
                       /\ nth_error m j = Some (F64.eqb u x)).
  { intros li m Hm. unfold masks in Hm. rewrite nth_error_map in Hm.
    destruct (nth_error (np_unique rounded) li) as [u|]; [|discriminate].
    injection Hm as <-. exists u. split; [reflexivity|].
    now rewrite nth_error_map, Hj. }
  split.
  - intros Hx.
    destruct (np_unique_covers rounded x (nth_error_In _ _ Hj) Hx)
      as (u & Hu & E).
    apply In_nth_error in Hu. destruct Hu as (li & Hli).
    exists li, (map (fun x => F64.eqb u x) rounded).
    split; [unfold masks; now rewrite nth_error_map, Hli|].
    split; [rewrite nth_error_map, Hj; cbn; now rewrite E|].
    intros li' m' Hm' Hj'.
    destruct (Hmask _ _ Hm') as (u' & Hu' & Hju').
    rewrite Hju' in Hj'. injection Hj' as E'.
    apply (np_unique_distinct rounded li' li u' u); try assumption.
    eapply eqb_trans; [exact E'|now apply eqb_sym].
  - intros Hx m Hm. apply In_nth_error in Hm. destruct Hm as (li & Hm).
    destruct (Hmask _ _ Hm) as (u & _ & Hju). rewrite Hju. f_equal.
    destruct (F64.eqb u x) eqn:E; [|reflexivity].
    apply eqb_not_nan in E. destruct E; congruence.
Qed.

Lemma masks_not_empty (rounded : list float) (m : list bool) :
  (forall x, In x rounded -> isnan x = false) ->
  In m (map (fun u => map (fun x => F64.eqb u x) rounded)
          (np_unique rounded)) ->
  In true m.
Proof.
  intros Hnan Hm. apply in_map_iff in Hm. destruct Hm as (u & <- & Hu).
  apply np_unique_incl in Hu. apply in_map_iff. exists u.
  split; [|assumption]. apply eqb_refl. now apply Hnan.
Qed.

(** X24.  [Movie.find_lines] splits every portrait into lines: it returns
    one list of boolean masks for each of the [Nportraits] portraits; the
    masks of a portrait are as long as the slice of emission angles between
    its two portrait indices; every frame of the slice whose rounded
    emission angle is a number is on exactly one line, a frame whose rounded
    angle is NaN is on none, and when no rounded angle is NaN no line is
    empty. *)
Theorem find_lines_partitions_each_portrait (emangles : list float)
    (p : portraits) (L : lines) :
  find_lines emangles p = Ok L ->
  length (line_indices L) = Z.to_nat (Nportraits p)
  /\ forall pi masks,
       nth_error (line_indices L) pi = Some masks ->
       exists pstart pstop rounded,
         py_getitem (portrait_indices p) (Z.of_nat pi) = Ok pstart
         /\ py_getitem (portrait_indices p) (Z.of_nat pi + 1) = Ok pstop
         /\ mapM round2 (py_slice emangles pstart pstop) = Ok rounded
         /\ (forall m, In m masks ->
               length m = length (py_slice emangles pstart pstop))
         /\ (forall j x,
               nth_error rounded j = Some x -> isnan x = false ->
               exists li m,
                 nth_error masks li = Some m /\ nth_error m j = Some true
                 /\ forall li' m',
                      nth_error masks li' = Some m' ->
                      nth_error m' j = Some true -> li' = li)
         /\ (forall j x,
               nth_error rounded j = Some x -> isnan x = true ->
               forall m, In m masks -> nth_error m j = Some false)
         /\ ((forall x, In x rounded -> isnan x = false) ->
             forall m, In m masks -> In true m).
Proof.
  intros H. split.
  - unfold find_lines in H.
    apply bind_ok in H. destruct H as (all & Hall & H).
    injection H as <-. cbn [line_indices].
    apply mapM_length in Hall. now rewrite Hall, range_length.
  - intros pi masks Hpi.
    destruct (find_lines_portrait _ _ _ _ _ H Hpi)
      as (pstart & pstop & Hstart & Hstop & Hlines).
    destruct (lines_of_portrait_spec _ _ _ _ Hlines) as (rounded & Hr & ->).
    exists pstart, pstop, rounded.
    split; [assumption|]. split; [assumption|]. split; [assumption|].
    split.
    { intros m Hm. apply in_map_iff in Hm. destruct Hm as (u & <- & _).
      rewrite length_map. now apply mapM_length in Hr. }
    split.
    { intros j x Hj. now apply (masks_partition rounded j x). }
    split.
    { intros j x Hj. now apply (masks_partition rounded j x). }
    intros Hnan m Hm. now apply (masks_not_empty rounded m).
Qed.

Lemma find_lines_partitions_each_portrait_witness :
  let emangles := [of_Z 0; of_Z 90; of_Z 0; of_Z 90] in
  let p := mkPortraits 1 [0%Z; 4%Z] in
  let L :=
    mkLines [[[true; false; true; false]; [false; true; false; true]]]
      (Some 2%Z) in
  length (line_indices L) = Z.to_nat (Nportraits p)
  /\ forall pi masks,
       nth_error (line_indices L) pi = Some masks ->
       exists pstart pstop rounded,
         py_getitem (portrait_indices p) (Z.of_nat pi) = Ok pstart
         /\ py_getitem (portrait_indices p) (Z.of_nat pi + 1) = Ok pstop
         /\ mapM round2 (py_slice emangles pstart pstop) = Ok rounded
         /\ (forall m, In m masks ->
               length m = length (py_slice emangles pstart pstop))
         /\ (forall j x,
               nth_error rounded j = Some x -> isnan x = false ->
               exists li m,
                 nth_error masks li = Some m /\ nth_error m j = Some true
                 /\ forall li' m',
                      nth_error masks li' = Some m' ->
                      nth_error m' j = Some true -> li' = li)
         /\ (forall j x,
               nth_error rounded j = Some x -> isnan x = true ->
               forall m, In m masks -> nth_error m j = Some false)
         /\ ((forall x, In x rounded -> isnan x = false) ->
             forall m, In m masks -> In true m).
Proof.
  intros emangles p L.
  apply (find_lines_partitions_each_portrait emangles p L).
  vm_compute. reflexivity.
Defined.

(** *** [retrieve_angles] *)

Lemma py_getitem_nth {A : Type} (l : list A) (k : nat) (x : A) :
  nth_error l k = Some x -> py_getitem l (Z.of_nat k) = Ok x.
Proof.
  intros H. assert (Hk : k < length l) by (apply nth_error_Some; congruence).
  unfold py_getitem, py_index.
  destruct (Z.leb_spec 0 (Z.of_nat k)) as [_|H0]; [|lia].
  destruct (Z.ltb_spec (Z.of_nat k) (Z.of_nat (length l))) as [_|H1]; [|lia].
  cbn. now rewrite Nat2Z.id, H.
Qed.

Lemma py_slice_length {A B : Type} (l : list A) (l' : list B)
    (start stop : Z) :
  length l = length l' ->
  length (py_slice l start stop) = length (py_slice l' start stop).
Proof.
  intros H. unfold py_slice. rewrite !length_firstn, !length_skipn.
  now rewrite H.
Qed.

Lemma select_ok {A : Type} (a : list A) :
  forall mask,
    length a = length mask ->
    exists r,
      select a mask = Ok r
      /\ length r = count_occ bool_dec mask true.
Proof.
  induction a as [|x a IH]; intros [|b mask] H; try discriminate.
  - now exists [].
  - injection H as H. destruct (IH mask H) as (r & Hr & Hlen).
    cbn [select]. rewrite Hr. cbn [bind].
    destruct b; eexists; (split; [reflexivity|]); cbn; now rewrite Hlen.
Qed.

(** X25.  On a line that [find_lines] has found and that holds a frame,
    [retrieve_angles] raises no [IndexError]: with as many excitation as
    emission angles, both selections by the line's mask succeed and have
    the same length, and the call returns the selected excitation angles
    with the first selected emission angle when all the selected emission
    angles (not rounded) compare equal to the first one; otherwise the
    assertion fails. *)
Theorem retrieve_angles_of_a_found_line (exangles emangles : list float)
    (p : portraits) (L : lines) (ip il : nat) (masks : list (list bool))
    (m : list bool) :
  find_lines emangles p = Ok L ->
  length exangles = length emangles ->
  nth_error (line_indices L) ip = Some masks ->
  nth_error masks il = Some m ->
  In true m ->
  exists pstart pstop exs e0 ems,
    py_getitem (portrait_indices p) (Z.of_nat ip) = Ok pstart
    /\ py_getitem (portrait_indices p) (Z.of_nat ip + 1) = Ok pstop
    /\ select (py_slice exangles pstart pstop) m = Ok exs
    /\ select (py_slice emangles pstart pstop) m = Ok (e0 :: ems)
    /\ length exs = S (length ems)
    /\ retrieve_angles exangles emangles p (line_indices L)
         (Z.of_nat ip) (Z.of_nat il)
       = if forallb (fun x => F64.eqb e0 x) (e0 :: ems)
         then Ok (exs, e0) else Raise AssertionError.
Proof.
  intros H Hlen Hip Hil Htrue.
  destruct (find_lines_portrait _ _ _ _ _ H Hip)
    as (pstart & pstop & Hstart & Hstop & Hlines).
  destruct (lines_of_portrait_spec _ _ _ _ Hlines) as (rounded & Hr & ->).
  assert (Hm : length (py_slice emangles pstart pstop) = length m).
  { apply nth_error_In in Hil. apply in_map_iff in Hil.
    destruct Hil as (u & <- & _). rewrite length_map.
    apply mapM_length in Hr. now rewrite Hr. }
  assert (Hm' : length (py_slice exangles pstart pstop) = length m).
  { now rewrite (py_slice_length exangles emangles pstart pstop Hlen). }
  destruct (select_ok _ _ Hm') as (exs & Hexs & Hnex).
  destruct (select_ok _ _ Hm) as (ems & Hems & Hnem).
  assert (Hpos : count_occ bool_dec m true > 0)
    by now apply count_occ_In.
  destruct ems as [|e0 ems]; [cbn in Hnem; lia|].
  exists pstart, pstop, exs, e0, ems.
  split; [assumption|]. split; [assumption|]. split; [assumption|].
  split; [assumption|]. split; [cbn in Hnem; lia|].
  unfold retrieve_angles. rewrite Hstart, Hstop. cbn [bind].
  rewrite (py_getitem_nth _ _ _ Hip). cbn [bind].
  rewrite (py_getitem_nth _ _ _ Hil). cbn [bind].
  rewrite Hexs, Hems. cbn [bind].
  change (py_getitem (e0 :: ems) 0) with (Ok e0 : result float).
  cbn [bind].
  destruct (forallb (fun x => F64.eqb e0 x) (e0 :: ems)); reflexivity.
Qed.

Lemma retrieve_angles_of_a_found_line_witness :
  let exangles := [of_Z 0; of_Z 0; of_Z 90; of_Z 90] in
  let emangles := [ratio 1 1000; of_Z 90; ratio 2 1000; of_Z 90] in
  let p := mkPortraits 1 [0%Z; 4%Z] in
  let L :=
    mkLines [[[true; false; true; false]; [false; true; false; true]]]
      (Some 2%Z) in
  exists pstart pstop exs e0 ems,
    py_getitem (portrait_indices p) (Z.of_nat 0) = Ok pstart
    /\ py_getitem (portrait_indices p) (Z.of_nat 0 + 1) = Ok pstop
    /\ select (py_slice exangles pstart pstop) [true; false; true; false]
       = Ok exs
    /\ select (py_slice emangles pstart pstop) [true; false; true; false]
       = Ok (e0 :: ems)
    /\ length exs = S (length ems)
    /\ retrieve_angles exangles emangles p (line_indices L)
         (Z.of_nat 0) (Z.of_nat 0)
       = if forallb (fun x => F64.eqb e0 x) (e0 :: ems)
         then Ok (exs, e0) else Raise AssertionError.
Proof.
  intros exangles emangles p L.
  apply (retrieve_angles_of_a_found_line exangles emangles p L 0 0
           [[true; false; true; false]; [false; true; false; true]]
           [true; false; true; false]).
  - vm_compute. reflexivity.
  - reflexivity.
  - reflexivity.
  - reflexivity.
  - now left.
Defined.

(** ** The measurements of a directory *)

Import MeasurementFiles.

Lemma str_eqb_eq (a b : str) : str_eqb a b = true <-> a = b.
Proof.
  unfold str_eqb. destruct (list_eq_dec Ascii.ascii_dec a b); split;
    congruence.
Qed.

Lemma endswith_spec (s suffix : str) :
  endswith s suffix = true <-> exists base, s = base ++ suffix.
Proof.
  unfold endswith. rewrite andb_true_iff, Nat.leb_le, str_eqb_eq. split.
  - intros [Hlen Hs]. exists (firstn (length s - length suffix) s).
    pose proof (firstn_skipn (length s - length suffix) s) as E.
    rewrite Hs in E. now symmetry.
  - intros (base & ->). rewrite length_app. split; [lia|].
    replace (length base + length suffix - length suffix)
      with (length base + 0) by lia.
    rewrite skipn_app, Nat.add_0_r, skipn_all.
    now replace (length base - length base) with 0 by lia.
Qed.

Lemma but_last4_app (base suffix : str) :
  length suffix = 4 -> but_last4 (base ++ suffix) = base.
Proof.
  intros H. unfold but_last4. rewrite length_app, H.
  replace (length base + 4 - 4) with (length base + 0) by lia.
  rewrite firstn_app_2. cbn. apply app_nil_r.
Qed.

(** The two loops, as the list of the pairs [(file1, file2)] they keep. *)
Lemma inner_loop_pairs (file1 : str) (l : list str) :
  forall basenames spefiles motorfiles,
    fold_left
      (fun found file2 =>
         if str_eqb file2 (lit "MS-" ++ but_last4 file1 ++ lit ".txt")
         then
           let '(basenames, spefiles, motorfiles) := found in
           (basenames ++ [but_last4 file1],
            spefiles ++ [file1],
            motorfiles ++ [file2])
         else found)
      l (basenames, spefiles, motorfiles)
    = let hits :=
        filter
          (fun file2 =>
             str_eqb file2 (lit "MS-" ++ but_last4 file1 ++ lit ".txt")) l in
      (basenames ++ map (fun _ => but_last4 file1) hits,
       spefiles ++ map (fun _ => file1) hits,
       motorfiles ++ hits).
Proof.
  induction l as [|file2 l IH]; intros basenames spefiles motorfiles.
  - cbn. now rewrite !app_nil_r.
  - cbn [fold_left filter].
    destruct (str_eqb file2 (lit "MS-" ++ but_last4 file1 ++ lit ".txt")).
    + rewrite IH. cbn. now rewrite <- !app_assoc.
    + apply IH.
Qed.

Lemma outer_loop_pairs (listdir l : list str) :
  forall basenames spefiles motorfiles,
    fold_left
      (fun found file1 =>
         if endswith file1 (lit ".spe") || endswith file1 (lit ".SPE") then
           fold_left
             (fun found file2 =>
                if str_eqb file2 (lit "MS-" ++ but_last4 file1 ++ lit ".txt")
                then
                  let '(basenames, spefiles, motorfiles) := found in
                  (basenames ++ [but_last4 file1],
                   spefiles ++ [file1],
                   motorfiles ++ [file2])
                else found)
             listdir found
         else found)
      l (basenames, spefiles, motorfiles)
    = let pairs :=
        flat_map
          (fun file1 =>
             if endswith file1 (lit ".spe") || endswith file1 (lit ".SPE")
             then
               map (fun file2 => (file1, file2))
                 (filter
                    (fun file2 =>
                       str_eqb file2
                         (lit "MS-" ++ but_last4 file1 ++ lit ".txt"))
                    listdir)
             else []) l in
      (basenames ++ map (fun p => but_last4 (fst p)) pairs,
       spefiles ++ map fst pairs,
       motorfiles ++ map snd pairs).
Proof.
  induction l as [|file1 l IH]; intros basenames spefiles motorfiles.
  - cbn. now rewrite !app_nil_r.
  - cbn [fold_left flat_map].
    destruct (endswith file1 (lit ".spe") || endswith file1 (lit ".SPE")).
    + rewrite inner_loop_pairs. cbv zeta. rewrite IH. cbv zeta.
      rewrite !map_app, !map_map, <- !app_assoc. cbn [fst snd].
      now rewrite map_id.
    + rewrite IH. reflexivity.
Qed.

Lemma filter_equal_NoDup (x : str) (l : list str) :
  NoDup l ->
  filter (fun y => str_eqb y x) l = []
  \/ filter (fun y => str_eqb y x) l = [x].
Proof.
  intros H. apply (NoDup_filter (fun y => str_eqb y x)) in H.
  assert (Hx : forall y, In y (filter (fun y => str_eqb y x) l) -> y = x).
  { intros y Hy. apply filter_In in Hy. now apply str_eqb_eq. }
  destruct (filter (fun y => str_eqb y x) l) as [|a [|b k]].
  - now left.
  - right. f_equal. apply Hx. now left.
  - exfalso. inversion H as [|? ? Hn _]; subst. apply Hn.
    rewrite (Hx a), (Hx b); [now left|right; now left|now left].
Qed.

Lemma NoDup_flat_map_singletons {A B : Type} (f : A -> list B)
    (g : B -> A) (l : list A) :
  (forall a b, In b (f a) -> g b = a) ->
  (forall a, NoDup (f a)) ->
  NoDup l -> NoDup (flat_map f l).
Proof.
  intros Hg Hf. induction 1 as [|a l Ha Hl IH]; cbn; [constructor|].
  apply NoDup_app; [apply Hf|assumption|].
  intros b Hb Hb'. apply in_flat_map in Hb'. destruct Hb' as (a' & Ha' & Hb').
  apply Hg in Hb, Hb'. subst. contradiction.
Qed.

Lemma map_flat_map_fst {A B C : Type} (f : A -> list (B * C)) (l : list A) :
  map fst (flat_map f l) = flat_map (fun a => map fst (f a)) l.
Proof.
  induction l as [|a l IH]; cbn; [reflexivity|].
  now rewrite map_app, IH.
Qed.

(** X26.  [find_measurement_files_in_directory] returns three lists that
    go together entry by entry: each base name is its SPE file name without
    the last four characters, and each motor file name is [MS-], the base
    name and [.txt].  An SPE file is returned exactly when it is in the
    directory, ends in [.spe] or [.SPE], and the motor file of its base name
    is in the directory too; as a directory lists a name once, no SPE file
    is returned twice. *)
Theorem find_measurement_files_pairs_data_with_motors
    (listdir basenames spefiles motorfiles : list str) :
  find_measurement_files_in_directory listdir
  = (basenames, spefiles, motorfiles) ->
  basenames = map but_last4 spefiles
  /\ motorfiles = map (fun b => lit "MS-" ++ b ++ lit ".txt") basenames
  /\ (forall f,
        In f spefiles <->
        In f listdir
        /\ exists b,
             (f = b ++ lit ".spe" \/ f = b ++ lit ".SPE")
             /\ In (lit "MS-" ++ b ++ lit ".txt") listdir)
  /\ (NoDup listdir -> NoDup spefiles).
Proof.
  unfold find_measurement_files_in_directory.
  rewrite outer_loop_pairs. cbv zeta. rewrite !app_nil_l.
  intros H. injection H as <- <- <-.
  assert (Hpairs : forall f1 f2,
             In (f1, f2)
               (flat_map
                  (fun file1 =>
                     if endswith file1 (lit ".spe")
                        || endswith file1 (lit ".SPE")
                     then
                       map (fun file2 => (file1, file2))
                         (filter
                            (fun file2 =>
                               str_eqb file2
                                 (lit "MS-" ++ but_last4 file1 ++ lit ".txt"))
                            listdir)
                     else []) listdir)
             <-> In f1 listdir
                 /\ endswith f1 (lit ".spe") || endswith f1 (lit ".SPE")
                    = true
                 /\ In f2 listdir
                 /\ f2 = lit "MS-" ++ but_last4 f1 ++ lit ".txt").
  { intros f1 f2. rewrite in_flat_map. split.
    - intros (file1 & Hin & Hp).
      destruct (endswith file1 (lit ".spe") || endswith file1 (lit ".SPE"))
        eqn:E; [|destruct Hp].
      apply in_map_iff in Hp. destruct Hp as (file2 & Heq & Hf).
      injection Heq as -> ->. apply filter_In in Hf. destruct Hf as [Hf Hm].
      apply str_eqb_eq in Hm. now repeat split.
    - intros (Hin & E & Hin2 & Hm). exists f1. split; [assumption|].
      rewrite E. apply in_map. apply filter_In. split; [assumption|].
      now apply str_eqb_eq. }
  assert (Hends : forall f,
             endswith f (lit ".spe") || endswith f (lit ".SPE") = true
             <-> exists b, (f = b ++ lit ".spe" \/ f = b ++ lit ".SPE")).
  { intros f. rewrite orb_true_iff, !endswith_spec. split.
    - intros [(b & Hb)|(b & Hb)]; exists b; tauto.
    - intros (b & [Hb|Hb]); [left|right]; now exists b. }
  split; [now rewrite map_map|]. split.
  { rewrite map_map. apply map_ext_in. intros [f1 f2] Hp.
    apply Hpairs in Hp. cbn [fst snd]. tauto. }
  split.
  - intros f. rewrite in_map_iff. split.
    + intros ([f1 f2] & Hf & Hp). cbn [fst] in Hf. subst f1.
      apply Hpairs in Hp. destruct Hp as (Hin & E & Hin2 & Hm).
      split; [assumption|]. apply Hends in E. destruct E as (b & Hb).
      exists b. split; [assumption|].
      assert (Hbase : but_last4 f = b).
      { destruct Hb as [->| ->]; now apply but_last4_app. }
      rewrite <- Hbase, <- Hm. assumption.
    + intros (Hin & b & Hb & Hm).
      assert (Hbase : but_last4 f = b).
      { destruct Hb as [->| ->]; now apply but_last4_app. }
      exists (f, lit "MS-" ++ b ++ lit ".txt"). split; [reflexivity|].
      apply Hpairs. split; [assumption|].
      split; [apply Hends; now exists b|]. split; [assumption|].
      now rewrite Hbase.
  - intros Hnd. rewrite map_flat_map_fst.
    apply NoDup_flat_map_singletons with (g := fun f => f);
      [| |assumption].
    + intros a b. cbv beta.
      match goal with
      | |- context [if ?c then _ else _] => destruct c
      end; [|cbn; tauto].
      intros Hb. rewrite map_map in Hb. cbn [fst] in Hb. apply in_map_iff in Hb.
      now destruct Hb as (? & -> & _).
    + intros a. cbv beta.
      match goal with
      | |- context [if ?c then _ else _] => destruct c
      end; [|constructor].
      rewrite map_map. cbn [fst].
      match goal with
      | |- context [filter (fun y => str_eqb y ?x) listdir] =>
          destruct (filter_equal_NoDup x listdir Hnd) as [E|E]; rewrite E
      end; repeat constructor. intros [].
Qed.

Lemma find_measurement_files_pairs_data_with_motors_witness :
  let listdir :=
    [lit "a.spe"; lit "MS-a.txt"; lit "b.SPE"; lit "notes.txt";
     lit "MS-c.txt"; lit ".spe"] in
  let basenames := [lit "a"] in
  let spefiles := [lit "a.spe"] in
  let motorfiles := [lit "MS-a.txt"] in
  basenames = map but_last4 spefiles
  /\ motorfiles = map (fun b => lit "MS-" ++ b ++ lit ".txt") basenames
  /\ (forall f,
        In f spefiles <->
        In f listdir
        /\ exists b,
             (f = b ++ lit ".spe" \/ f = b ++ lit ".SPE")
             /\ In (lit "MS-" ++ b ++ lit ".txt") listdir)
  /\ (NoDup listdir -> NoDup spefiles).
Proof.
  intros listdir basenames spefiles motorfiles.
  apply (find_measurement_files_pairs_data_with_motors listdir basenames
           spefiles motorfiles).
  vm_compute. reflexivity.
Defined.

(** ** [find_lines] after [find_portraits] *)

Local Open Scope Z_scope.

Lemma mapM_each {A B : Type} (f : A -> result B) (l : list A) (r : list B) :
  mapM f l = Ok r -> forall x, In x l -> exists y, f x = Ok y.
Proof.
  revert r. induction l as [|a l IH]; intros r H x Hx; [destruct Hx|].
  cbn [mapM] in H.
  apply bind_ok in H. destruct H as (y & Hy & H).
  apply bind_ok in H. destruct H as (ys & Hys & _).
  destruct Hx as [<-|Hx]; [now exists y|]. now apply IH with ys.
Qed.

Lemma mapM_total {A B : Type} (f : A -> result B) (l : list A) :
  (forall x, In x l -> exists y, f x = Ok y) -> exists r, mapM f l = Ok r.
Proof.
  induction l as [|a l IH]; intros H; [now exists []|].
  destruct (H a (or_introl eq_refl)) as (y & Hy).
  destruct IH as (ys & Hys); [intros x Hx; apply H; now right|].
  exists (y :: ys). cbn [mapM]. now rewrite Hy, Hys.
Qed.

Lemma py_slice_incl {A : Type} (l : list A) (start stop : Z) (x : A) :
  In x (py_slice l start stop) -> In x l.
Proof.
  unfold py_slice. intros H.
  set (a := Z.to_nat _) in H. set (b := Z.to_nat _) in H.
  rewrite <- (firstn_skipn b l). apply in_or_app. right.
  rewrite <- (firstn_skipn a (skipn b l)). apply in_or_app. now left.
Qed.

Lemma py_slice_inside {A : Type} (l : list A) (start stop : Z) :
  0 <= start <= stop -> stop <= Z.of_nat (length l) ->
  Z.of_nat (length (py_slice l start stop)) = stop - start.
Proof.
  intros H1 H2. unfold py_slice.
  destruct (Z.ltb_spec start 0) as [|_]; [lia|].
  destruct (Z.ltb_spec stop 0) as [|_]; [lia|].
  rewrite length_firstn, length_skipn. lia.
Qed.

Lemma py_getitem_map_range {A : Type} (g : Z -> A) (n i : Z) :
  0 <= i < n -> py_getitem (map g (range n)) i = Ok (g i).
Proof.
  intros Hi. rewrite <- (Z2Nat.id i) at 1 by lia. apply py_getitem_nth.
  rewrite nth_error_map. unfold range. rewrite nth_error_map.
  rewrite (nth_error_nth' _ 0%nat) by (rewrite length_seq; lia).
  rewrite seq_nth by lia. cbn. f_equal. f_equal. lia.
Qed.

(** X27.  [find_lines] after [find_portraits]: whenever [find_portraits]
    has returned, for any frame offset, [find_lines] returns too; it finds
    the lines of each of the [Nportraits] portraits and [Nlines] is
    assigned.  With a frame offset that is not negative and as many
    emission as excitation angles, every mask of every portrait has as many
    entries as a portrait has frames. *)
Theorem find_lines_after_find_portraits
    (exangles emangles : list float) (frameoffset : Z) (p : portraits) :
  find_portraits exangles emangles frameoffset = Ok p ->
  exists L n fpp,
    find_lines emangles p = Ok L
    /\ Nlines L = Some n
    /\ length (line_indices L) = Z.to_nat (Nportraits p)
    /\ frames_per_portrait exangles emangles = Ok fpp
    /\ (0 <= frameoffset -> length emangles = length exangles ->
        forall masks m,
          In masks (line_indices L) -> In m masks ->
          Z.of_nat (length m) = fpp).
Proof.
  intros H.
  destruct (find_portraits_indices _ _ _ _ H)
    as (fpp & Hf & Hfpp & Hm & Hpos & Hn & Hind).
  assert (Hround : exists rounded, mapM round2 emangles = Ok rounded).
  { unfold frames_per_portrait in Hf.
    apply bind_ok in Hf. destruct Hf as (exr & _ & Hf).
    apply bind_ok in Hf. destruct Hf as (emr & Hemr & _). now exists emr. }
  destruct Hround as (rounded & Hround).
  assert (Hslice : forall a b,
             exists r, mapM round2 (py_slice emangles a b) = Ok r).
  { intros a b. apply mapM_total. intros x Hx.
    apply (mapM_each _ _ _ Hround). now apply py_slice_incl in Hx. }
  assert (Hbody : forall i,
             0 <= i < Nportraits p ->
             exists masks,
               (pstart <- py_getitem (portrait_indices p) i ;;
                pstop <- py_getitem (portrait_indices p) (i + 1) ;;
                lines_of_portrait emangles pstart pstop) = Ok masks
               /\ lines_of_portrait emangles (i * fpp + frameoffset)
                    ((i + 1) * fpp + frameoffset) = Ok masks).
  { intros i Hi. rewrite Hind.
    rewrite (py_getitem_map_range _ (Nportraits p + 1) i) by lia.
    rewrite (py_getitem_map_range _ (Nportraits p + 1) (i + 1)) by lia.
    cbn [bind]. unfold lines_of_portrait.
    destruct (Hslice (i * fpp + frameoffset) ((i + 1) * fpp + frameoffset))
      as (r & ->).
    cbn [bind]. eexists. split; reflexivity. }
  destruct (mapM_total
              (fun pi =>
                 pstart <- py_getitem (portrait_indices p) pi ;;
                 pstop <- py_getitem (portrait_indices p) (pi + 1) ;;
                 lines_of_portrait emangles pstart pstop)
              (range (Nportraits p))) as (all & Hall).
  { intros i Hi. apply range_in in Hi.
    destruct (Hbody i Hi) as (masks & Hmasks & _). now exists masks. }
  assert (Hlen : length all = Z.to_nat (Nportraits p)).
  { apply mapM_length in Hall. now rewrite Hall, range_length. }
  assert (Hlast : exists masks rest, rev all = masks :: rest).
  { destruct (rev all) as [|masks rest] eqn:E; [|now exists masks, rest].
    apply (f_equal (@length _)) in E. rewrite length_rev in E.
    cbn in E. lia. }
  destruct Hlast as (last & rest & Hlast).
  exists (mkLines all (Some (Z.of_nat (length last)))),
    (Z.of_nat (length last)), fpp.
  split; [unfold find_lines; rewrite Hall; cbn [bind]; now rewrite Hlast|].
  split; [reflexivity|]. split; [assumption|]. split; [assumption|].
  cbn [line_indices]. intros Hoff Hsame masks m Hmasks Hin.
  apply In_nth_error in Hmasks. destruct Hmasks as (k & Hk).
  destruct (mapM_nth _ _ _ Hall _ _ Hk) as (i & Hi & Hrun).
  pose proof (range_nth _ _ _ Hi) as ->.
  apply nth_error_In, range_in in Hi.
  destruct (Hbody _ Hi) as (masks' & Hrun' & Hlines).
  rewrite Hrun in Hrun'. injection Hrun' as <-.
  destruct (lines_of_portrait_spec _ _ _ _ Hlines) as (r & Hr & ->).
  apply in_map_iff in Hin. destruct Hin as (u & <- & _).
  rewrite length_map. apply mapM_length in Hr. rewrite Hr.
  rewrite py_slice_inside; [lia|lia|].
  rewrite Hsame.
  pose proof (Z.div_mod (Z.of_nat (length exangles) - frameoffset) fpp
                ltac:(lia)) as E.
  pose proof (Z.mod_pos_bound (Z.of_nat (length exangles) - frameoffset) fpp
                Hfpp) as B.
  assert (Z.of_nat k + 1
          <= (Z.of_nat (length exangles) - frameoffset) / fpp) by lia.
  nia.
Qed.

Lemma find_lines_after_find_portraits_witness :
  exists p,
    find_portraits (firstn 8 PortraitSamples.exangles)
      (firstn 8 PortraitSamples.emangles) 4 = Ok p
    /\ exists L n fpp,
         find_lines (firstn 8 PortraitSamples.emangles) p = Ok L
         /\ Nlines L = Some n
         /\ length (line_indices L) = Z.to_nat (Nportraits p)
         /\ frames_per_portrait (firstn 8 PortraitSamples.exangles)
              (firstn 8 PortraitSamples.emangles) = Ok fpp
         /\ (0 <= 4 ->
             length (firstn 8 PortraitSamples.emangles)
             = length (firstn 8 PortraitSamples.exangles) ->
             forall masks m,
               In masks (line_indices L) -> In m masks ->
               Z.of_nat (length m) = fpp).
Proof.
  eexists. split; [vm_compute; reflexivity|].
  apply (find_lines_after_find_portraits (firstn 8 PortraitSamples.exangles)
           (firstn 8 PortraitSamples.emangles) 4).
  vm_compute. reflexivity.
Defined.

Local Close Scope Z_scope.
